(** * Melodia: path store and interaction coordinator

    A shallow embedding of [core/PathManager.ts] (the path store) and of the
    gesture handlers of [main.ts] (the coordinator), with the properties of
    the specification stated and settled against them.  The touch handler
    ([components/TouchHandler.ts]), the playback half of
    [core/AudioEngine.ts] and the drawing methods of
    [core/CanvasRenderer.ts] are embedded as well, and further properties of
    the code are proved at the end.

    Numbers.  A JavaScript [number] is a double.  The store, the coordinator
    and the engine are embedded over the real numbers, where arithmetic is
    exact; this serves the properties about ids, states, order and commands,
    which do not turn on how a sum or a quotient rounds.  Every division of
    the source but one sits behind a test that its divisor is not zero, so
    it stays inside the reals.  The one unguarded division, in
    [attachAudioData], is modelled by [JS.div], which gives what IEEE 754
    gives for a zero divisor: an infinity, or NaN for 0/0.  The geometry of
    the store is embedded a second time over binary64 floats ([Double]);
    what the specification says about bounding boxes and progress is settled
    there, because there the rounding decides.

    Handlers.  [handleInputStart], [handlePathPlayback] and [handleInputEnd]
    are [async], and a step of the coordinator runs one handler to its end.
    The source waits on the browser in three places: for the microphone
    ([getUserMedia]), for the recorder to stop, and for [decodeAudioData];
    an event that arrives during such a wait is handled before the waiting
    handler goes on.  An [await] of a promise that is settled already lets
    no event in.  A property about several handlers says which waits it
    leaves aside.

    Clocks.  [performance.now()] and [Date.now()] are inputs of the
    operations that read them.

    Collections.  A JavaScript [Map] iterates in insertion order and
    [findPathAtPoint] returns the first match, so the path collection is an
    association list in insertion order ([JsMap]); the [Set]s are [gset]s. *)

From Stdlib Require Import Floats.
From Stdlib Require Import Reals Lra Lia.
From stdpp Require Import base decidable option list strings pretty gmap
  sorting.

Local Open Scope R_scope.

(** ** Numbers *)

#[global] Instance Rlt_decision : RelDecision Rlt := Rlt_dec.
#[global] Instance Rle_decision : RelDecision Rle := Rle_dec.
#[global] Instance Rgt_decision : RelDecision Rgt := Rgt_dec.
#[global] Instance Rge_decision : RelDecision Rge := Rge_dec.
#[global] Instance Req_decision : EqDecision R := Req_EM_T.

Module JS.

(** The values a [number] can take once a division by zero is possible. *)
Inductive number : Type :=
| Fin (r : R)
| PosInfinity
| NegInfinity
| NaN.

(** [a / b] on finite operands, with the IEEE 754 results for [b = 0]. *)
Definition div (a b : R) : number :=
  if decide (b = 0) then
    if decide (a = 0) then NaN
    else if decide (0 < a) then PosInfinity else NegInfinity
  else Fin (a / b).

(** [Math.max(a, b)] and [Math.min(a, b)] on finite operands. *)
Definition max (a b : R) : R := if decide (a < b) then b else a.
Definition min (a b : R) : R := if decide (b < a) then b else a.

End JS.

(** Raw audio payload ([ArrayBuffer]). *)
Definition ArrayBuffer : Type := list Byte.byte.

(** ** utils/types.ts *)

Module Point.
Record t : Type := mk {
  x : R;
  y : R;
  timestamp : R;
  pressure : option R
}.
End Point.

Module Rectangle.
Record t : Type := mk {
  x : R;
  y : R;
  width : R;
  height : R
}.
End Rectangle.

Module PathStyle.
Record t : Type := mk {
  strokeWidth : R;
  strokeColor : string;
  glowIntensity : R
}.
End PathStyle.

Inductive AudioFormat : Type := webm | mp3.

Module AudioData.
Record t : Type := mk {
  buffer : ArrayBuffer;
  format : AudioFormat;
  sampleRate : R;
  duration : R;
  recordedAt : R;              (* metadata.recordedAt *)
  originalSpeed : JS.number    (* metadata.originalSpeed *)
}.
End AudioData.

Module AudioPath.
Record t : Type := mk {
  id : string;
  points : list Point.t;
  audioData : option AudioData.t;
  style : PathStyle.t;
  boundingBox : Rectangle.t;
  createdAt : R
}.

Definition with_points (p : t) (pts : list Point.t) : t :=
  mk (id p) pts (audioData p) (style p) (boundingBox p) (createdAt p).
Definition with_boundingBox (p : t) (b : Rectangle.t) : t :=
  mk (id p) (points p) (audioData p) (style p) b (createdAt p).
Definition with_audioData (p : t) (a : AudioData.t) : t :=
  mk (id p) (points p) (Some a) (style p) (boundingBox p) (createdAt p).
End AudioPath.

(** ** A JavaScript [Map] with string keys: insertion-ordered *)

Module JsMap.
Section WithValue.
Context {V : Type}.

Definition t : Type := list (string * V).

Fixpoint get (m : t) (k : string) : option V :=
  match m with
  | [] => None
  | (k', v) :: m' => if decide (k' = k) then Some v else get m' k
  end.

(** [set] on a present key keeps the key's place; a new key goes last. *)
Fixpoint set (m : t) (k : string) (v : V) : t :=
  match m with
  | [] => [(k, v)]
  | (k', v') :: m' =>
      if decide (k' = k) then (k, v) :: m' else (k', v') :: set m' k v
  end.

Fixpoint delete (m : t) (k : string) : t :=
  match m with
  | [] => []
  | (k', v') :: m' =>
      if decide (k' = k) then m' else (k', v') :: delete m' k
  end.

Definition clear (_ : t) : t := [].

Definition keys (m : t) : list string := m.*1.
Definition values (m : t) : list V := m.*2.
End WithValue.
Arguments t : clear implicits.
End JsMap.

(** ** core/PathManager.ts *)

Module PathManager.

Record t : Type := mk {
  paths : JsMap.t AudioPath.t;
  activePaths : gset string;
  pathCounter : N
}.

(** [new PathManager()] *)
Definition new : t := mk [] ∅ 0%N.

(** The template literal [`path-${n}`]. *)
Definition path_id (n : N) : string := "path-" +:+ pretty n.

Definition getDefaultStyle : PathStyle.t :=
  PathStyle.mk 3 "#ffffff" (5 / 10).

Definition createBoundingBox (point : Point.t) : Rectangle.t :=
  Rectangle.mk (Point.x point) (Point.y point) 0 0.

(** [{...point, timestamp: performance.now()}] *)
Definition stamp (point : Point.t) (now : R) : Point.t :=
  Point.mk (Point.x point) (Point.y point) now (Point.pressure point).

Definition startRecording (pm : t) (point : Point.t) (now date_now : R)
  : t * string :=
  let counter := (pathCounter pm + 1)%N in
  let pathId := path_id counter in
  let pathPoint := stamp point now in
  let newPath :=
    AudioPath.mk pathId [pathPoint] None getDefaultStyle
      (createBoundingBox pathPoint) date_now in
  (mk (JsMap.set (paths pm) pathId newPath)
      ({[ pathId ]} ∪ activePaths pm)
      counter,
   pathId).

Definition updateBoundingBox (box : Rectangle.t) (point : Point.t)
  : Rectangle.t :=
  let px := Point.x point in
  let py := Point.y point in
  let '(bx, bw) :=
    if decide (px < Rectangle.x box) then
      (px, Rectangle.width box + (Rectangle.x box - px))
    else if decide (px > Rectangle.x box + Rectangle.width box) then
      (Rectangle.x box, px - Rectangle.x box)
    else (Rectangle.x box, Rectangle.width box) in
  let '(by_, bh) :=
    if decide (py < Rectangle.y box) then
      (py, Rectangle.height box + (Rectangle.y box - py))
    else if decide (py > Rectangle.y box + Rectangle.height box) then
      (Rectangle.y box, py - Rectangle.y box)
    else (Rectangle.y box, Rectangle.height box) in
  Rectangle.mk bx by_ bw bh.

Definition getPath (pm : t) (pathId : string) : option AudioPath.t :=
  JsMap.get (paths pm) pathId.

Definition addPoint (pm : t) (pathId : string) (point : Point.t) (now : R)
  : t :=
  match JsMap.get (paths pm) pathId with
  | None => pm
  | Some path =>
      let pathPoint := stamp point now in
      let path' :=
        AudioPath.with_boundingBox
          (AudioPath.with_points path (AudioPath.points path ++ [pathPoint]))
          (updateBoundingBox (AudioPath.boundingBox path) pathPoint) in
      mk (JsMap.set (paths pm) pathId path') (activePaths pm) (pathCounter pm)
  end.

Definition endRecording (pm : t) (pathId : string) : t :=
  mk (paths pm) (activePaths pm ∖ {[ pathId ]}) (pathCounter pm).

Definition getAllPaths (pm : t) : list AudioPath.t := JsMap.values (paths pm).

Definition deletePath (pm : t) (pathId : string) : t :=
  mk (JsMap.delete (paths pm) pathId) (activePaths pm ∖ {[ pathId ]})
     (pathCounter pm).

Definition clearAllPaths (pm : t) : t := mk (JsMap.clear (paths pm)) ∅ 0%N.

(** [isRecording(pathId)] with its argument given. *)
Definition isRecording (pm : t) (pathId : string) : bool :=
  bool_decide (pathId ∈ activePaths pm).

Definition distanceToPoint (p1 p2 : Point.t) : R :=
  let dx := Point.x p1 - Point.x p2 in
  let dy := Point.y p1 - Point.y p2 in
  sqrt (dx * dx + dy * dy).

(** The loop of [calculatePathLength]: [prev] is [points[i-1]], [rest] is
    [points[i..]], [length] the running sum. *)
Fixpoint calculatePathLength_loop (prev : Point.t) (rest : list Point.t)
  (length : R) : R :=
  match rest with
  | [] => length
  | curr :: rest' =>
      let dx := Point.x curr - Point.x prev in
      let dy := Point.y curr - Point.y prev in
      calculatePathLength_loop curr rest' (length + sqrt (dx * dx + dy * dy))
  end.

Definition calculatePathLength (path : AudioPath.t) : R :=
  match AudioPath.points path with
  | [] => 0
  | p0 :: rest => calculatePathLength_loop p0 rest 0
  end.

Definition getRecordingDuration (path : AudioPath.t) : R :=
  let points := AudioPath.points path in
  if decide (length points < 2)%nat then 0
  else
    match points !! 0%nat, points !! (length points - 1)%nat with
    | Some first, Some final => Point.timestamp final - Point.timestamp first
    | _, _ => 0
    end.

Definition attachAudioData (pm : t) (pathId : string) (audioData : ArrayBuffer)
  : t :=
  match JsMap.get (paths pm) pathId with
  | None => pm
  | Some path =>
      let pathLength := calculatePathLength path in
      let recordingDuration := getRecordingDuration path in
      let originalSpeed := JS.div pathLength recordingDuration in
      let path' :=
        AudioPath.with_audioData path
          (AudioData.mk audioData webm 44100 (recordingDuration / 1000)
             (AudioPath.createdAt path) originalSpeed) in
      mk (JsMap.set (paths pm) pathId path') (activePaths pm) (pathCounter pm)
  end.

(** *** Path queries *)

Definition distanceToLineSegment (point lineStart lineEnd : Point.t) : R :=
  let A := Point.x point - Point.x lineStart in
  let B := Point.y point - Point.y lineStart in
  let C := Point.x lineEnd - Point.x lineStart in
  let D := Point.y lineEnd - Point.y lineStart in
  let dot := A * C + B * D in
  let lenSq := C * C + D * D in
  if decide (lenSq = 0) then sqrt (A * A + B * B)
  else
    let param := dot / lenSq in
    let '(xx, yy) :=
      if decide (param < 0) then (Point.x lineStart, Point.y lineStart)
      else if decide (param > 1) then (Point.x lineEnd, Point.y lineEnd)
      else (Point.x lineStart + param * C, Point.y lineStart + param * D) in
    let dx := Point.x point - xx in
    let dy := Point.y point - yy in
    sqrt (dx * dx + dy * dy).

(** The segment loop of [isPointNearPath]: [p1] is [points[i]], [rest] is
    [points[i+1..]]; [true] as soon as a segment is within [tolerance]. *)
Fixpoint nearSegment_loop (point : Point.t) (tolerance : R) (p1 : Point.t)
  (rest : list Point.t) : bool :=
  match rest with
  | [] => false
  | p2 :: rest' =>
      if decide (distanceToLineSegment point p1 p2 <= tolerance) then true
      else nearSegment_loop point tolerance p2 rest'
  end.

Definition isPointNearPath (point : Point.t) (path : AudioPath.t)
  (tolerance : R) : bool :=
  let box := AudioPath.boundingBox path in
  if bool_decide (Point.x point < Rectangle.x box - tolerance)
     || bool_decide
          (Point.x point > Rectangle.x box + Rectangle.width box + tolerance)
     || bool_decide (Point.y point < Rectangle.y box - tolerance)
     || bool_decide
          (Point.y point > Rectangle.y box + Rectangle.height box + tolerance)
  then false
  else
    let onSegment :=
      match AudioPath.points path with
      | [] => false
      | p0 :: rest => nearSegment_loop point tolerance p0 rest
      end in
    if onSegment then true
    else
      match AudioPath.points path with
      | [pathPoint] =>
          let dx := Point.x point - Point.x pathPoint in
          let dy := Point.y point - Point.y pathPoint in
          bool_decide (sqrt (dx * dx + dy * dy) <= tolerance)
      | _ => false
      end.

(** [for (const [pathId, path] of this.paths)]: the first match wins. *)
Fixpoint findPathAtPoint_loop (entries : JsMap.t AudioPath.t)
  (point : Point.t) (tolerance : R) : option string :=
  match entries with
  | [] => None
  | (pathId, path) :: entries' =>
      if isPointNearPath point path tolerance then Some pathId
      else findPathAtPoint_loop entries' point tolerance
  end.

Definition findPathAtPoint (pm : t) (point : Point.t) (tolerance : R)
  : option string :=
  findPathAtPoint_loop (paths pm) point tolerance.

Definition closestPointOnLineSegment (point lineStart lineEnd : Point.t)
  (now : R) : Point.t :=
  let A := Point.x point - Point.x lineStart in
  let B := Point.y point - Point.y lineStart in
  let C := Point.x lineEnd - Point.x lineStart in
  let D := Point.y lineEnd - Point.y lineStart in
  let dot := A * C + B * D in
  let lenSq := C * C + D * D in
  if decide (lenSq = 0) then lineStart
  else
    let param := dot / lenSq in
    let param := if decide (param < 0) then 0 else param in
    let param := if decide (param > 1) then 1 else param in
    Point.mk (Point.x lineStart + param * C) (Point.y lineStart + param * D)
      now None.

(** The local variables of [findNearestPointOnPath] that its loop updates. *)
Record Scan : Type := mkScan {
  nearestPoint : Point.t;
  minDistance : R;
  nearestProgress : R;
  accumulatedLength : R
}.

(** One iteration of the segment loop, on the segment [p1 p2]. *)
Definition scan_segment (clickPoint : Point.t) (totalLength now : R)
  (p1 p2 : Point.t) (st : Scan) : Scan :=
  let closestPoint := closestPointOnLineSegment clickPoint p1 p2 now in
  let distance := distanceToPoint clickPoint closestPoint in
  let st' :=
    if decide (distance < minDistance st) then
      let segmentLength := distanceToPoint p1 p2 in
      let pointToSegmentStart := distanceToPoint p1 closestPoint in
      let progressInSegment :=
        if decide (segmentLength > 0) then pointToSegmentStart / segmentLength
        else 0 in
      mkScan closestPoint distance
        (if decide (totalLength > 0) then
           (accumulatedLength st + progressInSegment * segmentLength)
           / totalLength
         else 0)
        (accumulatedLength st)
    else st in
  mkScan (nearestPoint st') (minDistance st') (nearestProgress st')
    (accumulatedLength st' + distanceToPoint p1 p2).

Fixpoint scan_loop (clickPoint : Point.t) (totalLength now : R)
  (p1 : Point.t) (rest : list Point.t) (st : Scan) : Scan :=
  match rest with
  | [] => st
  | p2 :: rest' =>
      scan_loop clickPoint totalLength now p2 rest'
        (scan_segment clickPoint totalLength now p1 p2 st)
  end.

Module Nearest.
Record t : Type := mk { point : Point.t; progress : R }.
End Nearest.

(** A call either returns or throws: [path.points[0]] of a path without
    points is [undefined], and reading its [x] is a [TypeError]. *)
Inductive completion (A : Type) : Type :=
| Return (a : A)
| TypeError.
Arguments Return {A} a.
Arguments TypeError {A}.

Definition findNearestPointOnPath (pm : t) (clickPoint : Point.t)
  (pathId : string) (now : R) : completion (option Nearest.t) :=
  match JsMap.get (paths pm) pathId with
  | None => Return None
  | Some path =>
      match AudioPath.points path with
      | [] => TypeError
      | p0 :: rest =>
          let totalLength := calculatePathLength path in
          let st :=
            scan_loop clickPoint totalLength now p0 rest
              (mkScan p0 (distanceToPoint clickPoint p0) 0 0) in
          Return
            (Some (Nearest.mk (nearestPoint st)
                     (JS.max 0 (JS.min 1 (nearestProgress st)))))
      end
  end.

End PathManager.

(** ** core/AudioEngine.ts

    The audio capability is external to the core.  What the coordinator
    reads of it are its readiness flags and the results of its calls; what it
    asks of it is recorded in [calls], in the order of the calls.  The
    outcomes the browser decides (whether [getUserMedia] and the
    [MediaRecorder] succeed, what the recorder hands back) are inputs. *)

Module AudioEngine.

Inductive call : Type :=
| PlayAudioAtPosition (audioData : ArrayBuffer) (playbackId : string)
    (position rate : R)
| CreateLoop (audioData : ArrayBuffer) (playbackId : string)
    (position duration : R)
| StopPlayback (playbackId : string).

(** [mediaRecorder]: not created yet, or its [state]. *)
Inductive recorder : Type := NoRecorder | Inactive | Recording.

Record t : Type := mk {
  isInitialized : bool;
  permissionGranted : bool;
  stream : bool;               (* [this.stream] is set *)
  mediaRecorder : recorder;
  calls : list call
}.

(** [new AudioEngine()] followed by [initialize()]; [audioContext_ok] tells
    whether the [AudioContext] could be created. *)
Definition initialize (audioContext_ok : bool) : t :=
  mk audioContext_ok false false NoRecorder [].

Definition isReady (ae : t) : bool :=
  isInitialized ae && permissionGranted ae.

Definition requestMicrophonePermission (ae : t) (getUserMedia_ok : bool)
  : t * bool :=
  if permissionGranted ae && stream ae then (ae, true)
  else if getUserMedia_ok then
    (mk (isInitialized ae) true true (mediaRecorder ae) (calls ae), true)
  else (ae, false).

Definition startRecording (ae : t) (mediaRecorder_ok : bool) : t * bool :=
  if negb (permissionGranted ae) || negb (stream ae) then (ae, false)
  else if mediaRecorder_ok then
    (mk (isInitialized ae) (permissionGranted ae) (stream ae) Recording
        (calls ae), true)
  else (ae, false).

Definition stopRecording (ae : t) (recorded : option ArrayBuffer)
  : t * option ArrayBuffer :=
  match mediaRecorder ae with
  | NoRecorder | Inactive => (ae, None)
  | Recording =>
      (mk (isInitialized ae) (permissionGranted ae) (stream ae) Inactive
          (calls ae), recorded)
  end.

Definition log (ae : t) (c : call) : t :=
  mk (isInitialized ae) (permissionGranted ae) (stream ae) (mediaRecorder ae)
     (calls ae ++ [c]).

Definition playAudioAtPosition (ae : t) (audioData : ArrayBuffer)
  (playbackId : string) (position rate : R) : t :=
  log ae (PlayAudioAtPosition audioData playbackId position rate).

Definition createLoop (ae : t) (audioData : ArrayBuffer) (playbackId : string)
  (position duration : R) : t :=
  log ae (CreateLoop audioData playbackId position duration).

Definition stopPlayback (ae : t) (playbackId : string) : t :=
  log ae (StopPlayback playbackId).

(** The commands that start audio output: [playAudioAtPosition] and
    [createLoop]. *)
Definition is_playback_command (c : call) : bool :=
  match c with
  | PlayAudioAtPosition _ _ _ _ | CreateLoop _ _ _ _ => true
  | StopPlayback _ => false
  end.

Definition playback_commands (ae : t) : list call :=
  filter (fun c => is_playback_command c = true) (calls ae).

End AudioEngine.

(** ** utils/types.ts: input events, and what a handler reads from outside *)

Inductive InputType : Type := MOUSE | TOUCH | PEN.

Module InputEvent.
Record t : Type := mk {
  type : InputType;
  point : Point.t;
  isStart : bool;
  isEnd : bool;
  id : Z
}.
End InputEvent.

Module Env.
Record t : Type := mk {
  performance_now : R;             (* [performance.now()] *)
  date_now : R;                    (* [Date.now()] *)
  getUserMedia_ok : bool;          (* the microphone is granted when asked *)
  mediaRecorder_ok : bool;         (* the recorder starts when asked *)
  recorded : option ArrayBuffer    (* what the running recorder hands back *)
}.
End Env.

(** ** main.ts: the coordinator

    Each handler is modelled as one atomic step: the [await]s inside a
    handler are not interleaved with other handlers.  With an engine that is
    ready, the only waits on the browser are the one of [handlePathPlayback]
    for its loop (for [decodeAudioData], when the path is played for the
    first time) and the one of [handleInputEnd] for the recorder to stop.
    The state is the fields of [MelodiaApp] that the handlers read or write;
    the DOM handles, the renderer and [positionSmoothingFactor], which no
    handler reads, are left out. *)

Module MelodiaApp.

Record t : Type := mk {
  pathManager : PathManager.t;
  audioEngine : AudioEngine.t;
  currentRecordingPath : option string;
  isAppReady : bool;
  playingPaths : gset string;
  playbackIndicators : gmap string Point.t;
  activePlaybackPath : option string;
  lastPlaybackPoint : option Point.t;
  lastPlaybackTime : R;
  isMoving : bool;
  movementThreshold : R;
  lastAudioPosition : R
}.

Definition set_pathManager (a : t) (v : PathManager.t) : t :=
  mk v (audioEngine a) (currentRecordingPath a) (isAppReady a)
     (playingPaths a) (playbackIndicators a) (activePlaybackPath a)
     (lastPlaybackPoint a) (lastPlaybackTime a) (isMoving a)
     (movementThreshold a) (lastAudioPosition a).
Definition set_audioEngine (a : t) (v : AudioEngine.t) : t :=
  mk (pathManager a) v (currentRecordingPath a) (isAppReady a)
     (playingPaths a) (playbackIndicators a) (activePlaybackPath a)
     (lastPlaybackPoint a) (lastPlaybackTime a) (isMoving a)
     (movementThreshold a) (lastAudioPosition a).
Definition set_currentRecordingPath (a : t) (v : option string) : t :=
  mk (pathManager a) (audioEngine a) v (isAppReady a)
     (playingPaths a) (playbackIndicators a) (activePlaybackPath a)
     (lastPlaybackPoint a) (lastPlaybackTime a) (isMoving a)
     (movementThreshold a) (lastAudioPosition a).
Definition set_playingPaths (a : t) (v : gset string) : t :=
  mk (pathManager a) (audioEngine a) (currentRecordingPath a) (isAppReady a)
     v (playbackIndicators a) (activePlaybackPath a)
     (lastPlaybackPoint a) (lastPlaybackTime a) (isMoving a)
     (movementThreshold a) (lastAudioPosition a).
Definition set_playbackIndicators (a : t) (v : gmap string Point.t) : t :=
  mk (pathManager a) (audioEngine a) (currentRecordingPath a) (isAppReady a)
     (playingPaths a) v (activePlaybackPath a)
     (lastPlaybackPoint a) (lastPlaybackTime a) (isMoving a)
     (movementThreshold a) (lastAudioPosition a).
Definition set_activePlaybackPath (a : t) (v : option string) : t :=
  mk (pathManager a) (audioEngine a) (currentRecordingPath a) (isAppReady a)
     (playingPaths a) (playbackIndicators a) v
     (lastPlaybackPoint a) (lastPlaybackTime a) (isMoving a)
     (movementThreshold a) (lastAudioPosition a).
Definition set_lastPlaybackPoint (a : t) (v : option Point.t) : t :=
  mk (pathManager a) (audioEngine a) (currentRecordingPath a) (isAppReady a)
     (playingPaths a) (playbackIndicators a) (activePlaybackPath a)
     v (lastPlaybackTime a) (isMoving a)
     (movementThreshold a) (lastAudioPosition a).
Definition set_lastPlaybackTime (a : t) (v : R) : t :=
  mk (pathManager a) (audioEngine a) (currentRecordingPath a) (isAppReady a)
     (playingPaths a) (playbackIndicators a) (activePlaybackPath a)
     (lastPlaybackPoint a) v (isMoving a)
     (movementThreshold a) (lastAudioPosition a).
Definition set_isMoving (a : t) (v : bool) : t :=
  mk (pathManager a) (audioEngine a) (currentRecordingPath a) (isAppReady a)
     (playingPaths a) (playbackIndicators a) (activePlaybackPath a)
     (lastPlaybackPoint a) (lastPlaybackTime a) v
     (movementThreshold a) (lastAudioPosition a).
Definition set_lastAudioPosition (a : t) (v : R) : t :=
  mk (pathManager a) (audioEngine a) (currentRecordingPath a) (isAppReady a)
     (playingPaths a) (playbackIndicators a) (activePlaybackPath a)
     (lastPlaybackPoint a) (lastPlaybackTime a) (isMoving a)
     (movementThreshold a) v.

(** The app as the constructor leaves it, before [init()] has finished:
    [isAppReady] is still [false]. *)
Definition constructed : t :=
  mk PathManager.new (AudioEngine.mk false false false AudioEngine.NoRecorder [])
     None false ∅ ∅ None None 0 false 5 0.

(** The app once [init()] has run: audio engine initialised, [isAppReady]
    set. *)
Definition init (audioContext_ok : bool) : t :=
  mk PathManager.new (AudioEngine.initialize audioContext_ok) None true
     ∅ ∅ None None 0 false 5 0.

(** A [string | null] used as a condition: [null] and the empty string are
    falsy. *)
Definition truthy (s : option string) : option string :=
  match s with
  | Some "" => None
  | _ => s
  end.

Definition handlePathPlayback (app : t) (pathId : string) (clickPoint : Point.t)
  (env : Env.t) : t :=
  match PathManager.getPath (pathManager app) pathId with
  | None => app
  | Some path =>
      match AudioPath.audioData path with
      | None => app
      | Some audio =>
          match PathManager.findNearestPointOnPath (pathManager app) clickPoint
                  pathId (Env.performance_now env) with
          | PathManager.TypeError => app
          | PathManager.Return None => app
          | PathManager.Return (Some nearestResult) =>
              let nearestPoint := PathManager.Nearest.point nearestResult in
              let progress := PathManager.Nearest.progress nearestResult in
              let '(engine, permissionGranted) :=
                if negb (AudioEngine.isReady (audioEngine app)) then
                  AudioEngine.requestMicrophonePermission (audioEngine app)
                    (Env.getUserMedia_ok env)
                else (audioEngine app, true) in
              if negb permissionGranted then set_audioEngine app engine
              else
                let position := progress * AudioData.duration audio in
                let app := set_activePlaybackPath app (Some pathId) in
                let app := set_lastPlaybackPoint app (Some nearestPoint) in
                let app := set_lastPlaybackTime app (Env.performance_now env) in
                let app := set_isMoving app false in
                let app := set_lastAudioPosition app position in
                let app :=
                  set_audioEngine app
                    (AudioEngine.createLoop engine (AudioData.buffer audio)
                       pathId position (2 / 10)) in
                let app :=
                  set_playingPaths app ({[ pathId ]} ∪ playingPaths app) in
                set_playbackIndicators app
                  (<[ pathId := nearestPoint ]> (playbackIndicators app))
          end
      end
  end.

Definition handleInputStart (app : t) (event : InputEvent.t) (env : Env.t) : t :=
  if negb (isAppReady app) then app
  else
    match truthy (PathManager.findPathAtPoint (pathManager app)
                    (InputEvent.point event) 15) with
    | Some existingPathId =>
        handlePathPlayback app existingPathId (InputEvent.point event) env
    | None =>
        let engine :=
          if negb (AudioEngine.isReady (audioEngine app)) then
            fst (AudioEngine.requestMicrophonePermission (audioEngine app)
                   (Env.getUserMedia_ok env))
          else audioEngine app in
        let engine :=
          if AudioEngine.isReady engine then
            fst (AudioEngine.startRecording engine (Env.mediaRecorder_ok env))
          else engine in
        let '(pm, pathId) :=
          PathManager.startRecording (pathManager app) (InputEvent.point event)
            (Env.performance_now env) (Env.date_now env) in
        set_currentRecordingPath
          (set_pathManager (set_audioEngine app engine) pm) (Some pathId)
    end.

Definition handlePlaybackMove (app : t) (currentPoint : Point.t) (env : Env.t)
  : t :=
  match truthy (activePlaybackPath app), lastPlaybackPoint app with
  | Some active, Some last =>
      match PathManager.getPath (pathManager app) active with
      | None => app
      | Some path =>
          match AudioPath.audioData path with
          | None => app
          | Some audio =>
              let distance :=
                sqrt ((Point.x currentPoint - Point.x last) ^ 2
                      + (Point.y currentPoint - Point.y last) ^ 2) in
              let app :=
                if negb (isMoving app)
                   && bool_decide (distance > movementThreshold app)
                then set_isMoving app true else app in
              if negb (isMoving app) then app
              else
                let currentTime := Env.performance_now env in
                let deltaTime := currentTime - lastPlaybackTime app in
                if decide (deltaTime < 100) then app
                else
                  match PathManager.findNearestPointOnPath (pathManager app)
                          currentPoint active currentTime with
                  | PathManager.TypeError => app
                  | PathManager.Return None => app
                  | PathManager.Return (Some nearestResult) =>
                      let currentAudioPosition :=
                        PathManager.Nearest.progress nearestResult
                        * AudioData.duration audio in
                      let positionDiff :=
                        Rabs (currentAudioPosition - lastAudioPosition app) in
                      let app :=
                        if decide (positionDiff > 5 / 100) then
                          let speed :=
                            if decide (deltaTime > 0)
                            then distance / deltaTime * 1000 else 0 in
                          let baseSpeed := 100 in
                          let playbackRate :=
                            JS.max (5 / 10) (JS.min 2 (speed / baseSpeed)) in
                          set_lastAudioPosition
                            (set_audioEngine app
                               (AudioEngine.playAudioAtPosition
                                  (audioEngine app) (AudioData.buffer audio)
                                  active currentAudioPosition playbackRate))
                            currentAudioPosition
                        else app in
                      let app :=
                        set_playbackIndicators app
                          (<[ active := PathManager.Nearest.point nearestResult ]>
                             (playbackIndicators app)) in
                      set_lastPlaybackTime
                        (set_lastPlaybackPoint app (Some currentPoint))
                        currentTime
                  end
          end
      end
  | _, _ => app
  end.

Definition handleInputMove (app : t) (event : InputEvent.t) (env : Env.t) : t :=
  if negb (isAppReady app) then app
  else
    match truthy (activePlaybackPath app), truthy (currentRecordingPath app) with
    | Some _, None => handlePlaybackMove app (InputEvent.point event) env
    | _, Some recording =>
        set_pathManager app
          (PathManager.addPoint (pathManager app) recording
             (InputEvent.point event) (Env.performance_now env))
    | None, None => app
    end.

(** The recording branch of [handleInputEnd] up to and including the call of
    [attachAudioData]: the final point is added, the recorder stopped, and
    its payload, when there is one, attached. *)
Definition handleInputEnd_attach (app : t) (recording : string)
  (event : InputEvent.t) (env : Env.t) : t :=
  let pm :=
    PathManager.addPoint (pathManager app) recording (InputEvent.point event)
      (Env.performance_now env) in
  let '(engine, audioData) :=
    AudioEngine.stopRecording (audioEngine app) (Env.recorded env) in
  let pm :=
    match audioData with
    | Some payload => PathManager.attachAudioData pm recording payload
    | None => pm
    end in
  set_audioEngine (set_pathManager app pm) engine.

Definition handleInputEnd (app : t) (event : InputEvent.t) (env : Env.t) : t :=
  if negb (isAppReady app) then app
  else
    match truthy (activePlaybackPath app), truthy (currentRecordingPath app) with
    | Some active, None =>
        let app :=
          set_audioEngine app
            (AudioEngine.stopPlayback (audioEngine app) active) in
        let app := set_playingPaths app (playingPaths app ∖ {[ active ]}) in
        let app :=
          set_playbackIndicators app (delete active (playbackIndicators app)) in
        let app := set_activePlaybackPath app None in
        let app := set_lastPlaybackPoint app None in
        let app := set_isMoving app false in
        set_lastAudioPosition app 0
    | _, Some recording =>
        let app := handleInputEnd_attach app recording event env in
        let app :=
          set_pathManager app
            (PathManager.endRecording (pathManager app) recording) in
        set_currentRecordingPath app None
    | None, None => app
    end.

Definition clearCanvas (app : t) : t :=
  set_pathManager app (PathManager.clearAllPaths (pathManager app)).

(** What the outside can make the coordinator do. *)
Inductive action : Type :=
| Start (event : InputEvent.t) (env : Env.t)
| Move (event : InputEvent.t) (env : Env.t)
| End_ (event : InputEvent.t) (env : Env.t)
| ClearCanvas.

Definition step (app : t) (a : action) : t :=
  match a with
  | Start event env => handleInputStart app event env
  | Move event env => handleInputMove app event env
  | End_ event env => handleInputEnd app event env
  | ClearCanvas => clearCanvas app
  end.

Definition run (app : t) (actions : list action) : t :=
  fold_left step actions app.

Definition reachable (app : t) : Prop :=
  ∃ audioContext_ok actions, app = run (init audioContext_ok) actions.

(** The state of the gesture state machine, read off the two target fields
    the way [handleInputMove] and [handleInputEnd] dispatch on them. *)
Inductive mode : Type :=
| Idle
| Recording (target : string)
| Scrubbing (target : string).

Definition mode_of (app : t) : mode :=
  match truthy (activePlaybackPath app), truthy (currentRecordingPath app) with
  | _, Some recording => Recording recording
  | Some active, None => Scrubbing active
  | None, None => Idle
  end.

End MelodiaApp.

(** ** components/TouchHandler.ts

    The handler keeps the pointers that are down in [activeTouches] and
    turns DOM events into [InputEvent]s for the callbacks registered with
    [onStart], [onMove] and [onEnd].  A callback is opaque: the model
    records which callback was called with which event, in order, and takes
    it that a callback does not call back into the handler.  What a handler
    reads from outside, the rectangle of the canvas and the clock, once for
    every call of [getCanvasPoint], comes with the DOM event.  The calls of
    [preventDefault] and [console.log] do nothing to the handler and are
    not modelled.  The pointer handlers are left out: [setupEventListeners]
    registers no listener for them. *)

Module TouchState.
Record t : Type := mk {
  id : Z;
  startPoint : Point.t;
  currentPoint : Point.t;
  lastTimestamp : R
}.

Definition set_currentPoint (s : t) (p : Point.t) : t :=
  mk (id s) (startPoint s) p (lastTimestamp s).
End TouchState.

(** What one call of [getCanvasPoint] reads: the left and top of
    [getBoundingClientRect()], and [performance.now()]. *)
Module Reading.
Record t : Type := mk {
  rect_left : R;
  rect_top : R;
  now : R
}.
End Reading.

(** An entry of [changedTouches], with the reading of the call of
    [getCanvasPoint] that is made for it. *)
Module Touch.
Record t : Type := mk {
  identifier : Z;
  clientX : R;
  clientY : R;
  reading : Reading.t
}.
End Touch.

Module MouseEvent.
Record t : Type := mk {
  clientX : R;
  clientY : R;
  reading : Reading.t
}.
End MouseEvent.

Module TouchHandler.

Record t (C : Type) : Type := mk {
  activeTouches : gmap Z TouchState.t;
  callbacks_onStart : list C;
  callbacks_onMove : list C;
  callbacks_onEnd : list C
}.
Arguments mk {C} _ _ _ _.
Arguments activeTouches {C} _.
Arguments callbacks_onStart {C} _.
Arguments callbacks_onMove {C} _.
Arguments callbacks_onEnd {C} _.

Definition set_activeTouches {C : Type} (th : t C)
  (touches : gmap Z TouchState.t) : t C :=
  mk touches (callbacks_onStart th) (callbacks_onMove th)
    (callbacks_onEnd th).

(** The handler after its constructor. *)
Definition new {C : Type} : t C := mk ∅ [] [] [].

Definition getCanvasPoint (clientX clientY : R) (reading : Reading.t)
  : Point.t :=
  Point.mk (clientX - Reading.rect_left reading)
    (clientY - Reading.rect_top reading) (Reading.now reading) None.

(** [callbacks.forEach(callback => callback(inputEvent))]: the calls made,
    in order. *)
Definition forEach {C : Type} (callbacks : list C) (inputEvent : InputEvent.t)
  : list (C * InputEvent.t) :=
  (fun callback => (callback, inputEvent)) <$> callbacks.

(** The [for] loop over [changedTouches]. *)
Fixpoint for_changedTouches {C : Type}
  (body : t C → Touch.t → t C * list (C * InputEvent.t))
  (th : t C) (changedTouches : list Touch.t)
  : t C * list (C * InputEvent.t) :=
  match changedTouches with
  | [] => (th, [])
  | touch :: rest =>
      let '(th1, calls1) := body th touch in
      let '(th2, calls2) := for_changedTouches body th1 rest in
      (th2, calls1 ++ calls2)
  end.

Definition handleTouchStart_body {C : Type} (th : t C) (touch : Touch.t)
  : t C * list (C * InputEvent.t) :=
  let point :=
    getCanvasPoint (Touch.clientX touch) (Touch.clientY touch)
      (Touch.reading touch) in
  let th :=
    set_activeTouches th
      (<[ Touch.identifier touch :=
            TouchState.mk (Touch.identifier touch) point point
              (Point.timestamp point) ]> (activeTouches th)) in
  let inputEvent :=
    InputEvent.mk TOUCH point true false (Touch.identifier touch) in
  (th, forEach (callbacks_onStart th) inputEvent).

Definition handleTouchStart {C : Type} (th : t C)
  (changedTouches : list Touch.t) : t C * list (C * InputEvent.t) :=
  for_changedTouches handleTouchStart_body th changedTouches.

Definition handleTouchMove_body {C : Type} (th : t C) (touch : Touch.t)
  : t C * list (C * InputEvent.t) :=
  match activeTouches th !! Touch.identifier touch with
  | None => (th, [])
  | Some touchState =>
      let point :=
        getCanvasPoint (Touch.clientX touch) (Touch.clientY touch)
          (Touch.reading touch) in
      let th :=
        set_activeTouches th
          (<[ Touch.identifier touch :=
                TouchState.set_currentPoint touchState point ]>
             (activeTouches th)) in
      let inputEvent :=
        InputEvent.mk TOUCH point false false (Touch.identifier touch) in
      (th, forEach (callbacks_onMove th) inputEvent)
  end.

Definition handleTouchMove {C : Type} (th : t C)
  (changedTouches : list Touch.t) : t C * list (C * InputEvent.t) :=
  for_changedTouches handleTouchMove_body th changedTouches.

Definition handleTouchEnd_body {C : Type} (th : t C) (touch : Touch.t)
  : t C * list (C * InputEvent.t) :=
  match activeTouches th !! Touch.identifier touch with
  | None => (th, [])
  | Some touchState =>
      let point :=
        getCanvasPoint (Touch.clientX touch) (Touch.clientY touch)
          (Touch.reading touch) in
      let inputEvent :=
        InputEvent.mk TOUCH point false true (Touch.identifier touch) in
      (set_activeTouches th
         (delete (Touch.identifier touch) (activeTouches th)),
       forEach (callbacks_onEnd th) inputEvent)
  end.

Definition handleTouchEnd {C : Type} (th : t C)
  (changedTouches : list Touch.t) : t C * list (C * InputEvent.t) :=
  for_changedTouches handleTouchEnd_body th changedTouches.

Definition handleMouseDown {C : Type} (th : t C) (e : MouseEvent.t)
  : t C * list (C * InputEvent.t) :=
  let point :=
    getCanvasPoint (MouseEvent.clientX e) (MouseEvent.clientY e)
      (MouseEvent.reading e) in
  let th :=
    set_activeTouches th
      (<[ (-1)%Z :=
            TouchState.mk (-1) point point (Point.timestamp point) ]>
         (activeTouches th)) in
  let inputEvent := InputEvent.mk MOUSE point true false (-1) in
  (th, forEach (callbacks_onStart th) inputEvent).

Definition handleMouseMove {C : Type} (th : t C) (e : MouseEvent.t)
  : t C * list (C * InputEvent.t) :=
  match activeTouches th !! (-1)%Z with
  | None => (th, [])
  | Some touchState =>
      let point :=
        getCanvasPoint (MouseEvent.clientX e) (MouseEvent.clientY e)
          (MouseEvent.reading e) in
      let th :=
        set_activeTouches th
          (<[ (-1)%Z := TouchState.set_currentPoint touchState point ]>
             (activeTouches th)) in
      let inputEvent := InputEvent.mk MOUSE point false false (-1) in
      (th, forEach (callbacks_onMove th) inputEvent)
  end.

Definition handleMouseUp {C : Type} (th : t C) (e : MouseEvent.t)
  : t C * list (C * InputEvent.t) :=
  match activeTouches th !! (-1)%Z with
  | None => (th, [])
  | Some touchState =>
      let point :=
        getCanvasPoint (MouseEvent.clientX e) (MouseEvent.clientY e)
          (MouseEvent.reading e) in
      let inputEvent := InputEvent.mk MOUSE point false true (-1) in
      (set_activeTouches th (delete (-1)%Z (activeTouches th)),
       forEach (callbacks_onEnd th) inputEvent)
  end.

Definition onStart {C : Type} (th : t C) (callback : C) : t C :=
  mk (activeTouches th) (callbacks_onStart th ++ [callback])
    (callbacks_onMove th) (callbacks_onEnd th).

Definition onMove {C : Type} (th : t C) (callback : C) : t C :=
  mk (activeTouches th) (callbacks_onStart th)
    (callbacks_onMove th ++ [callback]) (callbacks_onEnd th).

Definition onEnd {C : Type} (th : t C) (callback : C) : t C :=
  mk (activeTouches th) (callbacks_onStart th) (callbacks_onMove th)
    (callbacks_onEnd th ++ [callback]).

Definition destroy {C : Type} (th : t C) : t C := mk ∅ [] [] [].

(** The DOM events that [setupEventListeners] listens to.  The listener of
    [contextmenu] only prevents the default and is left out. *)
Inductive dom_event : Type :=
| touchstart (changedTouches : list Touch.t)
| touchmove (changedTouches : list Touch.t)
| touchend (changedTouches : list Touch.t)
| touchcancel (changedTouches : list Touch.t)
| mousedown (e : MouseEvent.t)
| mousemove (e : MouseEvent.t)
| mouseup (e : MouseEvent.t)
| mouseleave (e : MouseEvent.t).

(** The listener that [setupEventListeners] registers for each event. *)
Definition dispatch {C : Type} (th : t C) (event : dom_event)
  : t C * list (C * InputEvent.t) :=
  match event with
  | touchstart changedTouches => handleTouchStart th changedTouches
  | touchmove changedTouches => handleTouchMove th changedTouches
  | touchend changedTouches | touchcancel changedTouches =>
      handleTouchEnd th changedTouches
  | mousedown e => handleMouseDown th e
  | mousemove e => handleMouseMove th e
  | mouseup e | mouseleave e => handleMouseUp th e
  end.

(** A run of DOM events: the handler afterwards and the calls of callbacks
    made, in order. *)
Fixpoint run {C : Type} (th : t C) (events : list dom_event)
  : t C * list (C * InputEvent.t) :=
  match events with
  | [] => (th, [])
  | event :: rest =>
      let '(th1, calls1) := dispatch th event in
      let '(th2, calls2) := run th1 rest in
      (th2, calls1 ++ calls2)
  end.

(** The handler as [MelodiaApp] sets it up: one callback for each kind of
    event, registered before any DOM event is handled. *)
Definition wired {C : Type} (start move end_ : C) : t C :=
  onEnd (onMove (onStart new start) move) end_.

End TouchHandler.

(** ** core/AudioEngine.ts: playback in full

    [AudioEngine] above keeps the playback commands as a log.  This module
    runs them: it has the source nodes that [playAudioAtPosition] and
    [createLoop] create, [activeSources] and [audioBuffers].  What the
    browser decides comes from outside: whether [decodeAudioData] succeeds,
    how long the decoded buffer is, and when a source fires its [ended]
    event.  As in the coordinator, a method runs as one atomic step.
    [stopAllPlayback] and [destroy], which the coordinator never reaches
    from an input, are left out. *)

Module AudioBuffer.
Record t : Type := mk {
  decodedFrom : ArrayBuffer;       (* the payload given to [decodeAudioData] *)
  duration : R
}.
End AudioBuffer.

(** An [AudioBufferSourceNode] as the engine sets it up. *)
Module Source.
Record t : Type := mk {
  buffer : AudioBuffer.t;
  playbackRate : R;
  loop : bool;
  loopStart : R;
  loopEnd : R;
  onended : string;                (* the id that its [onended] deletes *)
  started : option (R * option R); (* the offset and duration of [start] *)
  stopped : bool
}.

(** [source.stop()]: on a source that was never started it throws, and the
    engine catches that. *)
Definition stop (s : t) : t :=
  match started s with
  | Some _ =>
      mk (buffer s) (playbackRate s) (loop s) (loopStart s) (loopEnd s)
        (onended s) (started s) true
  | None => s
  end.

(** The source sounds: it was started, and the engine has not stopped it. *)
Definition sounding (s : t) : Prop := is_Some (started s) ∧ stopped s = false.
End Source.

Module Playback.

Record t : Type := mk {
  audioContext : bool;
  sources : list Source.t;         (* every source created, oldest first *)
  activeSources : gmap string nat;
  audioBuffers : gmap string AudioBuffer.t
}.

(** The engine after [initialize]. *)
Definition new (audioContext_ok : bool) : t := mk audioContext_ok [] ∅ ∅.

Definition stopPlayback (ae : t) (playbackId : string) : t :=
  match activeSources ae !! playbackId with
  | Some source =>
      mk (audioContext ae) (alter Source.stop source (sources ae))
        (delete playbackId (activeSources ae)) (audioBuffers ae)
  | None => ae
  end.

(** "Decode audio if not already cached": [decoded] is the duration of the
    buffer that [decodeAudioData] gives, if it gives one. *)
Definition decode_if_not_cached (ae : t) (audioData : ArrayBuffer)
  (playbackId : string) (decoded : option R) : option (t * AudioBuffer.t) :=
  match audioBuffers ae !! playbackId with
  | Some audioBuffer => Some (ae, audioBuffer)
  | None =>
      match decoded with
      | Some duration =>
          let audioBuffer := AudioBuffer.mk audioData duration in
          Some (mk (audioContext ae) (sources ae) (activeSources ae)
                  (<[ playbackId := audioBuffer ]> (audioBuffers ae)),
                audioBuffer)
      | None => None
      end
  end.

(** [createBufferSource] and [activeSources.set]: the new source is the
    last of [sources]. *)
Definition register (ae : t) (playbackId : string) (source : Source.t) : t :=
  mk (audioContext ae) (sources ae ++ [source])
    (<[ playbackId := length (sources ae) ]> (activeSources ae))
    (audioBuffers ae).

Definition playAudioAtPosition (ae : t) (audioData : ArrayBuffer)
  (playbackId : string) (position rate : R) (decoded : option R) : t * bool :=
  if negb (audioContext ae) then (ae, false)
  else
    let ae := stopPlayback ae playbackId in
    match decode_if_not_cached ae audioData playbackId decoded with
    | None => (ae, false)
    | Some (ae, audioBuffer) =>
        let clampedPosition :=
          JS.max 0 (JS.min (AudioBuffer.duration audioBuffer - 1 / 100)
                      position) in
        let clampedRate := JS.max (5 / 10) (JS.min 2 rate) in
        let remainingDuration :=
          AudioBuffer.duration audioBuffer - clampedPosition in
        (* [start] throws a RangeError on a negative duration *)
        if decide (remainingDuration < 0) then
          (register ae playbackId
             (Source.mk audioBuffer clampedRate false 0 0 playbackId None
                false),
           false)
        else
          (register ae playbackId
             (Source.mk audioBuffer clampedRate false 0 0 playbackId
                (Some (clampedPosition, Some remainingDuration)) false),
           true)
    end.

Definition createLoop (ae : t) (audioData : ArrayBuffer)
  (playbackId : string) (position duration : R) (decoded : option R)
  : t * bool :=
  if negb (audioContext ae) then (ae, false)
  else
    let ae := stopPlayback ae playbackId in
    match decode_if_not_cached ae audioData playbackId decoded with
    | None => (ae, false)
    | Some (ae, audioBuffer) =>
        let clampedPosition :=
          JS.max 0 (JS.min (AudioBuffer.duration audioBuffer - duration)
                      position) in
        let clampedDuration :=
          JS.min duration
            (AudioBuffer.duration audioBuffer - clampedPosition) in
        if decide (clampedDuration < 5 / 100) then (ae, false)
        else
          (register ae playbackId
             (Source.mk audioBuffer 1 true clampedPosition
                (clampedPosition + clampedDuration) playbackId
                (Some (clampedPosition, None)) false),
           true)
    end.

Definition isPlaying (ae : t) (playbackId : string) : bool :=
  bool_decide (is_Some (activeSources ae !! playbackId)).

(** The [onended] handler of the source [source]. *)
Definition onended (ae : t) (source : nat) : t :=
  match sources ae !! source with
  | Some s =>
      mk (audioContext ae) (sources ae)
        (delete (Source.onended s) (activeSources ae)) (audioBuffers ae)
  | None => ae
  end.

(** What can happen to the engine: a command, with what [decodeAudioData]
    gives should it be called, or the [ended] event of a source. *)
Inductive event : Type :=
| PlayAudioAtPosition (audioData : ArrayBuffer) (playbackId : string)
    (position rate : R) (decoded : option R)
| CreateLoop (audioData : ArrayBuffer) (playbackId : string)
    (position duration : R) (decoded : option R)
| StopPlayback (playbackId : string)
| Ended (source : nat).

Definition step (ae : t) (e : event) : t :=
  match e with
  | PlayAudioAtPosition audioData playbackId position rate decoded =>
      (playAudioAtPosition ae audioData playbackId position rate decoded).1
  | CreateLoop audioData playbackId position duration decoded =>
      (createLoop ae audioData playbackId position duration decoded).1
  | StopPlayback playbackId => stopPlayback ae playbackId
  | Ended source => onended ae source
  end.

Definition run (ae : t) (events : list event) : t := fold_left step events ae.

End Playback.

(** ** core/CanvasRenderer.ts

    A drawing method is modelled by the operations it performs on the 2D
    context, in order.  The size of the canvas rectangle, which [clear]
    reads, and the clock, which [drawActivePoint] reads, are inputs.
    [resize], [toDataURL], [getCanvasSize] and [startAnimationLoop] only
    pass values between the DOM and the caller and are left out. *)

Module Canvas.

(** What is assigned to [fillStyle], [strokeStyle] or [shadowColor]: a
    literal, or the template [rgba(r, g, b, ${a})]. *)
Inductive colour : Type :=
| literal (s : string)
| rgba (r g b : Z) (a : R).

Inductive op : Type :=
| save
| restore
| strokeStyle (c : colour)
| fillStyle (c : colour)
| lineWidth (w : R)
| shadowColor (c : colour)
| shadowBlur (b : R)
| beginPath
| moveTo (x y : R)
| quadraticCurveTo (cpx cpy x y : R)
| lineTo (x y : R)
| arc (x y radius startAngle endAngle : R)
| stroke
| fill
| clearRect (x y w h : R).

End Canvas.

Module CanvasRenderer.

Definition clear (rect_width rect_height : R) : list Canvas.op :=
  [Canvas.clearRect 0 0 rect_width rect_height].

(** [point] is [None] for [undefined], which is what [drawPath] passes for
    a path without points; reading its [x] is a [TypeError], and what was
    drawn before the throw is not kept. *)
Definition drawSinglePoint (point : option Point.t) (style : PathStyle.t)
  (isActive : bool) : PathManager.completion (list Canvas.op) :=
  match point with
  | None => PathManager.TypeError
  | Some point =>
      PathManager.Return
        ([Canvas.save;
          Canvas.fillStyle (Canvas.literal (PathStyle.strokeColor style))]
         ++ (if isActive || bool_decide (PathStyle.glowIntensity style > 0)
             then [Canvas.shadowColor
                     (Canvas.literal (PathStyle.strokeColor style));
                   Canvas.shadowBlur (PathStyle.glowIntensity style * 15)]
             else [])
         ++ [Canvas.beginPath;
             Canvas.arc (Point.x point) (Point.y point)
               (PathStyle.strokeWidth style / 2) 0 (PI * 2);
             Canvas.fill;
             Canvas.restore])
  end.

(** The loop of [drawPath]: [points] is [path.points[i..]], and a curve is
    drawn while there is a next point. *)
Fixpoint drawPath_loop (points : list Point.t) : list Canvas.op :=
  match points with
  | currentPoint :: (nextPoint :: _) as rest =>
      let controlX := (Point.x currentPoint + Point.x nextPoint) / 2 in
      let controlY := (Point.y currentPoint + Point.y nextPoint) / 2 in
      Canvas.quadraticCurveTo (Point.x currentPoint) (Point.y currentPoint)
        controlX controlY
      :: drawPath_loop rest
  | _ => []
  end.

Definition drawPath (path : AudioPath.t) (isActive : bool)
  : PathManager.completion (list Canvas.op) :=
  match AudioPath.points path with
  | [] | [_] =>
      drawSinglePoint (head (AudioPath.points path)) (AudioPath.style path)
        isActive
  | first :: rest =>
      let style := AudioPath.style path in
      let lastPoint := List.last rest first in
      PathManager.Return
        ([Canvas.save;
          Canvas.strokeStyle (Canvas.literal (PathStyle.strokeColor style));
          Canvas.lineWidth (PathStyle.strokeWidth style)]
         ++ (if isActive || bool_decide (PathStyle.glowIntensity style > 0)
             then [Canvas.shadowColor
                     (Canvas.literal (PathStyle.strokeColor style));
                   Canvas.shadowBlur (PathStyle.glowIntensity style * 20)]
             else [])
         ++ [Canvas.beginPath; Canvas.moveTo (Point.x first) (Point.y first)]
         ++ drawPath_loop rest
         ++ [Canvas.lineTo (Point.x lastPoint) (Point.y lastPoint);
             Canvas.stroke;
             Canvas.restore])
  end.

Definition drawActivePoint (point : Point.t) (intensity now : R)
  : list Canvas.op :=
  let alpha := 5 / 10 + 5 / 10 * sin (now * (1 / 100)) in
  [Canvas.save;
   Canvas.fillStyle (Canvas.rgba 255 68 68 (alpha * intensity));
   Canvas.shadowColor (Canvas.literal "#ff4444");
   Canvas.shadowBlur (20 * intensity);
   Canvas.beginPath;
   Canvas.arc (Point.x point) (Point.y point) 8 0 (PI * 2);
   Canvas.fill;
   Canvas.restore].

Definition drawPlaybackIndicator (point : Point.t) (intensity : R)
  : list Canvas.op :=
  let alpha := 8 / 10 * intensity in
  [Canvas.save;
   Canvas.fillStyle (Canvas.rgba 255 255 255 alpha);
   Canvas.strokeStyle (Canvas.rgba 100 200 255 alpha);
   Canvas.lineWidth 2;
   Canvas.shadowColor (Canvas.literal "#64c8ff");
   Canvas.shadowBlur (15 * intensity);
   Canvas.beginPath;
   Canvas.arc (Point.x point) (Point.y point) 6 0 (PI * 2);
   Canvas.fill;
   Canvas.stroke;
   Canvas.restore].

(** [paths.forEach] of [drawAllPaths]: the first path that throws ends it. *)
Fixpoint drawAllPaths_forEach (paths : list AudioPath.t)
  (activePaths : gset string) : PathManager.completion (list Canvas.op) :=
  match paths with
  | [] => PathManager.Return []
  | path :: rest =>
      let isActive := bool_decide (AudioPath.id path ∈ activePaths) in
      match drawPath path isActive with
      | PathManager.TypeError => PathManager.TypeError
      | PathManager.Return drawn =>
          match drawAllPaths_forEach rest activePaths with
          | PathManager.TypeError => PathManager.TypeError
          | PathManager.Return drawn' => PathManager.Return (drawn ++ drawn')
          end
      end
  end.

Definition drawAllPaths (rect_width rect_height : R)
  (paths : list AudioPath.t) (activePaths : gset string)
  : PathManager.completion (list Canvas.op) :=
  match drawAllPaths_forEach paths activePaths with
  | PathManager.TypeError => PathManager.TypeError
  | PathManager.Return drawn =>
      PathManager.Return (clear rect_width rect_height ++ drawn)
  end.

End CanvasRenderer.

(** ** core/PathManager.ts: the geometry in double precision

    The geometry of [PathManager] once more, now over IEEE 754 binary64, the
    arithmetic a JavaScript engine performs: every [+], [-], [*], [/] and
    [Math.sqrt] rounds to nearest, and comparisons are those of the floats.
    Path ids, timestamps, styles and audio take no part in the geometry and
    are left out; a path is its points and its bounding box.  The
    definitions compute, so a run of the source on concrete numbers is
    replayed by evaluation.  A decimal literal stands for the double
    nearest to it, as it does in JavaScript. *)

Set Warnings "-inexact-float".

Module Double.

Local Open Scope float_scope.

(** [Math.max(a, b)] and [Math.min(a, b)]: NaN if either is NaN, and -0 is
    below +0. *)
Definition max (a b : float) : float :=
  if PrimFloat.is_nan a || PrimFloat.is_nan b then nan
  else if a <? b then b
  else if b <? a then a
  else if PrimFloat.get_sign a then b else a.

Definition min (a b : float) : float :=
  if PrimFloat.is_nan a || PrimFloat.is_nan b then nan
  else if a <? b then a
  else if b <? a then b
  else if PrimFloat.get_sign a then a else b.

(** [a > b] *)
Definition gtb (a b : float) : bool := b <? a.

Module Point.
Record t : Type := mk { x : float; y : float }.
End Point.

Module Rectangle.
Record t : Type := mk { x : float; y : float; width : float; height : float }.
End Rectangle.

Module AudioPath.
Record t : Type := mk { points : list Point.t; boundingBox : Rectangle.t }.
End AudioPath.

Definition createBoundingBox (point : Point.t) : Rectangle.t :=
  Rectangle.mk (Point.x point) (Point.y point) 0 0.

Definition updateBoundingBox (box : Rectangle.t) (point : Point.t)
  : Rectangle.t :=
  let px := Point.x point in
  let py := Point.y point in
  let '(bx, bw) :=
    if px <? Rectangle.x box then
      (px, Rectangle.width box + (Rectangle.x box - px))
    else if gtb px (Rectangle.x box + Rectangle.width box) then
      (Rectangle.x box, px - Rectangle.x box)
    else (Rectangle.x box, Rectangle.width box) in
  let '(by_, bh) :=
    if py <? Rectangle.y box then
      (py, Rectangle.height box + (Rectangle.y box - py))
    else if gtb py (Rectangle.y box + Rectangle.height box) then
      (Rectangle.y box, py - Rectangle.y box)
    else (Rectangle.y box, Rectangle.height box) in
  Rectangle.mk bx by_ bw bh.

(** The path [startRecording] stores for the first point of a gesture. *)
Definition startRecording (point : Point.t) : AudioPath.t :=
  AudioPath.mk [point] (createBoundingBox point).

(** What [addPoint] does to the path it finds. *)
Definition addPoint (path : AudioPath.t) (point : Point.t) : AudioPath.t :=
  AudioPath.mk (AudioPath.points path ++ [point])
    (updateBoundingBox (AudioPath.boundingBox path) point).

(** The path of a gesture: [startRecording] at its first point, [addPoint]
    at each of the others. *)
Definition record (first : Point.t) (others : list Point.t) : AudioPath.t :=
  foldl addPoint (startRecording first) others.

Definition distanceToPoint (p1 p2 : Point.t) : float :=
  let dx := Point.x p1 - Point.x p2 in
  let dy := Point.y p1 - Point.y p2 in
  PrimFloat.sqrt (dx * dx + dy * dy).

Fixpoint calculatePathLength_loop (prev : Point.t) (rest : list Point.t)
  (length : float) : float :=
  match rest with
  | [] => length
  | curr :: rest' =>
      let dx := Point.x curr - Point.x prev in
      let dy := Point.y curr - Point.y prev in
      calculatePathLength_loop curr rest'
        (length + PrimFloat.sqrt (dx * dx + dy * dy))
  end.

Definition calculatePathLength (path : AudioPath.t) : float :=
  match AudioPath.points path with
  | [] => 0
  | p0 :: rest => calculatePathLength_loop p0 rest 0
  end.

Definition distanceToLineSegment (point lineStart lineEnd : Point.t)
  : float :=
  let A := Point.x point - Point.x lineStart in
  let B := Point.y point - Point.y lineStart in
  let C := Point.x lineEnd - Point.x lineStart in
  let D := Point.y lineEnd - Point.y lineStart in
  let dot := A * C + B * D in
  let lenSq := C * C + D * D in
  if lenSq =? 0 then PrimFloat.sqrt (A * A + B * B)
  else
    let param := dot / lenSq in
    let '(xx, yy) :=
      if param <? 0 then (Point.x lineStart, Point.y lineStart)
      else if gtb param 1 then (Point.x lineEnd, Point.y lineEnd)
      else (Point.x lineStart + param * C, Point.y lineStart + param * D) in
    let dx := Point.x point - xx in
    let dy := Point.y point - yy in
    PrimFloat.sqrt (dx * dx + dy * dy).

Fixpoint nearSegment_loop (point : Point.t) (tolerance : float)
  (p1 : Point.t) (rest : list Point.t) : bool :=
  match rest with
  | [] => false
  | p2 :: rest' =>
      if distanceToLineSegment point p1 p2 <=? tolerance then true
      else nearSegment_loop point tolerance p2 rest'
  end.

Definition isPointNearPath (point : Point.t) (path : AudioPath.t)
  (tolerance : float) : bool :=
  let box := AudioPath.boundingBox path in
  if (Point.x point <? Rectangle.x box - tolerance)
     || gtb (Point.x point) (Rectangle.x box + Rectangle.width box + tolerance)
     || (Point.y point <? Rectangle.y box - tolerance)
     || gtb (Point.y point)
          (Rectangle.y box + Rectangle.height box + tolerance)
  then false
  else
    let onSegment :=
      match AudioPath.points path with
      | [] => false
      | p0 :: rest => nearSegment_loop point tolerance p0 rest
      end in
    if onSegment then true
    else
      match AudioPath.points path with
      | [pathPoint] =>
          let dx := Point.x point - Point.x pathPoint in
          let dy := Point.y point - Point.y pathPoint in
          PrimFloat.sqrt (dx * dx + dy * dy) <=? tolerance
      | _ => false
      end.

Definition closestPointOnLineSegment (point lineStart lineEnd : Point.t)
  : Point.t :=
  let A := Point.x point - Point.x lineStart in
  let B := Point.y point - Point.y lineStart in
  let C := Point.x lineEnd - Point.x lineStart in
  let D := Point.y lineEnd - Point.y lineStart in
  let dot := A * C + B * D in
  let lenSq := C * C + D * D in
  if lenSq =? 0 then lineStart
  else
    let param := dot / lenSq in
    let param := if param <? 0 then 0 else param in
    let param := if gtb param 1 then 1 else param in
    Point.mk (Point.x lineStart + param * C) (Point.y lineStart + param * D).

Record Scan : Type := mkScan {
  nearestPoint : Point.t;
  minDistance : float;
  nearestProgress : float;
  accumulatedLength : float
}.

Definition scan_segment (clickPoint : Point.t) (totalLength : float)
  (p1 p2 : Point.t) (st : Scan) : Scan :=
  let closestPoint := closestPointOnLineSegment clickPoint p1 p2 in
  let distance := distanceToPoint clickPoint closestPoint in
  let st' :=
    if distance <? minDistance st then
      let segmentLength := distanceToPoint p1 p2 in
      let pointToSegmentStart := distanceToPoint p1 closestPoint in
      let progressInSegment :=
        if gtb segmentLength 0 then pointToSegmentStart / segmentLength
        else 0 in
      mkScan closestPoint distance
        (if gtb totalLength 0 then
           (accumulatedLength st + progressInSegment * segmentLength)
           / totalLength
         else 0)
        (accumulatedLength st)
    else st in
  mkScan (nearestPoint st') (minDistance st') (nearestProgress st')
    (accumulatedLength st' + distanceToPoint p1 p2).

Fixpoint scan_loop (clickPoint : Point.t) (totalLength : float)
  (p1 : Point.t) (rest : list Point.t) (st : Scan) : Scan :=
  match rest with
  | [] => st
  | p2 :: rest' =>
      scan_loop clickPoint totalLength p2 rest'
        (scan_segment clickPoint totalLength p1 p2 st)
  end.

Module Nearest.
Record t : Type := mk { point : Point.t; progress : float }.
End Nearest.

(** [findNearestPointOnPath] on the path it finds; [None] stands for the
    [TypeError] on a path without points. *)
Definition findNearestPointOnPath (clickPoint : Point.t)
  (path : AudioPath.t) : option Nearest.t :=
  match AudioPath.points path with
  | [] => None
  | p0 :: rest =>
      let totalLength := calculatePathLength path in
      let st :=
        scan_loop clickPoint totalLength p0 rest
          (mkScan p0 (distanceToPoint clickPoint p0) 0 0) in
      Some (Nearest.mk (nearestPoint st)
              (max 0 (min 1 (nearestProgress st))))
  end.

End Double.

(** * Vocabulary of the properties *)

(** ** Durations *)

(** The time span of the drawing gesture in seconds, as the specification
    words it: last point timestamp minus first point timestamp, converted
    from milliseconds; 0 for a path with fewer than two points. *)
Definition gesture_span_seconds (points : list Point.t) : R :=
  match points with
  | first :: _ :: _ =>
      match last points with
      | Some final => (Point.timestamp final - Point.timestamp first) / 1000
      | None => 0
      end
  | _ => 0
  end.

(** ** Runs of store operations *)

(** The mutating operations of the store, and a run of them: the store that
    results and the ids that the [startRecording] calls returned, in order. *)
Inductive store_op : Type :=
| OpStartRecording (point : Point.t) (now date_now : R)
| OpAddPoint (pathId : string) (point : Point.t) (now : R)
| OpEndRecording (pathId : string)
| OpAttachAudioData (pathId : string) (payload : ArrayBuffer)
| OpDeletePath (pathId : string)
| OpClearAllPaths.

Definition apply_op (pm : PathManager.t) (op : store_op)
  : PathManager.t * list string :=
  match op with
  | OpStartRecording point now date_now =>
      let '(pm', pathId) := PathManager.startRecording pm point now date_now in
      (pm', [pathId])
  | OpAddPoint pathId point now => (PathManager.addPoint pm pathId point now, [])
  | OpEndRecording pathId => (PathManager.endRecording pm pathId, [])
  | OpAttachAudioData pathId payload =>
      (PathManager.attachAudioData pm pathId payload, [])
  | OpDeletePath pathId => (PathManager.deletePath pm pathId, [])
  | OpClearAllPaths => (PathManager.clearAllPaths pm, [])
  end.

Fixpoint run_ops (pm : PathManager.t) (ops : list store_op)
  : PathManager.t * list string :=
  match ops with
  | [] => (pm, [])
  | op :: ops' =>
      let '(pm1, ids1) := apply_op pm op in
      let '(pm2, ids2) := run_ops pm1 ops' in
      (pm2, ids1 ++ ids2)
  end.

Definition is_clear (op : store_op) : bool :=
  match op with OpClearAllPaths => true | _ => false end.

(** No [clearAllPaths] among the operations. *)
Definition clear_free (ops : list store_op) : Prop :=
  Forall (fun op => is_clear op = false) ops.

(** Every id in the store is [path-k] for a [k] up to the counter. *)
Definition ids_bounded (pm : PathManager.t) : Prop :=
  ∀ pathId, pathId ∈ JsMap.keys (PathManager.paths pm) →
    ∃ k, pathId = PathManager.path_id k ∧ (k <= PathManager.pathCounter pm)%N.

(** ** Bounding boxes *)

(** [box] is the minimal axis-aligned bounding box of [points]: it covers
    every point, and each of its four edges passes through one of them. *)
Definition is_minimal_aabb (box : Rectangle.t) (points : list Point.t) : Prop :=
  (∀ p, p ∈ points →
     Rectangle.x box <= Point.x p <= Rectangle.x box + Rectangle.width box
     ∧ Rectangle.y box <= Point.y p <= Rectangle.y box + Rectangle.height box)
  ∧ (∃ p, p ∈ points ∧ Point.x p = Rectangle.x box)
  ∧ (∃ p, p ∈ points ∧ Point.x p = Rectangle.x box + Rectangle.width box)
  ∧ (∃ p, p ∈ points ∧ Point.y p = Rectangle.y box)
  ∧ (∃ p, p ∈ points ∧ Point.y p = Rectangle.y box + Rectangle.height box).

(** The path [pathId] after a run of [addPoint]s on it. *)
Definition addPoints (pm : PathManager.t) (pathId : string)
  (moves : list (Point.t * R)) : PathManager.t :=
  fold_left (fun pm move => PathManager.addPoint pm pathId move.1 move.2)
    moves pm.

(** ** Straight paths

    The points of a straight path lie on the line through [(ox, oy)] with
    direction [(dx, dy)]; a point is named by its parameter [t] along the
    line, which is also what a query projects to. *)

(** [v] brought into the interval from [lo] to [hi]. *)
Definition clamp (lo hi v : R) : R := Rmax lo (Rmin v hi).

(** The parameter of the point of the segment [t1 t2] that
    [closestPointOnLineSegment] picks for a query that projects to [s]. *)
Definition seg_point (t1 t2 s : R) : R :=
  if decide (t1 = t2) then t1
  else
    let param := (s - t1) / (t2 - t1) in
    let param := if decide (param < 0) then 0 else param in
    let param := if decide (param > 1) then 1 else param in
    t1 + param * (t2 - t1).

(** Progress along the line: where [s] falls between the parameters [t0] of
    the first and [tn] of the last point. *)
Definition line_progress (t0 tn s : R) : R :=
  if decide (t0 < tn) then (clamp t0 tn s - t0) / (tn - t0) else 0.

Section LineVocabulary.
Variables ox oy dx dy : R.

(** [p] is the point of the line with parameter [t]. *)
Definition at_param (t : R) (p : Point.t) : Prop :=
  Point.x p = ox + t * dx ∧ Point.y p = oy + t * dy.

(** The parameter of the orthogonal projection of [q] onto the line. *)
Definition proj (q : Point.t) : R :=
  ((Point.x q - ox) * dx + (Point.y q - oy) * dy) / (dx * dx + dy * dy).

(** The distance between two points whose parameters differ by 1. *)
Definition unit_length : R := sqrt (dx * dx + dy * dy).

Definition on_line (p : Point.t) : Prop := at_param (proj p) p.

(** Consecutive points do not go back along the line. *)
Fixpoint ascending (p : Point.t) (rest : list Point.t) : Prop :=
  match rest with
  | [] => True
  | p' :: rest' => proj p <= proj p' ∧ ascending p' rest'
  end.

Variable q : Point.t.

(** The scan for the query [q] on an ascending path, once the points from
    parameter [t0] up to [ti] are behind it: the nearest point so far is the
    projection of [q] brought into that stretch, with the progress and the
    length that belong to it. *)
Definition scan_inv (total t0 ti : R) (st : PathManager.Scan) : Prop :=
  at_param (clamp t0 ti (proj q)) (PathManager.nearestPoint st)
  ∧ PathManager.minDistance st
    = PathManager.distanceToPoint q (PathManager.nearestPoint st)
  ∧ PathManager.nearestProgress st
    = (if decide (total > 0)
       then (clamp t0 ti (proj q) - t0) * unit_length / total else 0)
  ∧ PathManager.accumulatedLength st = (ti - t0) * unit_length.

Variable q' : Point.t.

(** The scans for two queries [q] and [q'] with one projection run in step:
    same parameter of the nearest point, same progress, same length. *)
Definition scan_rel (st st' : PathManager.Scan) : Prop :=
  (∃ t, at_param t (PathManager.nearestPoint st)
        ∧ at_param t (PathManager.nearestPoint st'))
  ∧ PathManager.minDistance st
    = PathManager.distanceToPoint q (PathManager.nearestPoint st)
  ∧ PathManager.minDistance st'
    = PathManager.distanceToPoint q' (PathManager.nearestPoint st')
  ∧ PathManager.nearestProgress st = PathManager.nearestProgress st'
  ∧ PathManager.accumulatedLength st = PathManager.accumulatedLength st'.

End LineVocabulary.

(** The coordinate in which a straight path increases. *)
Inductive axis : Type := X | Y.

(** The coordinate of [p] along the axis, and its coordinate across it. *)
Definition coord (a : axis) (p : Point.t) : R :=
  match a with X => Point.x p | Y => Point.y p end.
Definition across (a : axis) (p : Point.t) : R :=
  match a with X => Point.y p | Y => Point.x p end.

(** All points satisfy one equation [a x + b y = c] of a line. *)
Definition collinear (points : list Point.t) : Prop :=
  ∃ a b c, (a ≠ 0 ∨ b ≠ 0)
           ∧ ∀ p, p ∈ points → a * Point.x p + b * Point.y p = c.

(** Later points are not behind earlier ones in the coordinate [a]. *)
Definition increasing_along (a : axis) (points : list Point.t) : Prop :=
  ∀ i j pi pj, (i <= j)%nat →
    points !! i = Some pi → points !! j = Some pj →
    coord a pi <= coord a pj.

(** ** States of the coordinator *)

(** What holds of the coordinator's state between two handlers. *)
Definition store_inv (pm : PathManager.t) (recording : option string) : Prop :=
  ids_bounded pm
  ∧ (∀ pathId path, PathManager.getPath pm pathId = Some path →
       AudioPath.points path ≠ [])
  ∧ (∀ pathId path, pathId ∈ PathManager.activePaths pm →
       PathManager.getPath pm pathId = Some path →
       AudioPath.audioData path = None)
  ∧ (∀ pathId path, recording = Some pathId →
       PathManager.getPath pm pathId = Some path →
       AudioPath.audioData path = None).

Definition app_inv (app : MelodiaApp.t) : Prop :=
  (MelodiaApp.isAppReady app = true ∧ MelodiaApp.movementThreshold app = 5)
  ∧ store_inv (MelodiaApp.pathManager app)
      (MelodiaApp.currentRecordingPath app).

(** The property of C2 on a store: no path of the active set has audio. *)
Definition active_without_audio (pm : PathManager.t) : Prop :=
  ∀ pathId path,
    pathId ∈ PathManager.activePaths pm →
    PathManager.getPath pm pathId = Some path →
    AudioPath.audioData path = None.

(** The microphone is granted and its stream is held. *)
Definition granted (ae : AudioEngine.t) : Prop :=
  AudioEngine.permissionGranted ae = true ∧ AudioEngine.stream ae = true.

(** From [ae] to [ae']: a grant stays, and a recorder that runs in [ae'] ran
    before or has the grant. *)
Definition engine_step (ae ae' : AudioEngine.t) : Prop :=
  (granted ae → granted ae')
  ∧ (AudioEngine.mediaRecorder ae' = AudioEngine.Recording →
     AudioEngine.mediaRecorder ae = AudioEngine.Recording ∨ granted ae').

(** Between handlers: a running recorder has the grant, and so has the
    engine as soon as some path has audio. *)
Definition engine_inv (app : MelodiaApp.t) : Prop :=
  (AudioEngine.mediaRecorder (MelodiaApp.audioEngine app)
   = AudioEngine.Recording → granted (MelodiaApp.audioEngine app))
  ∧ ∀ pathId path audio,
      PathManager.getPath (MelodiaApp.pathManager app) pathId = Some path →
      AudioPath.audioData path = Some audio →
      granted (MelodiaApp.audioEngine app).

(** ** Concrete gestures *)

(** A click at the origin with a working microphone: the press and the
    release of a first gesture. *)
Definition click_event (isStart : bool) : InputEvent.t :=
  InputEvent.mk MOUSE (Point.mk 0 0 0 None) isStart (negb isStart) 0.
Definition click_env (recorded : option ArrayBuffer) : Env.t :=
  Env.mk 0 0 true true recorded.
Definition pressed : MelodiaApp.t :=
  MelodiaApp.handleInputStart (MelodiaApp.init true) (click_event true)
    (click_env None).

(** A press and a release at the origin while the microphone is refused:
    the path is recorded without audio. *)
Definition silent_env : Env.t := Env.mk 0 0 false false None.
Definition silent_click : MelodiaApp.t :=
  MelodiaApp.run (MelodiaApp.init true)
    [MelodiaApp.Start (click_event true) silent_env;
     MelodiaApp.End_ (click_event false) silent_env].

(** A press and a release at the origin with a working microphone: the
    path is recorded with audio. *)
Definition recorded_click : MelodiaApp.t :=
  MelodiaApp.run (MelodiaApp.init true)
    [MelodiaApp.Start (click_event true) (click_env None);
     MelodiaApp.End_ (click_event false) (click_env (Some []))].

(** A stroke from the origin to (100, 0) that takes ten seconds, recorded
    with audio; a press beside it, at (50, 10), ten seconds later; and, 150
    milliseconds after the press, a move that stays at (50, 10) or one that
    goes to (51, 10). *)
Definition long_release : InputEvent.t * Env.t :=
  (InputEvent.mk MOUSE (Point.mk 100 0 0 None) false true 0,
   Env.mk 10000 10000 true true (Some [])).
Definition long_stroke : MelodiaApp.t :=
  MelodiaApp.run (MelodiaApp.init true)
    [MelodiaApp.Start (click_event true) (click_env None);
     MelodiaApp.End_ long_release.1 long_release.2].
Definition near_press : InputEvent.t * Env.t :=
  (InputEvent.mk MOUSE (Point.mk 50 10 0 None) true false 0,
   Env.mk 20000 20000 true true None).
Definition still_move : InputEvent.t * Env.t :=
  (InputEvent.mk MOUSE (Point.mk 50 10 0 None) false false 0,
   Env.mk 20150 20150 true true None).
Definition near_move : InputEvent.t * Env.t :=
  (InputEvent.mk MOUSE (Point.mk 51 10 0 None) false false 0,
   Env.mk 20150 20150 true true None).
Definition near_scrubbing : MelodiaApp.t :=
  MelodiaApp.handleInputStart long_stroke near_press.1 near_press.2.

(** A second gesture after the recorded click, away from its path: from
    (200, 200) over (203, 204). *)
Definition second_press : InputEvent.t * Env.t :=
  (InputEvent.mk MOUSE (Point.mk 200 200 0 None) true false 0,
   Env.mk 1000 1000 true true None).
Definition second_move : InputEvent.t * Env.t :=
  (InputEvent.mk MOUSE (Point.mk 203 204 0 None) false false 0,
   Env.mk 1050 1050 true true None).
Definition second_release : InputEvent.t * Env.t :=
  (InputEvent.mk MOUSE (Point.mk 203 204 0 None) false true 0,
   Env.mk 1100 1100 true true (Some [])).

(** ** Jitter *)

(** How far a move event is from the tracked point of the gesture. *)
Definition distance_moved (p tracked : Point.t) : R :=
  sqrt ((Point.x p - Point.x tracked) ^ 2 + (Point.y p - Point.y tracked) ^ 2).

(** A run of move events, each with what its handler reads from outside. *)
Definition moves_run (app : MelodiaApp.t)
  (moves : list (InputEvent.t * Env.t)) : MelodiaApp.t :=
  fold_left (fun app move => MelodiaApp.handleInputMove app move.1 move.2)
    moves app.

(** ** Well-formed stores *)

(** The keys of the store are distinct; every path sits under its own id,
    has at least one point and the default style; every id of the active
    set has a path. *)
Definition store_wf (pm : PathManager.t) : Prop :=
  NoDup (JsMap.keys (PathManager.paths pm))
  ∧ (∀ pathId path, PathManager.getPath pm pathId = Some path →
       AudioPath.id path = pathId
       ∧ AudioPath.points path ≠ []
       ∧ AudioPath.style path = PathManager.getDefaultStyle)
  ∧ (∀ pathId, pathId ∈ PathManager.activePaths pm →
       is_Some (PathManager.getPath pm pathId)).

(** The clock reading that an operation takes, if it takes one. *)
Definition op_clock (op : store_op) : option R :=
  match op with
  | OpStartRecording _ now _ | OpAddPoint _ _ now => Some now
  | _ => None
  end.

(** The timestamps of the points of every path are in order. *)
Definition stamps_sorted (pm : PathManager.t) : Prop :=
  ∀ pathId path, PathManager.getPath pm pathId = Some path →
    StronglySorted Rle (Point.timestamp <$> AudioPath.points path).

(** No point in the store was stamped later than [bound]. *)
Definition stamps_le (pm : PathManager.t) (bound : R) : Prop :=
  ∀ pathId path p, PathManager.getPath pm pathId = Some path →
    p ∈ AudioPath.points path → Point.timestamp p <= bound.

(** The audio of every path has a duration that is not negative, and a
    speed that is not negative either: a number from 0 on, positive
    infinity, or NaN. *)
Definition audio_nonneg (pm : PathManager.t) : Prop :=
  ∀ pathId path audio,
    PathManager.getPath pm pathId = Some path →
    AudioPath.audioData path = Some audio →
    0 <= AudioData.duration audio
    ∧ match AudioData.originalSpeed audio with
      | JS.Fin v => 0 <= v
      | JS.PosInfinity | JS.NaN => True
      | JS.NegInfinity => False
      end.

(** ** Commands and gestures *)

(** What the coordinator may ask of the audio engine: a one-shot play at a
    rate between 1/2 and 2, a loop of 0.2 seconds, or a stop. *)
Definition call_in_range (c : AudioEngine.call) : Prop :=
  match c with
  | AudioEngine.PlayAudioAtPosition _ _ _ rate => 5 / 10 <= rate <= 2
  | AudioEngine.CreateLoop _ _ _ duration => duration = 2 / 10
  | AudioEngine.StopPlayback _ => True
  end.

(** A whole gesture: the press, the moves, the release. *)
Definition gesture (press : InputEvent.t * Env.t)
  (moves : list (InputEvent.t * Env.t)) (release : InputEvent.t * Env.t)
  : list MelodiaApp.action :=
  MelodiaApp.Start press.1 press.2
  :: ((fun move => MelodiaApp.Move move.1 move.2) <$> moves)
  ++ [MelodiaApp.End_ release.1 release.2].

(** The point and the clock reading that [addPoint] gets from an event. *)
Definition recorded_move (move : InputEvent.t * Env.t) : Point.t * R :=
  (InputEvent.point move.1, Env.performance_now move.2).

(** ** A first stroke *)

(** The store after [startRecording] at the origin on a new store, the path
    it holds, and a stroke from the origin to (3, 4). *)
Definition first_store : PathManager.t :=
  (PathManager.startRecording PathManager.new (Point.mk 0 0 0 None) 0 0).1.
Definition first_path : AudioPath.t :=
  AudioPath.mk "path-1" [Point.mk 0 0 0 None] None PathManager.getDefaultStyle
    (PathManager.createBoundingBox (Point.mk 0 0 0 None)) 0.
Definition stroke_path : AudioPath.t :=
  AudioPath.mk "path-1" [Point.mk 0 0 0 None; Point.mk 3 4 5 None] None
    PathManager.getDefaultStyle (Rectangle.mk 0 0 3 4) 0.
Definition stroke_move : InputEvent.t * Env.t :=
  (InputEvent.mk MOUSE (Point.mk 3 4 0 None) false false 0,
   Env.mk 50 50 true true None).

(** ** Pointers that are down *)

(** The ids that are open after an event: a start opens its id, an end
    closes it. *)
Definition open_after_event (open : gset Z) (e : InputEvent.t) : gset Z :=
  if InputEvent.isStart e then {[ InputEvent.id e ]} ∪ open
  else if InputEvent.isEnd e then open ∖ {[ InputEvent.id e ]}
  else open.

Definition open_after (open : gset Z) (events : list InputEvent.t) : gset Z :=
  fold_left open_after_event events open.

(** The events of a pointer come in brackets: a move or an end is for an id
    that is open, that is, one with a start before it and no end in
    between. *)
Fixpoint well_bracketed (open : gset Z) (events : list InputEvent.t) : Prop :=
  match events with
  | [] => True
  | e :: rest =>
      (InputEvent.isStart e = false → InputEvent.id e ∈ open)
      ∧ well_bracketed (open_after_event open e) rest
  end.

(** A call of a callback is for the callback of its kind: starts go to
    [start], ends to [end_], the rest to [move]. *)
Definition routed {C : Type} (start move end_ : C) (call : C * InputEvent.t)
  : Prop :=
  call.1 = (if InputEvent.isStart call.2 then start
            else if InputEvent.isEnd call.2 then end_ else move).

(** The input event that a mouse event turns into. *)
Definition mouse_input (isStart isEnd : bool) (e : MouseEvent.t)
  : InputEvent.t :=
  InputEvent.mk MOUSE
    (TouchHandler.getCanvasPoint (MouseEvent.clientX e) (MouseEvent.clientY e)
       (MouseEvent.reading e))
    isStart isEnd (-1).

(** What a run of calls does to the handler, for a handler with the
    callbacks [start], [move] and [end_]: the callbacks stay, every call is
    routed, the events are in brackets, and the pointers in [activeTouches]
    afterwards are the ids that the events leave open. *)
Definition tracks {C : Type} (start move end_ : C)
  (th th' : TouchHandler.t C) (calls : list (C * InputEvent.t)) : Prop :=
  (TouchHandler.callbacks_onStart th' = [start]
   ∧ TouchHandler.callbacks_onMove th' = [move]
   ∧ TouchHandler.callbacks_onEnd th' = [end_])
  ∧ Forall (routed start move end_) calls
  ∧ well_bracketed (dom (TouchHandler.activeTouches th)) calls.*2
  ∧ dom (TouchHandler.activeTouches th')
    = open_after (dom (TouchHandler.activeTouches th)) calls.*2.

(** ** The registry of sources *)

(** What holds of the engine between two steps: a source that is registered
    exists, was created for the id it is registered under and has not been
    stopped; every source plays the buffer that is cached under its id. *)
Definition registry_ok (ae : Playback.t) : Prop :=
  (∀ playbackId source,
     Playback.activeSources ae !! playbackId = Some source →
     ∃ s, Playback.sources ae !! source = Some s
          ∧ Source.onended s = playbackId
          ∧ Source.stopped s = false)
  ∧ (∀ source s,
       Playback.sources ae !! source = Some s →
       Playback.audioBuffers ae !! Source.onended s = Some (Source.buffer s)).

(** The sources created since [before] for [playbackId] play [audioBuffer],
    which is still the buffer cached for the id. *)
Definition plays_cached (before : Playback.t) (playbackId : string)
  (audioBuffer : AudioBuffer.t) (ae : Playback.t) : Prop :=
  Playback.audioBuffers ae !! playbackId = Some audioBuffer
  ∧ (length (Playback.sources before) <= length (Playback.sources ae))%nat
  ∧ ∀ source s,
      Playback.sources ae !! source = Some s →
      (length (Playback.sources before) <= source)%nat →
      Source.onended s = playbackId →
      Source.buffer s = audioBuffer.

(** An engine that loops the first 0.2 seconds of a buffer of one second
    for "path-1", and an engine that has only the buffer. *)
Definition looping : Playback.t :=
  Playback.mk true
    [Source.mk (AudioBuffer.mk [] 1) 1 true 0 (2 / 10) "path-1"
       (Some (0, None)) false]
    {[ "path-1" := 0%nat ]} {[ "path-1" := AudioBuffer.mk [] 1 ]}.
Definition cached : Playback.t :=
  Playback.mk true [] ∅ {[ "path-1" := AudioBuffer.mk [] 1 ]}.

(** ** The state stack of the 2D context *)

(** How deep the stack of saved states is after the operations, starting
    [depth] deep; [None] when a [restore] finds nothing saved, or more than
    [limit] states are saved at once. *)
Fixpoint stack_depth (limit depth : nat) (ops : list Canvas.op) : option nat :=
  match ops with
  | [] => Some depth
  | Canvas.save :: rest =>
      if decide (depth < limit)%nat then stack_depth limit (S depth) rest
      else None
  | Canvas.restore :: rest =>
      match depth with
      | O => None
      | S depth' => stack_depth limit depth' rest
      end
  | _ :: rest => stack_depth limit depth rest
  end.

(** The operations save and restore in pairs, one state at a time. *)
Definition balanced (ops : list Canvas.op) : Prop :=
  stack_depth 1 0 ops = Some 0%nat.

(** ** The touch handler and the coordinator together *)

(** [setupEventHandlers]: the coordinator registers one callback for each
    kind of event, the handler of that kind. *)
Definition wired_handler
  : TouchHandler.t (InputEvent.t → Env.t → MelodiaApp.action) :=
  TouchHandler.wired MelodiaApp.Start MelodiaApp.Move MelodiaApp.End_.

(** The calls of the callbacks as steps of the coordinator; [envs] holds
    what the handlers read from outside, one entry for each call. *)
Definition deliver
  (calls : list ((InputEvent.t → Env.t → MelodiaApp.action) * InputEvent.t))
  (envs : list Env.t) : list MelodiaApp.action :=
  zip_with (fun call env => call.1 call.2 env) calls envs.

(** The point that the store keeps for a mouse event whose handler reads
    [env]: the client coordinates relative to the canvas, with the clock
    reading of the coordinator's handler. *)
Definition stored_point (e : MouseEvent.t) (env : Env.t) : Point.t :=
  Point.mk (MouseEvent.clientX e - Reading.rect_left (MouseEvent.reading e))
    (MouseEvent.clientY e - Reading.rect_top (MouseEvent.reading e))
    (Env.performance_now env) None.

(** A second mouse drag after the recorded click, away from its path: from
    (200, 200) over (203, 204), on a canvas at the origin. *)
Definition second_drag_press : MouseEvent.t * Env.t :=
  (MouseEvent.mk 200 200 (Reading.mk 0 0 990),
   Env.mk 1000 1000 true true None).
Definition second_drag_move : MouseEvent.t * Env.t :=
  (MouseEvent.mk 203 204 (Reading.mk 0 0 1040),
   Env.mk 1050 1050 true true None).
Definition second_drag_release : MouseEvent.t * Env.t :=
  (MouseEvent.mk 203 204 (Reading.mk 0 0 1090),
   Env.mk 1100 1100 true true (Some [])).

(** ** Boxes and strokes in double precision *)

(** [m] is the least of the coordinates [coord] of the points, by the
    comparison of the code: some point has it, and no point is below it. *)
Definition least (coord : Double.Point.t → float) (m : float)
  (points : list Double.Point.t) : Prop :=
  (∃ p, p ∈ points ∧ coord p = m)
  ∧ ∀ p, p ∈ points → (coord p <? m)%float = false.

(** The box takes the point in, by the comparisons of [updateBoundingBox]
    itself: the point is neither left of [x] nor right of [x + width], and
    the same for [y]. *)
Definition box_holds (box : Double.Rectangle.t) (p : Double.Point.t) : bool :=
  (negb (Double.Point.x p <? Double.Rectangle.x box)
   && negb (Double.gtb (Double.Point.x p)
              (Double.Rectangle.x box + Double.Rectangle.width box))
   && negb (Double.Point.y p <? Double.Rectangle.y box)
   && negb (Double.gtb (Double.Point.y p)
              (Double.Rectangle.y box + Double.Rectangle.height box)))%float.

(** The gesture with the points (0.2, 0) and (0.9, 0). *)
Definition short_stroke : Double.AudioPath.t :=
  Double.record (Double.Point.mk 0.2 0) [Double.Point.mk 0.9 0].

(** The gesture with the points (58.7, 95.6) and (216.6, 5.8). *)
Definition slanted_stroke : Double.AudioPath.t :=
  Double.record (Double.Point.mk 58.7 95.6) [Double.Point.mk 216.6 5.8].

(** The gesture with the points (13.73, 6.865), (43.06, 21.53) and
    (48.232, 24.116): each [y] is half its [x], exactly. *)
Definition rising_stroke : Double.AudioPath.t :=
  Double.record (Double.Point.mk 13.73 6.865)
    [Double.Point.mk 43.06 21.53; Double.Point.mk 48.232 24.116].

(** The gesture with the points (0, 0) and (100, 0). *)
Definition level_stroke : Double.AudioPath.t :=
  Double.record (Double.Point.mk 0 0) [Double.Point.mk 100 0].

(** The gesture of the record/play scenario: (0, 0), (10, 0), (20, 0). *)
Definition scenario_stroke : Double.AudioPath.t :=
  Double.record (Double.Point.mk 0 0)
    [Double.Point.mk 10 0; Double.Point.mk 20 0].

(** The locals [lenSq] and [param] of [distanceToLineSegment] and of
    [closestPointOnLineSegment], the latter before it is cut to the
    segment. *)
Definition segment_lenSq (lineStart lineEnd : Double.Point.t) : float :=
  let C := (Double.Point.x lineEnd - Double.Point.x lineStart)%float in
  let D := (Double.Point.y lineEnd - Double.Point.y lineStart)%float in
  (C * C + D * D)%float.

Definition segment_param (point lineStart lineEnd : Double.Point.t) : float :=
  let A := (Double.Point.x point - Double.Point.x lineStart)%float in
  let B := (Double.Point.y point - Double.Point.y lineStart)%float in
  let C := (Double.Point.x lineEnd - Double.Point.x lineStart)%float in
  let D := (Double.Point.y lineEnd - Double.Point.y lineStart)%float in
  ((A * C + B * D) / segment_lenSq lineStart lineEnd)%float.

(** The points [findNearestPointOnPath] chooses from: the first point of
    the path and, for each segment in order, the point that
    [closestPointOnLineSegment] computes for it. *)
Fixpoint closest_points (clickPoint p1 : Double.Point.t)
  (rest : list Double.Point.t) : list Double.Point.t :=
  match rest with
  | [] => []
  | p2 :: rest' =>
      Double.closestPointOnLineSegment clickPoint p1 p2
      :: closest_points clickPoint p2 rest'
  end.

Definition candidates (clickPoint : Double.Point.t)
  (points : list Double.Point.t) : list Double.Point.t :=
  match points with
  | [] => []
  | p0 :: rest => p0 :: closest_points clickPoint p0 rest
  end.

(** The scan holds one of the candidates, [minDistance] is its distance
    from the click, and no candidate is below that distance by the
    comparison of the code. *)
Definition nearest_among (clickPoint : Double.Point.t)
  (candidates : list Double.Point.t) (st : Double.Scan) : Prop :=
  Double.nearestPoint st ∈ candidates
  ∧ Double.minDistance st
    = Double.distanceToPoint clickPoint (Double.nearestPoint st)
  ∧ ∀ c, c ∈ candidates →
      (Double.distanceToPoint clickPoint c <? Double.minDistance st)%float
      = false.

(** The quick rejection of [isPointNearPath]: the point is outside the box
    widened by the tolerance, by the four comparisons of the code. *)
Definition box_refuses (point : Double.Point.t) (box : Double.Rectangle.t)
  (tolerance : float) : bool :=
  ((Double.Point.x point <? Double.Rectangle.x box - tolerance)
   || Double.gtb (Double.Point.x point)
        (Double.Rectangle.x box + Double.Rectangle.width box + tolerance)
   || (Double.Point.y point <? Double.Rectangle.y box - tolerance)
   || Double.gtb (Double.Point.y point)
        (Double.Rectangle.y box + Double.Rectangle.height box + tolerance))%float.

(** The pairs of consecutive points: the segments in the order of the
    loops. *)
Fixpoint consecutive_from (p1 : Double.Point.t) (rest : list Double.Point.t)
  : list (Double.Point.t * Double.Point.t) :=
  match rest with
  | [] => []
  | p2 :: rest' => (p1, p2) :: consecutive_from p2 rest'
  end.

Definition consecutive (points : list Double.Point.t)
  : list (Double.Point.t * Double.Point.t) :=
  match points with
  | [] => []
  | p0 :: rest => consecutive_from p0 rest
  end.

(** ** Deciding comparisons of concrete reals *)

Ltac decide_reals :=
  repeat match goal with
    | |- context [decide ?P] =>
        first [ rewrite (decide_True (P := P)) by lra
              | rewrite (decide_False (P := P)) by lra ]
    | |- context [bool_decide ?P] =>
        first [ rewrite (bool_decide_eq_true_2 P) by lra
              | rewrite (bool_decide_eq_false_2 P) by lra ]
    end.

(** The square root of a concrete square. *)
Ltac sqrt_is v :=
  match goal with
  | |- context [sqrt ?E] =>
      replace (sqrt E) with v
        by (symmetry; replace E with (v * v) by (field; lra);
            apply sqrt_square; lra)
  end.

(** ** Comparisons of floats *)

(** The cases of the comparisons in [SFcompare]. *)
Ltac compare_cases :=
  repeat match goal with
  | |- context [(?x ?= ?y)%Z] => destruct (Z.compare_spec x y)
  | |- context [PosDef.Pos.compare_cont Eq ?x ?y] =>
      change (PosDef.Pos.compare_cont Eq x y) with (Pos.compare x y);
      destruct (Pos.compare_spec x y)
  end.

(** * Properties *)

(** ** The insertion-ordered map *)

Section JsMapFacts.
Context {V : Type}.
Implicit Types (m : JsMap.t V) (k : string) (v : V).

Lemma JsMap_get_set_eq m k v : JsMap.get (JsMap.set m k v) k = Some v.
Proof.
  induction m as [|[k' v'] m IH]; simpl.
  - by rewrite decide_True.
  - destruct (decide (k' = k)) as [->|Hne]; simpl.
    + by rewrite decide_True.
    + by rewrite decide_False.
Qed.

Lemma JsMap_get_set_ne m k k' v :
  k ≠ k' → JsMap.get (JsMap.set m k v) k' = JsMap.get m k'.
Proof.
  intros Hne. induction m as [|[k0 v0] m IH]; simpl.
  - by rewrite decide_False.
  - destruct (decide (k0 = k)) as [->|Hne0]; simpl.
    + by rewrite !decide_False.
    + destruct (decide (k0 = k')); auto.
Qed.

Lemma JsMap_get_Some_key m k v : JsMap.get m k = Some v → k ∈ JsMap.keys m.
Proof.
  unfold JsMap.keys. induction m as [|[k0 v0] m IH]; simpl; [done|].
  destruct (decide (k0 = k)) as [->|Hne]; intros H.
  - apply list_elem_of_here.
  - apply list_elem_of_further; auto.
Qed.

Lemma JsMap_key_get m k : k ∈ JsMap.keys m → is_Some (JsMap.get m k).
Proof.
  unfold JsMap.keys. induction m as [|[k0 v0] m IH]; simpl.
  - intros H. by apply not_elem_of_nil in H.
  - intros H. destruct (decide (k0 = k)) as [->|Hne]; [eauto|].
    apply elem_of_cons in H as [->|H]; [done|auto].
Qed.

Lemma JsMap_keys_set m k v :
  ∀ k', k' ∈ JsMap.keys (JsMap.set m k v) ↔ k' = k ∨ k' ∈ JsMap.keys m.
Proof.
  unfold JsMap.keys. induction m as [|[k0 v0] m IH]; simpl; intros k'.
  - rewrite list_elem_of_singleton. split; [auto|].
    intros [?|H]; [done|]. by apply not_elem_of_nil in H.
  - destruct (decide (k0 = k)) as [->|Hne]; simpl; rewrite !elem_of_cons.
    + tauto.
    + rewrite IH. tauto.
Qed.

End JsMapFacts.

(** ** Unknown ids *)

(** C5.  On a path id that is not in the store, [addPoint] and
    [attachAudioData] return without touching anything: the store they leave
    (paths, active set and counter) is the store they found.  Both are total
    functions here, as in the source, where the test [if (!path) return]
    comes before any use of [path]: nothing is raised. *)
Theorem unknown_id_is_noop (pm : PathManager.t) (pathId : string)
  (point : Point.t) (now : R) (payload : ArrayBuffer) :
  PathManager.getPath pm pathId = None →
  PathManager.addPoint pm pathId point now = pm
  ∧ PathManager.attachAudioData pm pathId payload = pm.
Proof.
  unfold PathManager.getPath, PathManager.addPoint,
    PathManager.attachAudioData.
  intros ->. done.
Qed.

Lemma unknown_id_is_noop_witness :
  let pm := fst (PathManager.startRecording PathManager.new
                   (Point.mk 3 4 0 None) 0 0) in
  PathManager.addPoint pm "nonexistent" (Point.mk 1 2 0 None) 7 = pm
  ∧ PathManager.attachAudioData pm "nonexistent" [] = pm.
Proof.
  apply unknown_id_is_noop. reflexivity.
Defined.

(** ** What [attachAudioData] stores *)

Lemma getRecordingDuration_span (path : AudioPath.t) :
  PathManager.getRecordingDuration path / 1000
  = gesture_span_seconds (AudioPath.points path).
Proof.
  unfold PathManager.getRecordingDuration, gesture_span_seconds.
  destruct (AudioPath.points path) as [|p [|q rest]] eqn:Hpts.
  - rewrite decide_True by (simpl; lia). lra.
  - rewrite decide_True by (simpl; lia). lra.
  - rewrite decide_False by (simpl; lia).
    rewrite last_lookup.
    replace (length (p :: q :: rest) - 1)%nat
      with (Nat.pred (length (p :: q :: rest))) by (simpl; lia).
    change ((p :: q :: rest) !! 0%nat) with (Some p).
    destruct ((p :: q :: rest) !! Nat.pred (length (p :: q :: rest)));
      [done|lra].
Qed.

Lemma attachAudioData_get (pm : PathManager.t) (pathId : string)
  (payload : ArrayBuffer) (path : AudioPath.t) :
  PathManager.getPath pm pathId = Some path →
  PathManager.getPath (PathManager.attachAudioData pm pathId payload) pathId
  = Some (AudioPath.with_audioData path
            (AudioData.mk payload webm 44100
               (PathManager.getRecordingDuration path / 1000)
               (AudioPath.createdAt path)
               (JS.div (PathManager.calculatePathLength path)
                  (PathManager.getRecordingDuration path)))).
Proof.
  unfold PathManager.getPath, PathManager.attachAudioData. intros ->.
  simpl. apply JsMap_get_set_eq.
Qed.

(** C10.  The duration that [attachAudioData] stores is the time span of the
    drawing gesture: the last point's timestamp minus the first point's, in
    seconds, and 0 for a path with fewer than two points.  It is computed
    from the points alone; the audio payload only goes into [buffer]. *)
Theorem stored_duration_is_gesture_span (pm : PathManager.t) (pathId : string)
  (payload : ArrayBuffer) (path : AudioPath.t) :
  PathManager.getPath pm pathId = Some path →
  ∃ path' audio,
    PathManager.getPath (PathManager.attachAudioData pm pathId payload) pathId
    = Some path'
    ∧ AudioPath.audioData path' = Some audio
    ∧ AudioData.buffer audio = payload
    ∧ AudioData.duration audio = gesture_span_seconds (AudioPath.points path).
Proof.
  intros Hget. eexists _, _.
  split; [by apply attachAudioData_get|].
  simpl. split; [done|]. split; [done|].
  apply getRecordingDuration_span.
Qed.

Lemma stored_duration_is_gesture_span_witness :
  let pm := fst (PathManager.startRecording PathManager.new
                   (Point.mk 0 0 0 None) 1000 0) in
  ∃ path' audio,
    PathManager.getPath (PathManager.attachAudioData pm "path-1" []) "path-1"
    = Some path'
    ∧ AudioPath.audioData path' = Some audio
    ∧ AudioData.buffer audio = []
    ∧ AudioData.duration audio
      = gesture_span_seconds [Point.mk 0 0 1000 None].
Proof.
  apply (stored_duration_is_gesture_span _ "path-1" []
           (AudioPath.mk "path-1" [Point.mk 0 0 1000 None] None
              PathManager.getDefaultStyle
              (PathManager.createBoundingBox (Point.mk 0 0 1000 None)) 0)).
  reflexivity.
Defined.

(** C3, at the failing input.  The division in [attachAudioData] has no
    guard.  A path that has only its first point has length 0 and recording
    duration 0, and what is stored as [originalSpeed] is 0/0, that is NaN. *)
Theorem single_point_speed_is_NaN (point : Point.t) (now date_now : R)
  (payload : ArrayBuffer) :
  let '(pm, pathId) :=
    PathManager.startRecording PathManager.new point now date_now in
  ∃ path audio,
    PathManager.getPath (PathManager.attachAudioData pm pathId payload) pathId
    = Some path
    ∧ AudioPath.audioData path = Some audio
    ∧ AudioData.originalSpeed audio = JS.NaN.
Proof.
  simpl. eexists _, _.
  split; [apply attachAudioData_get; reflexivity|].
  simpl. split; [done|].
  unfold PathManager.getRecordingDuration, PathManager.calculatePathLength.
  simpl. unfold JS.div. by rewrite !decide_True.
Qed.

(** ** Path ids *)

Lemma path_id_inj (m n : N) :
  PathManager.path_id m = PathManager.path_id n → m = n.
Proof.
  unfold PathManager.path_id. intros H.
  apply (inj (String.app "path-")) in H. by apply (inj pretty) in H.
Qed.

Lemma apply_op_counter (pm : PathManager.t) (op : store_op) :
  is_clear op = false →
  (PathManager.pathCounter pm <= PathManager.pathCounter (apply_op pm op).1)%N
  ∧ ∀ pathId, pathId ∈ (apply_op pm op).2 →
      pathId = PathManager.path_id
                 (PathManager.pathCounter (apply_op pm op).1)
      ∧ (PathManager.pathCounter pm
         < PathManager.pathCounter (apply_op pm op).1)%N.
Proof.
  destruct op; simpl; intros Hclear; try discriminate;
    try (split; [|intros ? H; by apply not_elem_of_nil in H]); try lia.
  - split; [lia|]. intros pathId ->%list_elem_of_singleton. split; [done|lia].
  - unfold PathManager.addPoint. by destruct (JsMap.get _ _).
  - unfold PathManager.attachAudioData. by destruct (JsMap.get _ _).
Qed.

(** Without a [clearAllPaths] in between, every id that a run returns is
    [path-k] for a [k] above the counter the run started from, and later ids
    have larger numbers than earlier ones. *)
Lemma run_ops_ids_above (ops : list store_op) : ∀ pm,
  clear_free ops →
  (PathManager.pathCounter pm <= PathManager.pathCounter (run_ops pm ops).1)%N
  ∧ NoDup (run_ops pm ops).2
  ∧ ∀ pathId, pathId ∈ (run_ops pm ops).2 →
      ∃ k, pathId = PathManager.path_id k
           ∧ (PathManager.pathCounter pm < k)%N
           ∧ (k <= PathManager.pathCounter (run_ops pm ops).1)%N.
Proof.
  induction ops as [|op ops IH]; intros pm Hfree; simpl.
  - split; [lia|]. split; [constructor|].
    intros ? H. by apply not_elem_of_nil in H.
  - apply Forall_cons in Hfree as [Hop Hfree].
    destruct (apply_op_counter pm op Hop) as [Hle Hids].
    destruct (apply_op pm op) as [pm1 ids1] eqn:Hop1. simpl in Hle, Hids.
    destruct (IH pm1 Hfree) as (Hle2 & Hnodup & Hids2).
    destruct (run_ops pm1 ops) as [pm2 ids2]. simpl in *.
    split; [lia|]. split.
    + apply NoDup_app. split; [|split; [|done]].
      * destruct op; simpl in Hop1; inversion Hop1; subst;
          try constructor; try apply not_elem_of_nil. constructor.
      * intros pathId H1 H2.
        destruct (Hids _ H1) as [-> Hlt].
        destruct (Hids2 _ H2) as (k & Hk & Hlt2 & _).
        apply path_id_inj in Hk. lia.
    + intros pathId [H|H]%elem_of_app.
      * destruct (Hids _ H) as [-> Hlt]. eexists. split; [done|lia].
      * destruct (Hids2 _ H) as (k & -> & ? & ?). exists k.
        split; [done|lia].
Qed.

Lemma JsMap_keys_delete {V : Type} (m : JsMap.t V) (k k' : string) :
  k' ∈ JsMap.keys (JsMap.delete m k) → k' ∈ JsMap.keys m.
Proof.
  unfold JsMap.keys. induction m as [|[k0 v0] m IH]; simpl; [done|].
  destruct (decide (k0 = k)); simpl; rewrite !elem_of_cons; tauto.
Qed.

Lemma ids_bounded_new : ids_bounded PathManager.new.
Proof. intros pathId H. by apply not_elem_of_nil in H. Qed.

Lemma ids_bounded_startRecording pm point now date_now :
  ids_bounded pm →
  ids_bounded (PathManager.startRecording pm point now date_now).1.
Proof.
  intros Hb pathId. simpl. rewrite JsMap_keys_set. intros [->|H].
  - eexists. split; [done|lia].
  - destruct (Hb _ H) as (k & -> & ?). exists k. split; [done|lia].
Qed.

Lemma ids_bounded_addPoint pm pathId point now :
  ids_bounded pm → ids_bounded (PathManager.addPoint pm pathId point now).
Proof.
  unfold PathManager.addPoint. intros Hb.
  destruct (JsMap.get _ _) as [path|] eqn:Hget; [|done].
  intros k. simpl. rewrite JsMap_keys_set. intros [->|H]; [|auto].
  apply Hb. by eapply JsMap_get_Some_key.
Qed.

Lemma ids_bounded_attachAudioData pm pathId payload :
  ids_bounded pm → ids_bounded (PathManager.attachAudioData pm pathId payload).
Proof.
  unfold PathManager.attachAudioData. intros Hb.
  destruct (JsMap.get _ _) as [path|] eqn:Hget; [|done].
  intros k. simpl. rewrite JsMap_keys_set. intros [->|H]; [|auto].
  apply Hb. by eapply JsMap_get_Some_key.
Qed.

Lemma ids_bounded_apply_op pm op :
  ids_bounded pm → ids_bounded (apply_op pm op).1.
Proof.
  intros Hb. destruct op; simpl.
  - by apply ids_bounded_startRecording.
  - by apply ids_bounded_addPoint.
  - done.
  - by apply ids_bounded_attachAudioData.
  - intros k H. apply JsMap_keys_delete in H. auto.
  - apply ids_bounded_new.
Qed.

Lemma ids_bounded_run_ops ops : ∀ pm,
  ids_bounded pm → ids_bounded (run_ops pm ops).1.
Proof.
  induction ops as [|op ops IH]; intros pm Hb; simpl; [done|].
  pose proof (ids_bounded_apply_op pm op Hb) as H1.
  destruct (apply_op pm op) as [pm1 ids1]. simpl in H1.
  specialize (IH pm1 H1). by destruct (run_ops pm1 ops).
Qed.

(** C4 as stated fails: [clearAllPaths] sets the counter back to 0, and the
    next [startRecording] returns ["path-1"] a second time. *)
Lemma id_reused_after_clearAllPaths :
  (run_ops PathManager.new
     [OpStartRecording (Point.mk 0 0 0 None) 0 0;
      OpClearAllPaths;
      OpStartRecording (Point.mk 5 5 0 None) 1 1]).2
  = ["path-1"; "path-1"]
  ∧ ¬ NoDup (run_ops PathManager.new
               [OpStartRecording (Point.mk 0 0 0 None) 0 0;
                OpClearAllPaths;
                OpStartRecording (Point.mk 5 5 0 None) 1 1]).2.
Proof.
  assert (H : (run_ops PathManager.new
     [OpStartRecording (Point.mk 0 0 0 None) 0 0;
      OpClearAllPaths;
      OpStartRecording (Point.mk 5 5 0 None) 1 1]).2
    = ["path-1"; "path-1"]) by reflexivity.
  split; [exact H|]. rewrite H.
  intros Hnd. apply NoDup_cons in Hnd as [Hnotin _].
  apply Hnotin, list_elem_of_here.
Qed.

(** C4, amended.  After any history of store operations, the ids returned
    by [startRecording] up to the next [clearAllPaths] are pairwise distinct,
    and none of them is the id of a path that is in the store when they are
    handed out. *)
Theorem ids_unique_until_clear (history ops : list store_op) :
  clear_free ops →
  let pm := (run_ops PathManager.new history).1 in
  NoDup (run_ops pm ops).2
  ∧ ∀ pathId, pathId ∈ (run_ops pm ops).2 →
      pathId ∉ JsMap.keys (PathManager.paths pm).
Proof.
  intros Hfree pm.
  destruct (run_ops_ids_above ops pm Hfree) as (_ & Hnodup & Hids).
  split; [done|]. intros pathId Hin Hkey.
  destruct (Hids _ Hin) as (k & -> & Hlt & _).
  assert (Hb : ids_bounded pm)
    by (apply ids_bounded_run_ops, ids_bounded_new).
  destruct (Hb _ Hkey) as (k' & Hk' & Hle).
  apply path_id_inj in Hk'. lia.
Qed.

Lemma ids_unique_until_clear_witness :
  let pm := (run_ops PathManager.new
               [OpStartRecording (Point.mk 0 0 0 None) 0 0;
                OpClearAllPaths;
                OpStartRecording (Point.mk 1 1 0 None) 1 1]).1 in
  let ops := [OpStartRecording (Point.mk 2 2 0 None) 2 2;
              OpDeletePath "path-2";
              OpStartRecording (Point.mk 3 3 0 None) 3 3] in
  NoDup (run_ops pm ops).2
  ∧ ∀ pathId, pathId ∈ (run_ops pm ops).2 →
      pathId ∉ JsMap.keys (PathManager.paths pm).
Proof.
  apply (ids_unique_until_clear
           [OpStartRecording (Point.mk 0 0 0 None) 0 0;
            OpClearAllPaths;
            OpStartRecording (Point.mk 1 1 0 None) 1 1]).
  repeat constructor.
Defined.

(** ** Bounding boxes *)

(** There is at most one such box. *)
Lemma minimal_aabb_unique (box box' : Rectangle.t) (points : list Point.t) :
  is_minimal_aabb box points → is_minimal_aabb box' points → box = box'.
Proof.
  intros (Hc & (a & Ha & Hax) & (b & Hb & Hbx) & (c & Hc' & Hcy)
          & (d & Hd & Hdy))
         (Hc2 & (a2 & Ha2 & Hax2) & (b2 & Hb2 & Hbx2) & (c2 & Hc2' & Hcy2)
          & (d2 & Hd2 & Hdy2)).
  pose proof (Hc _ Ha2). pose proof (Hc _ Hb2).
  pose proof (Hc _ Hc2'). pose proof (Hc _ Hd2).
  pose proof (Hc2 _ Ha). pose proof (Hc2 _ Hb).
  pose proof (Hc2 _ Hc'). pose proof (Hc2 _ Hd).
  destruct box, box'; simpl in *. f_equal; lra.
Qed.

Lemma createBoundingBox_minimal (point : Point.t) :
  is_minimal_aabb (PathManager.createBoundingBox point) [point].
Proof.
  unfold is_minimal_aabb, PathManager.createBoundingBox; simpl.
  split.
  - intros p ->%list_elem_of_singleton. lra.
  - repeat split; exists point; (split; [apply list_elem_of_here|lra]).
Qed.

(** The grow-to-include step keeps the box minimal. *)
Lemma updateBoundingBox_minimal (box : Rectangle.t) (points : list Point.t)
  (point : Point.t) :
  is_minimal_aabb box points →
  is_minimal_aabb (PathManager.updateBoundingBox box point) (points ++ [point]).
Proof.
  intros (Hcov & (a & Ha & Hax) & (b & Hb & Hbx) & (c & Hc & Hcy)
          & (d & Hd & Hdy)).
  pose proof (Hcov _ Ha) as Ha'. pose proof (Hcov _ Hc) as Hc'.
  assert (Hnew : point ∈ points ++ [point])
    by (apply elem_of_app; right; apply list_elem_of_here).
  assert (Hold : ∀ p, p ∈ points → p ∈ points ++ [point])
    by (intros p Hp; apply elem_of_app; by left).
  unfold is_minimal_aabb, PathManager.updateBoundingBox.
  destruct (decide (Point.x point < Rectangle.x box)) as [Hx1|Hx1];
    [|destruct (decide (Point.x point
                        > Rectangle.x box + Rectangle.width box)) as [Hx2|Hx2]];
    (destruct (decide (Point.y point < Rectangle.y box)) as [Hy1|Hy1];
     [|destruct (decide (Point.y point
                         > Rectangle.y box + Rectangle.height box))
         as [Hy2|Hy2]]);
    simpl;
    (split;
     [intros p [Hp| ->%list_elem_of_singleton]%elem_of_app;
      [pose proof (Hcov _ Hp); lra | lra]
     |]);
    repeat split;
    first [ by (exists point; split; [done|lra])
          | by (exists a; split; [auto|lra])
          | by (exists b; split; [auto|lra])
          | by (exists c; split; [auto|lra])
          | by (exists d; split; [auto|lra]) ].
Qed.

Lemma addPoint_get (pm : PathManager.t) (pathId : string) (point : Point.t)
  (now : R) (path : AudioPath.t) :
  PathManager.getPath pm pathId = Some path →
  PathManager.getPath (PathManager.addPoint pm pathId point now) pathId
  = Some (AudioPath.with_boundingBox
            (AudioPath.with_points path
               (AudioPath.points path ++ [PathManager.stamp point now]))
            (PathManager.updateBoundingBox (AudioPath.boundingBox path)
               (PathManager.stamp point now))).
Proof.
  unfold PathManager.getPath, PathManager.addPoint. intros ->.
  simpl. apply JsMap_get_set_eq.
Qed.

Lemma addPoints_minimal (moves : list (Point.t * R)) : ∀ pm pathId path,
  PathManager.getPath pm pathId = Some path →
  is_minimal_aabb (AudioPath.boundingBox path) (AudioPath.points path) →
  ∃ path',
    PathManager.getPath (addPoints pm pathId moves) pathId = Some path'
    ∧ AudioPath.points path'
      = AudioPath.points path
        ++ map (fun move => PathManager.stamp move.1 move.2) moves
    ∧ is_minimal_aabb (AudioPath.boundingBox path') (AudioPath.points path').
Proof.
  induction moves as [|[point now] moves IH]; intros pm pathId path Hget Hmin.
  - exists path. simpl. by rewrite app_nil_r.
  - simpl.
    edestruct (IH (PathManager.addPoint pm pathId point now) pathId)
      as (path' & Hget' & Hpts & Hmin').
    + by apply addPoint_get.
    + simpl. by apply updateBoundingBox_minimal.
    + exists path'. split; [done|]. split; [|done].
      rewrite Hpts. simpl. by rewrite <- app_assoc.
Qed.

Lemma startRecording_get (pm : PathManager.t) (point : Point.t)
  (now date_now : R) :
  PathManager.getPath (PathManager.startRecording pm point now date_now).1
    (PathManager.startRecording pm point now date_now).2
  = Some (AudioPath.mk
            (PathManager.path_id (PathManager.pathCounter pm + 1))
            [PathManager.stamp point now] None PathManager.getDefaultStyle
            (PathManager.createBoundingBox (PathManager.stamp point now))
            date_now).
Proof. unfold PathManager.getPath. simpl. apply JsMap_get_set_eq. Qed.

(** The update of the box without rounding.  Over the real numbers, a path
    created by [startRecording] and extended by any run of [addPoint] calls
    has the points given, in order, and its [boundingBox] is the minimal
    axis-aligned bounding box of exactly those points; with no [addPoint]
    at all the box is the degenerate box at the first point.  What the
    source computes in doubles is settled below. *)
Theorem boundingBox_is_minimal_aabb (pm : PathManager.t) (point : Point.t)
  (now date_now : R) (moves : list (Point.t * R)) :
  let '(pm1, pathId) := PathManager.startRecording pm point now date_now in
  ∃ path,
    PathManager.getPath (addPoints pm1 pathId moves) pathId = Some path
    ∧ AudioPath.points path
      = PathManager.stamp point now
        :: map (fun move => PathManager.stamp move.1 move.2) moves
    ∧ is_minimal_aabb (AudioPath.boundingBox path) (AudioPath.points path)
    ∧ (moves = [] →
       AudioPath.boundingBox path
       = Rectangle.mk (Point.x point) (Point.y point) 0 0).
Proof.
  pose proof (startRecording_get pm point now date_now) as Hget0.
  destruct (PathManager.startRecording pm point now date_now)
    as [pm1 pathId]. simpl in Hget0.
  destruct (addPoints_minimal moves pm1 pathId _ Hget0)
    as (path' & Hget & Hpts & Hmin).
  - simpl. apply createBoundingBox_minimal.
  - exists path'. split; [exact Hget|]. split; [exact Hpts|].
    split; [exact Hmin|].
    intros ->. simpl in Hget. rewrite Hget0 in Hget.
    by inversion Hget.
Qed.

(** ** Bounding boxes in double precision *)

(** The comparison [<] of doubles, as far as the box needs it: nothing is
    below itself, and what is not below [b] is not below anything that is
    below [b].  Both hold for NaN too, which is below nothing and has
    nothing below it. *)
Lemma SFltb_irrefl (a : spec_float) : SFltb a a = false.
Proof.
  unfold SFltb, SFcompare.
  destruct a as [s|s| |s m e]; try destruct s; simpl; try reflexivity;
    compare_cases; simpl; try reflexivity; lia.
Qed.

Lemma SFltb_not_below (a b c : spec_float) :
  SFltb a b = false → SFltb c b = true → SFltb a c = false.
Proof.
  unfold SFltb, SFcompare.
  destruct a as [sa|sa| |sa ma ea], b as [sb|sb| |sb mb eb],
    c as [sc|sc| |sc mc ec];
    try destruct sa; try destruct sb; try destruct sc; simpl;
    try congruence;
    compare_cases; simpl; try congruence; subst; try lia.
Qed.

Lemma ltb_irrefl (a : float) : (a <? a)%float = false.
Proof. rewrite ltb_spec. apply SFltb_irrefl. Qed.

Lemma ltb_not_below (a b c : float) :
  (a <? b)%float = false → (c <? b)%float = true → (a <? c)%float = false.
Proof. rewrite !ltb_spec. apply SFltb_not_below. Qed.

Lemma updateBoundingBox_x (box : Double.Rectangle.t) (point : Double.Point.t) :
  Double.Rectangle.x (Double.updateBoundingBox box point)
  = if (Double.Point.x point <? Double.Rectangle.x box)%float
    then Double.Point.x point else Double.Rectangle.x box.
Proof.
  unfold Double.updateBoundingBox.
  destruct (Double.Point.x point <? Double.Rectangle.x box)%float;
    [|destruct (Double.gtb _ _)];
    (destruct (Double.Point.y point <? Double.Rectangle.y box)%float;
     [|destruct (Double.gtb _ _)]); reflexivity.
Qed.

Lemma updateBoundingBox_y (box : Double.Rectangle.t) (point : Double.Point.t) :
  Double.Rectangle.y (Double.updateBoundingBox box point)
  = if (Double.Point.y point <? Double.Rectangle.y box)%float
    then Double.Point.y point else Double.Rectangle.y box.
Proof.
  unfold Double.updateBoundingBox.
  destruct (Double.Point.x point <? Double.Rectangle.x box)%float;
    [|destruct (Double.gtb _ _)];
    (destruct (Double.Point.y point <? Double.Rectangle.y box)%float;
     [|destruct (Double.gtb _ _)]); reflexivity.
Qed.

(** One more point: the least coordinate is replaced when the point is
    below it, and kept otherwise. *)
Lemma least_snoc (coord : Double.Point.t → float) (m : float)
  (points : list Double.Point.t) (point : Double.Point.t) :
  least coord m points →
  least coord (if (coord point <? m)%float then coord point else m)
    (points ++ [point]).
Proof.
  intros [(p0 & Hin0 & Hp0) Hall].
  destruct (coord point <? m)%float eqn:Hlt.
  - split.
    + exists point. split; [|done]. apply elem_of_app. right.
      by apply list_elem_of_singleton.
    + intros p [Hin|Hin%list_elem_of_singleton]%elem_of_app.
      * apply (ltb_not_below _ m); [by apply Hall|done].
      * subst p. apply ltb_irrefl.
  - split.
    + exists p0. split; [|done]. apply elem_of_app. by left.
    + intros p [Hin|Hin%list_elem_of_singleton]%elem_of_app.
      * by apply Hall.
      * by subst p.
Qed.

Lemma least_singleton (coord : Double.Point.t → float) (point : Double.Point.t) :
  least coord (coord point) [point].
Proof.
  split.
  - exists point. split; [by apply list_elem_of_singleton|done].
  - intros p Hin%list_elem_of_singleton. subst p. apply ltb_irrefl.
Qed.

Lemma addPoints_least (others : list Double.Point.t) : ∀ path,
  least Double.Point.x
    (Double.Rectangle.x (Double.AudioPath.boundingBox path))
    (Double.AudioPath.points path) →
  least Double.Point.y
    (Double.Rectangle.y (Double.AudioPath.boundingBox path))
    (Double.AudioPath.points path) →
  let path' := foldl Double.addPoint path others in
  Double.AudioPath.points path' = Double.AudioPath.points path ++ others
  ∧ least Double.Point.x
      (Double.Rectangle.x (Double.AudioPath.boundingBox path'))
      (Double.AudioPath.points path')
  ∧ least Double.Point.y
      (Double.Rectangle.y (Double.AudioPath.boundingBox path'))
      (Double.AudioPath.points path').
Proof.
  induction others as [|point others IH]; intros path Hx Hy; simpl.
  - by rewrite app_nil_r.
  - destruct (IH (Double.addPoint path point)) as (Hpoints & Hx' & Hy').
    + simpl. rewrite updateBoundingBox_x. by apply least_snoc.
    + simpl. rewrite updateBoundingBox_y. by apply least_snoc.
    + split; [|done]. rewrite Hpoints. simpl. by rewrite <- app_assoc.
Qed.



(** ** Nearest point on a straight path

    The points of the path lie on the line through [(ox, oy)] with direction
    [(dx, dy)]; a point is named by its parameter [t] along the line, which
    is also what a query projects to.  On such a path the scan of
    [findNearestPointOnPath] only ever compares parameters. *)

Lemma last_cons_default {A : Type} (l : list A) : ∀ a d,
  List.last (a :: l) d = List.last l a.
Proof.
  induction l as [|b l IH]; intros a d; [done|].
  change (List.last (a :: b :: l) d) with (List.last (b :: l) d).
  by rewrite !IH.
Qed.

Section Line.
Variables ox oy dx dy : R.
Hypothesis direction : 0 < dx * dx + dy * dy.

Local Abbreviation at_param := (at_param ox oy dx dy).
Local Abbreviation proj := (proj ox oy dx dy).
Local Abbreviation unit_length := (unit_length dx dy).
Local Abbreviation on_line := (on_line ox oy dx dy).
Local Abbreviation ascending := (ascending ox oy dx dy).

Lemma unit_length_pos : 0 < unit_length.
Proof. by apply sqrt_lt_R0. Qed.

Lemma at_param_proj t p : at_param t p → proj p = t.
Proof. intros [Hx Hy]. unfold proj. rewrite Hx, Hy. field. lra. Qed.

Lemma distance_on_line t t' p p' :
  at_param t p → at_param t' p' →
  PathManager.distanceToPoint p p' = Rabs (t - t') * unit_length.
Proof.
  intros [Hx Hy] [Hx' Hy']. unfold PathManager.distanceToPoint, unit_length.
  rewrite Hx, Hy, Hx', Hy'.
  replace ((ox + t * dx - (ox + t' * dx)) * (ox + t * dx - (ox + t' * dx))
           + (oy + t * dy - (oy + t' * dy)) * (oy + t * dy - (oy + t' * dy)))
    with (Rsqr (t - t') * (dx * dx + dy * dy)) by (unfold Rsqr; ring).
  rewrite sqrt_mult by (try apply Rle_0_sqr; lra).
  by rewrite sqrt_Rsqr_abs.
Qed.

Lemma distance_to_line_lt q t t' p p' :
  at_param t p → at_param t' p' →
  PathManager.distanceToPoint q p < PathManager.distanceToPoint q p'
  ↔ Rabs (proj q - t) < Rabs (proj q - t').
Proof.
  intros [Hx Hy] [Hx' Hy']. unfold PathManager.distanceToPoint.
  set (s := proj q).
  assert (Hs : (Point.x q - ox) * dx + (Point.y q - oy) * dy
               = s * (dx * dx + dy * dy)).
  { unfold s, proj. field. lra. }
  set (a := (Point.x q - Point.x p) * (Point.x q - Point.x p)
            + (Point.y q - Point.y p) * (Point.y q - Point.y p)).
  set (b := (Point.x q - Point.x p') * (Point.x q - Point.x p')
            + (Point.y q - Point.y p') * (Point.y q - Point.y p')).
  assert (Ha : 0 <= a)
    by (unfold a; apply Rplus_le_le_0_compat; apply Rle_0_sqr).
  assert (Hb : 0 <= b)
    by (unfold b; apply Rplus_le_le_0_compat; apply Rle_0_sqr).
  assert (Hab : a - b
                = (dx * dx + dy * dy) * (Rsqr (s - t) - Rsqr (s - t'))).
  { unfold a, b, Rsqr. rewrite Hx, Hy, Hx', Hy'.
    transitivity (2 * (t' - t) * ((Point.x q - ox) * dx + (Point.y q - oy) * dy)
                  + (t * t - t' * t') * (dx * dx + dy * dy)); [ring|].
    rewrite Hs. ring. }
  assert (Hsq : a < b ↔ Rsqr (s - t) < Rsqr (s - t')).
  { split; intros H; nra. }
  split.
  - intros H%sqrt_lt_0_alt. apply Rsqr_lt_abs_0. tauto.
  - intros H%Rsqr_lt_abs_1. apply sqrt_lt_1_alt. split; [done|]. tauto.
Qed.

Lemma closest_on_line_any q t1 t2 p1 p2 now :
  at_param t1 p1 → at_param t2 p2 →
  at_param (seg_point t1 t2 (proj q))
    (PathManager.closestPointOnLineSegment q p1 p2 now).
Proof.
  intros [Hx1 Hy1] [Hx2 Hy2].
  unfold PathManager.closestPointOnLineSegment, seg_point.
  set (s := proj q).
  assert (Hs : (Point.x q - ox) * dx + (Point.y q - oy) * dy
               = s * (dx * dx + dy * dy)).
  { unfold s, proj. field. lra. }
  assert (HlenSq : (Point.x p2 - Point.x p1) * (Point.x p2 - Point.x p1)
                   + (Point.y p2 - Point.y p1) * (Point.y p2 - Point.y p1)
                   = Rsqr (t2 - t1) * (dx * dx + dy * dy)).
  { rewrite Hx1, Hy1, Hx2, Hy2. unfold Rsqr. ring. }
  rewrite HlenSq.
  assert (Hdot : (Point.x q - Point.x p1) * (Point.x p2 - Point.x p1)
                 + (Point.y q - Point.y p1) * (Point.y p2 - Point.y p1)
                 = (s - t1) * (t2 - t1) * (dx * dx + dy * dy)).
  { rewrite Hx1, Hy1, Hx2, Hy2.
    transitivity ((t2 - t1)
                  * ((Point.x q - ox) * dx + (Point.y q - oy) * dy)
                  - t1 * (t2 - t1) * (dx * dx + dy * dy)); [ring|].
    rewrite Hs. ring. }
  rewrite Hdot.
  destruct (decide (t1 = t2)) as [->|Hne].
  - rewrite decide_True by (unfold Rsqr; ring). done.
  - assert (HlenSq0 : Rsqr (t2 - t1) * (dx * dx + dy * dy) ≠ 0).
    { intros H0. apply Rmult_integral in H0 as [H0|H0]; [|lra].
      apply Rsqr_0_uniq in H0. lra. }
    rewrite (decide_False _ _ HlenSq0).
    replace ((s - t1) * (t2 - t1) * (dx * dx + dy * dy)
             / (Rsqr (t2 - t1) * (dx * dx + dy * dy)))
      with ((s - t1) / (t2 - t1)) by (unfold Rsqr; field; lra).
    simpl.
    set (u := if decide
                   ((if decide ((s - t1) / (t2 - t1) < 0) then 0
                     else (s - t1) / (t2 - t1)) > 1)
              then 1
              else if decide ((s - t1) / (t2 - t1) < 0) then 0
                   else (s - t1) / (t2 - t1)).
    unfold at_param. simpl. rewrite Hx1, Hy1, Hx2, Hy2. split; ring.
Qed.

Lemma seg_point_clamp t1 t2 s : t1 <= t2 → seg_point t1 t2 s = clamp t1 t2 s.
Proof.
  intros Hle. unfold seg_point, clamp, Rmax, Rmin.
  destruct (decide (t1 = t2)) as [->|Hne].
  - repeat destruct (Rle_dec _ _); lra.
  - set (u := (s - t1) / (t2 - t1)).
    assert (Hu : u * (t2 - t1) = s - t1) by (unfold u; field; lra).
    destruct (decide (u < 0)) as [Hu0|Hu0].
    + rewrite decide_False by lra.
      assert (s < t1) by nra.
      repeat destruct (Rle_dec _ _); lra.
    + destruct (decide (u > 1)) as [Hu1|Hu1].
      * assert (t2 < s) by nra.
        repeat destruct (Rle_dec _ _); lra.
      * assert (t1 <= s <= t2) by nra.
        repeat destruct (Rle_dec _ _); lra.
Qed.

Lemma closest_on_line q t1 t2 p1 p2 now :
  at_param t1 p1 → at_param t2 p2 → t1 <= t2 →
  at_param (clamp t1 t2 (proj q))
    (PathManager.closestPointOnLineSegment q p1 p2 now).
Proof.
  intros H1 H2 Hle. rewrite <- seg_point_clamp by done.
  by apply closest_on_line_any.
Qed.

Variable q : Point.t.
Variable now : R.

Local Abbreviation scan_inv := (scan_inv ox oy dx dy q).

Lemma scan_segment_inv total t0 t1 t2 p1 p2 st :
  at_param t1 p1 → at_param t2 p2 → t0 <= t1 → t1 <= t2 →
  scan_inv total t0 t1 st →
  scan_inv total t0 t2 (PathManager.scan_segment q total now p1 p2 st).
Proof.
  intros H1 H2 H01 H12 (Hat & Hmin & Hprog & Hacc).
  pose proof (closest_on_line q t1 t2 p1 p2 now H1 H2 H12) as Hc.
  pose proof (distance_to_line_lt q _ _ _ _ Hc Hat) as Hlt.
  pose proof unit_length_pos as Hn.
  unfold PathManager.scan_segment.
  rewrite (distance_on_line t1 t2 p1 p2 H1 H2).
  rewrite (distance_on_line _ _ _ _ H1 Hc).
  rewrite Hmin.
  set (closest := PathManager.closestPointOnLineSegment q p1 p2 now) in *.
  destruct (decide (PathManager.distanceToPoint q closest
                    < PathManager.distanceToPoint q
                        (PathManager.nearestPoint st))) as [Hd|Hd].
  - apply Hlt in Hd.
    assert (Hs : t1 < proj q ∧ t1 < t2).
    { revert Hd. unfold clamp, Rmax, Rmin, Rabs.
      repeat destruct (Rle_dec _ _); repeat destruct (Rcase_abs _); lra. }
    destruct Hs as [Hs Ht].
    assert (Hclamp : clamp t0 t2 (proj q) = clamp t1 t2 (proj q)).
    { unfold clamp, Rmax, Rmin. repeat destruct (Rle_dec _ _); lra. }
    assert (Hc1 : t1 <= clamp t1 t2 (proj q)).
    { unfold clamp, Rmax, Rmin. repeat destruct (Rle_dec _ _); lra. }
    unfold scan_inv; simpl. rewrite Hclamp.
    split; [done|]. split; [done|]. split.
    + assert (Hseg : Rabs (t1 - t2) * unit_length > 0)
        by (rewrite Rabs_left by lra; apply Rlt_gt; nra).
      rewrite (decide_True _ _ Hseg).
      rewrite Hacc.
      rewrite (Rabs_left (t1 - t2)) by lra.
      rewrite (Rabs_left1 (t1 - clamp t1 t2 (proj q))) by lra.
      destruct (decide (total > 0)); [|done].
      field. split; lra.
    + rewrite Hacc. rewrite Rabs_left by lra. ring.
  - assert (Hnlt : ¬ Rabs (proj q - clamp t1 t2 (proj q))
                     < Rabs (proj q - clamp t0 t1 (proj q))) by tauto.
    assert (Hclamp : clamp t0 t2 (proj q) = clamp t0 t1 (proj q)).
    { revert Hnlt. unfold clamp, Rmax, Rmin, Rabs.
      repeat destruct (Rle_dec _ _); repeat destruct (Rcase_abs _); lra. }
    unfold scan_inv; simpl. rewrite Hclamp.
    split; [done|]. split; [done|]. split; [done|].
    rewrite Hacc. rewrite Rabs_left1 by lra. ring.
Qed.

Lemma ascending_last p rest : ascending p rest → proj p <= proj (List.last rest p).
Proof.
  revert p. induction rest as [|p' rest IH]; intros p; [simpl; lra|].
  intros [Hle Hasc]. specialize (IH p' Hasc).
  rewrite last_cons_default. lra.
Qed.

Lemma scan_loop_inv total rest : ∀ p1 st t0,
  on_line p1 → Forall on_line rest → ascending p1 rest → t0 <= proj p1 →
  scan_inv total t0 (proj p1) st →
  scan_inv total t0 (proj (List.last rest p1))
    (PathManager.scan_loop q total now p1 rest st).
Proof.
  induction rest as [|p2 rest IH]; intros p1 st t0 H1 Hall Hasc H0 Hinv;
    [done|].
  apply Forall_cons in Hall as [H2 Hall]. destruct Hasc as [H12 Hasc].
  rewrite last_cons_default. simpl.
  apply IH; [done|done|done|lra|].
  by apply (scan_segment_inv total t0 (proj p1) (proj p2)).
Qed.

Lemma calculatePathLength_loop_line rest : ∀ p1 len,
  on_line p1 → Forall on_line rest → ascending p1 rest →
  PathManager.calculatePathLength_loop p1 rest len
  = len + (proj (List.last rest p1) - proj p1) * unit_length.
Proof.
  induction rest as [|p2 rest IH]; intros p1 len H1 Hall Hasc.
  - simpl. ring.
  - apply Forall_cons in Hall as [H2 Hall]. destruct Hasc as [H12 Hasc].
    rewrite last_cons_default. simpl.
    rewrite IH by done.
    pose proof (distance_on_line _ _ _ _ H2 H1) as Hd.
    unfold PathManager.distanceToPoint in Hd. rewrite Hd.
    rewrite Rabs_right by lra. ring.
Qed.

Lemma line_progress_mono t0 tn s s' :
  s <= s' → line_progress t0 tn s <= line_progress t0 tn s'.
Proof.
  intros Hs. unfold line_progress.
  destruct (decide (t0 < tn)) as [Hlt|]; [|lra].
  apply Rmult_le_compat_r; [left; apply Rinv_0_lt_compat; lra|].
  unfold clamp, Rmax, Rmin. repeat destruct (Rle_dec _ _); lra.
Qed.

Lemma findNearestPointOnPath_on_line pm pathId path p0 rest :
  PathManager.getPath pm pathId = Some path →
  AudioPath.points path = p0 :: rest →
  on_line p0 → Forall on_line rest → ascending p0 rest →
  ∃ r,
    PathManager.findNearestPointOnPath pm q pathId now
    = PathManager.Return (Some r)
    ∧ PathManager.Nearest.progress r
      = line_progress (proj p0) (proj (List.last rest p0)) (proj q).
Proof.
  intros Hget Hpts H0 Hall Hasc.
  unfold PathManager.findNearestPointOnPath, PathManager.getPath in *.
  rewrite Hget, Hpts. eexists. split; [done|]. simpl.
  unfold PathManager.calculatePathLength. rewrite Hpts.
  rewrite (calculatePathLength_loop_line rest p0 0 H0 Hall Hasc).
  set (t0 := proj p0). set (tn := proj (List.last rest p0)).
  assert (H0n : t0 <= tn) by by apply ascending_last.
  pose proof unit_length_pos as Hn.
  set (total := 0 + (tn - t0) * unit_length).
  destruct (scan_loop_inv total rest p0
              (PathManager.mkScan p0 (PathManager.distanceToPoint q p0) 0 0)
              t0 H0 Hall Hasc) as (_ & _ & Hprog & _).
  { unfold t0; lra. }
  { unfold scan_inv; simpl; fold t0.
    assert (Hc : clamp t0 t0 (proj q) = t0)
      by (unfold clamp, Rmax, Rmin; repeat destruct (Rle_dec _ _); lra).
    rewrite Hc. split; [exact H0|]. split; [done|].
    split; [destruct (decide _); [unfold Rdiv; ring|done]|ring]. }
  fold tn in Hprog. rewrite Hprog. unfold line_progress.
  assert (Hrange : t0 <= clamp t0 tn (proj q) <= tn)
    by (unfold clamp, Rmax, Rmin; repeat destruct (Rle_dec _ _); lra).
  destruct (decide (t0 < tn)) as [Hlt|Hge].
  - rewrite decide_True by (unfold total; nra).
    replace ((clamp t0 tn (proj q) - t0) * unit_length / total)
      with ((clamp t0 tn (proj q) - t0) / (tn - t0))
      by (unfold total; field; lra).
    set (u := (clamp t0 tn (proj q) - t0) / (tn - t0)).
    assert (Hu : u * (tn - t0) = clamp t0 tn (proj q) - t0)
      by (unfold u; field; lra).
    assert (0 <= u <= 1) by nra.
    unfold JS.max, JS.min. repeat case_decide; lra.
  - rewrite decide_False by (unfold total; nra).
    unfold JS.max, JS.min. repeat case_decide; lra.
Qed.

(** *** Two queries that project to the same point of the line *)

Variable q' : Point.t.
Variable now' : R.
Hypothesis same_projection : proj q = proj q'.

Local Abbreviation scan_rel := (scan_rel ox oy dx dy q q').

Lemma scan_segment_rel total t1 t2 p1 p2 st st' :
  at_param t1 p1 → at_param t2 p2 → scan_rel st st' →
  scan_rel (PathManager.scan_segment q total now p1 p2 st)
    (PathManager.scan_segment q' total now' p1 p2 st').
Proof.
  intros H1 H2 ((t & Hat & Hat') & Hmin & Hmin' & Hprog & Hacc).
  pose proof (closest_on_line_any q t1 t2 p1 p2 now H1 H2) as Hc.
  pose proof (closest_on_line_any q' t1 t2 p1 p2 now' H1 H2) as Hc'.
  rewrite <- same_projection in Hc'.
  pose proof (distance_to_line_lt q _ _ _ _ Hc Hat) as Hlt.
  pose proof (distance_to_line_lt q' _ _ _ _ Hc' Hat') as Hlt'.
  rewrite <- same_projection in Hlt'.
  unfold PathManager.scan_segment.
  rewrite (distance_on_line _ _ _ _ H1 Hc), (distance_on_line _ _ _ _ H1 Hc').
  rewrite Hmin, Hmin', Hacc.
  set (closest := PathManager.closestPointOnLineSegment q p1 p2 now) in *.
  set (closest' := PathManager.closestPointOnLineSegment q' p1 p2 now') in *.
  destruct (decide (PathManager.distanceToPoint q closest
                    < PathManager.distanceToPoint q
                        (PathManager.nearestPoint st))) as [Hd|Hd];
    destruct (decide (PathManager.distanceToPoint q' closest'
                      < PathManager.distanceToPoint q'
                          (PathManager.nearestPoint st'))) as [Hd'|Hd'];
    try (exfalso; tauto).
  - unfold scan_rel; simpl. split; [eauto|]. repeat split; reflexivity.
  - unfold scan_rel; simpl. split; [eauto|]. rewrite ?Hprog, ?Hacc.
    repeat split; first [reflexivity | assumption].
Qed.

Lemma scan_loop_rel total rest : ∀ p1 st st',
  on_line p1 → Forall on_line rest → scan_rel st st' →
  scan_rel (PathManager.scan_loop q total now p1 rest st)
    (PathManager.scan_loop q' total now' p1 rest st').
Proof.
  induction rest as [|p2 rest IH]; intros p1 st st' H1 Hall Hrel; [done|].
  apply Forall_cons in Hall as [H2 Hall]. simpl.
  apply IH; [done|done|]. by eapply scan_segment_rel.
Qed.

Lemma findNearestPointOnPath_same_projection pm pathId path p0 rest :
  PathManager.getPath pm pathId = Some path →
  AudioPath.points path = p0 :: rest →
  on_line p0 → Forall on_line rest →
  ∃ r r',
    PathManager.findNearestPointOnPath pm q pathId now
    = PathManager.Return (Some r)
    ∧ PathManager.findNearestPointOnPath pm q' pathId now'
      = PathManager.Return (Some r')
    ∧ PathManager.Nearest.progress r = PathManager.Nearest.progress r'.
Proof.
  intros Hget Hpts H0 Hall.
  unfold PathManager.findNearestPointOnPath, PathManager.getPath in *.
  rewrite Hget, Hpts. eexists _, _. split; [done|]. split; [done|]. simpl.
  destruct (scan_loop_rel (PathManager.calculatePathLength path) rest p0
              (PathManager.mkScan p0 (PathManager.distanceToPoint q p0) 0 0)
              (PathManager.mkScan p0 (PathManager.distanceToPoint q' p0) 0 0)
              H0 Hall) as (_ & _ & _ & Hprog & _).
  { unfold scan_rel; simpl. split; [eauto|]. done. }
  by rewrite Hprog.
Qed.
End Line.

(** *** The record/play scenario *)

Lemma proj_x_axis (p : Point.t) : proj 0 0 1 0 p = Point.x p.
Proof. unfold proj. field. Qed.

Lemma on_x_axis (p : Point.t) : Point.y p = 0 → on_line 0 0 1 0 p.
Proof.
  intros Hy. unfold on_line, at_param. rewrite proj_x_axis. lra.
Qed.

Lemma x_axis_direction : 0 < 1 * 1 + 0 * 0.
Proof. lra. Qed.

(** C7.  Record the path (0,0), (10,0), (20,0), end the recording and attach
    the audio.  Then [findNearestPointOnPath] returns progress 1 for the
    query (20,0), progress 0 for (0,0) and progress 1/2 for (10,0), whatever
    the store held before and whatever the clock read. *)
Theorem record_play_scenario_progress (pm : PathManager.t)
  (t0 t1 t2 date_now now : R) (payload : ArrayBuffer) :
  let '(pm1, pathId) :=
    PathManager.startRecording pm (Point.mk 0 0 0 None) t0 date_now in
  let pm2 := PathManager.addPoint pm1 pathId (Point.mk 10 0 0 None) t1 in
  let pm3 := PathManager.addPoint pm2 pathId (Point.mk 20 0 0 None) t2 in
  let pm4 := PathManager.endRecording pm3 pathId in
  let pm5 := PathManager.attachAudioData pm4 pathId payload in
  ∃ r20 r0 r10,
    PathManager.findNearestPointOnPath pm5 (Point.mk 20 0 0 None) pathId now
    = PathManager.Return (Some r20)
    ∧ PathManager.Nearest.progress r20 = 1
    ∧ PathManager.findNearestPointOnPath pm5 (Point.mk 0 0 0 None) pathId now
      = PathManager.Return (Some r0)
    ∧ PathManager.Nearest.progress r0 = 0
    ∧ PathManager.findNearestPointOnPath pm5 (Point.mk 10 0 0 None) pathId now
      = PathManager.Return (Some r10)
    ∧ PathManager.Nearest.progress r10 = 1 / 2.
Proof.
  pose proof (startRecording_get pm (Point.mk 0 0 0 None) t0 date_now) as Hget.
  destruct (PathManager.startRecording pm (Point.mk 0 0 0 None) t0 date_now)
    as [pm1 pathId]. simpl in Hget.
  apply (addPoint_get _ _ (Point.mk 10 0 0 None) t1) in Hget.
  apply (addPoint_get _ _ (Point.mk 20 0 0 None) t2) in Hget.
  change (PathManager.getPath
            (PathManager.addPoint
               (PathManager.addPoint pm1 pathId (Point.mk 10 0 0 None) t1)
               pathId (Point.mk 20 0 0 None) t2) pathId)
    with (PathManager.getPath
            (PathManager.endRecording
               (PathManager.addPoint
                  (PathManager.addPoint pm1 pathId (Point.mk 10 0 0 None) t1)
                  pathId (Point.mk 20 0 0 None) t2) pathId) pathId) in Hget.
  apply (attachAudioData_get _ _ payload) in Hget.
  cbv zeta.
  set (pm5 := PathManager.attachAudioData _ _ _) in *.
  assert (Hquery : ∀ q, ∃ r,
    PathManager.findNearestPointOnPath pm5 q pathId now
    = PathManager.Return (Some r)
    ∧ PathManager.Nearest.progress r = line_progress 0 20 (Point.x q)).
  { intros q.
    destruct (findNearestPointOnPath_on_line 0 0 1 0 x_axis_direction q now
                pm5 pathId _
                (PathManager.stamp (Point.mk 0 0 0 None) t0)
                [PathManager.stamp (Point.mk 10 0 0 None) t1;
                 PathManager.stamp (Point.mk 20 0 0 None) t2] Hget)
      as (r & Hr & Hprog).
    - reflexivity.
    - by apply on_x_axis.
    - repeat constructor; by apply on_x_axis.
    - simpl. rewrite !proj_x_axis. simpl. lra.
    - exists r. split; [done|]. rewrite Hprog.
      simpl. by rewrite !proj_x_axis. }
  destruct (Hquery (Point.mk 20 0 0 None)) as (r20 & H20 & P20).
  destruct (Hquery (Point.mk 0 0 0 None)) as (r0 & H0 & P0).
  destruct (Hquery (Point.mk 10 0 0 None)) as (r10 & H10 & P10).
  exists r20, r0, r10.
  rewrite P20, P0, P10. simpl.
  assert (Hval : ∀ s, 0 <= s <= 20 → line_progress 0 20 s = s / 20).
  { intros s Hs. unfold line_progress, clamp, Rmax, Rmin.
    rewrite decide_True by lra.
    repeat destruct (Rle_dec _ _); try lra;
      (replace s with 20 by lra); lra. }
  rewrite !Hval by lra.
  repeat split; try done; lra.
Qed.

(** *** Monotonicity of progress *)

Section StraightPath.
Variables ox oy dx dy : R.
Hypothesis direction : 0 < dx * dx + dy * dy.

Lemma ascending_of_indices (rest : list Point.t) : ∀ p0,
  (∀ i j pi pj, (i <= j)%nat →
     (p0 :: rest) !! i = Some pi → (p0 :: rest) !! j = Some pj →
     proj ox oy dx dy pi <= proj ox oy dx dy pj) →
  ascending ox oy dx dy p0 rest.
Proof.
  induction rest as [|p1 rest IH]; intros p0 Hmono; simpl; [done|].
  split.
  - apply (Hmono 0%nat 1%nat); [lia|done|done].
  - apply IH. intros i j pi pj Hij Hi Hj.
    apply (Hmono (S i) (S j)); [lia|done|done].
Qed.

Lemma progress_monotone_along_line (pm : PathManager.t) (pathId : string)
  (path : AudioPath.t) (q q' : Point.t) (now now' : R) :
  PathManager.getPath pm pathId = Some path →
  AudioPath.points path ≠ [] →
  (∀ p, p ∈ AudioPath.points path → on_line ox oy dx dy p) →
  (∀ i j pi pj, (i <= j)%nat →
     AudioPath.points path !! i = Some pi →
     AudioPath.points path !! j = Some pj →
     proj ox oy dx dy pi <= proj ox oy dx dy pj) →
  proj ox oy dx dy q <= proj ox oy dx dy q' →
  ∃ r r',
    PathManager.findNearestPointOnPath pm q pathId now
    = PathManager.Return (Some r)
    ∧ PathManager.findNearestPointOnPath pm q' pathId now'
      = PathManager.Return (Some r')
    ∧ PathManager.Nearest.progress r <= PathManager.Nearest.progress r'.
Proof.
  intros Hget Hne Hline Hmono Hq.
  destruct (AudioPath.points path) as [|p0 rest] eqn:Hpts; [done|].
  assert (H0 : on_line ox oy dx dy p0)
    by (apply Hline, list_elem_of_here).
  assert (Hall : Forall (on_line ox oy dx dy) rest).
  { apply Forall_forall. intros p Hp. by apply Hline, list_elem_of_further. }
  assert (Hasc : ascending ox oy dx dy p0 rest)
    by by apply ascending_of_indices.
  destruct (findNearestPointOnPath_on_line ox oy dx dy direction q now
              pm pathId path p0 rest Hget Hpts H0 Hall Hasc)
    as (r & Hr & Hprog).
  destruct (findNearestPointOnPath_on_line ox oy dx dy direction q' now'
              pm pathId path p0 rest Hget Hpts H0 Hall Hasc)
    as (r' & Hr' & Hprog').
  exists r, r'. split; [done|]. split; [done|].
  rewrite Hprog, Hprog'. by apply line_progress_mono.
Qed.

Lemma progress_constant_across_line (pm : PathManager.t) (pathId : string)
  (path : AudioPath.t) (q q' : Point.t) (now now' : R) :
  PathManager.getPath pm pathId = Some path →
  AudioPath.points path ≠ [] →
  (∀ p, p ∈ AudioPath.points path → on_line ox oy dx dy p) →
  proj ox oy dx dy q = proj ox oy dx dy q' →
  ∃ r r',
    PathManager.findNearestPointOnPath pm q pathId now
    = PathManager.Return (Some r)
    ∧ PathManager.findNearestPointOnPath pm q' pathId now'
      = PathManager.Return (Some r')
    ∧ PathManager.Nearest.progress r <= PathManager.Nearest.progress r'.
Proof.
  intros Hget Hne Hline Hq.
  destruct (AudioPath.points path) as [|p0 rest] eqn:Hpts; [done|].
  assert (H0 : on_line ox oy dx dy p0)
    by (apply Hline, list_elem_of_here).
  assert (Hall : Forall (on_line ox oy dx dy) rest).
  { apply Forall_forall. intros p Hp. by apply Hline, list_elem_of_further. }
  destruct (findNearestPointOnPath_same_projection ox oy dx dy direction
              q now q' now' Hq pm pathId path p0 rest Hget Hpts H0 Hall)
    as (r & r' & Hr & Hr' & Hprog).
  exists r, r'. split; [done|]. split; [done|]. lra.
Qed.

Lemma on_line_intro (t : R) (p : Point.t) :
  at_param ox oy dx dy t p → on_line ox oy dx dy p.
Proof.
  intros Hat. unfold on_line. by rewrite (at_param_proj _ _ _ _ direction t p).
Qed.

End StraightPath.



(** ** Progress in double precision *)

(** On the path of the record/play scenario no operation rounds, and the
    doubles give the progress that the real numbers give: 1, 0 and 1/2. *)
Lemma record_play_scenario_in_doubles :
  (Double.Nearest.progress
     <$> Double.findNearestPointOnPath (Double.Point.mk 20 0) scenario_stroke)
  = Some 1%float
  ∧ (Double.Nearest.progress
       <$> Double.findNearestPointOnPath (Double.Point.mk 0 0) scenario_stroke)
    = Some 0%float
  ∧ (Double.Nearest.progress
       <$> Double.findNearestPointOnPath (Double.Point.mk 10 0) scenario_stroke)
    = Some 0.5%float.
Proof. vm_compute. repeat split. Qed.


(** ** The store under the coordinator *)

Lemma getPath_startRecording (pm : PathManager.t) (point : Point.t)
  (now date_now : R) (pathId : string) :
  pathId ≠ (PathManager.startRecording pm point now date_now).2 →
  PathManager.getPath (PathManager.startRecording pm point now date_now).1
    pathId
  = PathManager.getPath pm pathId.
Proof.
  unfold PathManager.getPath. simpl. intros Hne.
  by apply JsMap_get_set_ne.
Qed.

Lemma getPath_addPoint_ne (pm : PathManager.t) (target pathId : string)
  (point : Point.t) (now : R) :
  pathId ≠ target →
  PathManager.getPath (PathManager.addPoint pm target point now) pathId
  = PathManager.getPath pm pathId.
Proof.
  unfold PathManager.getPath, PathManager.addPoint. intros Hne.
  destruct (JsMap.get (PathManager.paths pm) target); [|done].
  simpl. by apply JsMap_get_set_ne.
Qed.

Lemma getPath_attachAudioData_ne (pm : PathManager.t) (target pathId : string)
  (payload : ArrayBuffer) :
  pathId ≠ target →
  PathManager.getPath (PathManager.attachAudioData pm target payload) pathId
  = PathManager.getPath pm pathId.
Proof.
  unfold PathManager.getPath, PathManager.attachAudioData. intros Hne.
  destruct (JsMap.get (PathManager.paths pm) target); [|done].
  simpl. by apply JsMap_get_set_ne.
Qed.

Lemma getPath_addPoint_None (pm : PathManager.t) (target : string)
  (point : Point.t) (now : R) :
  PathManager.getPath pm target = None →
  PathManager.getPath (PathManager.addPoint pm target point now) target = None.
Proof.
  unfold PathManager.getPath, PathManager.addPoint. intros H.
  by rewrite H.
Qed.

Lemma activePaths_addPoint (pm : PathManager.t) (target : string)
  (point : Point.t) (now : R) :
  PathManager.activePaths (PathManager.addPoint pm target point now)
  = PathManager.activePaths pm.
Proof. unfold PathManager.addPoint. by destruct (JsMap.get _ _). Qed.

Lemma activePaths_attachAudioData (pm : PathManager.t) (target : string)
  (payload : ArrayBuffer) :
  PathManager.activePaths (PathManager.attachAudioData pm target payload)
  = PathManager.activePaths pm.
Proof. unfold PathManager.attachAudioData. by destruct (JsMap.get _ _). Qed.

(** What [addPoint] does to the audio and to the points of any path. *)
Lemma addPoint_path (pm : PathManager.t) (target pathId : string)
  (point : Point.t) (now : R) (path' : AudioPath.t) :
  PathManager.getPath (PathManager.addPoint pm target point now) pathId
  = Some path' →
  ∃ path, PathManager.getPath pm pathId = Some path
          ∧ AudioPath.audioData path' = AudioPath.audioData path
          ∧ (AudioPath.points path ≠ [] → AudioPath.points path' ≠ []).
Proof.
  destruct (decide (pathId = target)) as [->|Hne].
  - destruct (PathManager.getPath pm target) as [path|] eqn:Hget.
    + rewrite (addPoint_get _ _ _ _ _ Hget). intros [= <-].
      exists path. split; [done|]. split; [done|]. simpl.
      intros _ Hnil. by apply app_eq_nil in Hnil as [_ ?].
    + rewrite getPath_addPoint_None by done. discriminate.
  - rewrite getPath_addPoint_ne by done. intros Hget. by exists path'.
Qed.

(** What [attachAudioData] does: the target gets audio, nothing else
    changes. *)
Lemma attachAudioData_path (pm : PathManager.t) (target pathId : string)
  (payload : ArrayBuffer) (path' : AudioPath.t) :
  PathManager.getPath (PathManager.attachAudioData pm target payload) pathId
  = Some path' →
  ∃ path, PathManager.getPath pm pathId = Some path
          ∧ AudioPath.points path' = AudioPath.points path
          ∧ (pathId ≠ target →
             AudioPath.audioData path' = AudioPath.audioData path).
Proof.
  destruct (decide (pathId = target)) as [->|Hne].
  - destruct (PathManager.getPath pm target) as [path|] eqn:Hget.
    + rewrite (attachAudioData_get _ _ _ _ Hget). intros [= <-].
      exists path. split; [done|]. split; [done|]. done.
    + unfold PathManager.getPath, PathManager.attachAudioData in *.
      rewrite Hget, Hget. discriminate.
  - rewrite getPath_attachAudioData_ne by done. intros Hget. by exists path'.
Qed.

Lemma truthy_Some (o : option string) (s : string) :
  MelodiaApp.truthy o = Some s → o = Some s ∧ s ≠ "".
Proof.
  destruct o as [[|c s']|]; simpl; intros H; try discriminate.
  inversion H; subst. done.
Qed.

Lemma truthy_path_id (n : N) :
  MelodiaApp.truthy (Some (PathManager.path_id n))
  = Some (PathManager.path_id n).
Proof. reflexivity. Qed.

(** [handlePathPlayback] and [handlePlaybackMove] leave the store, the
    recording target and the ready flag alone. *)
Lemma handlePathPlayback_frame (app : MelodiaApp.t) (pathId : string)
  (clickPoint : Point.t) (env : Env.t) :
  let app' := MelodiaApp.handlePathPlayback app pathId clickPoint env in
  MelodiaApp.pathManager app' = MelodiaApp.pathManager app
  ∧ MelodiaApp.currentRecordingPath app' = MelodiaApp.currentRecordingPath app
  ∧ MelodiaApp.isAppReady app' = MelodiaApp.isAppReady app
  ∧ MelodiaApp.movementThreshold app' = MelodiaApp.movementThreshold app.
Proof.
  unfold MelodiaApp.handlePathPlayback.
  destruct (PathManager.getPath _ _) as [path|]; [|done].
  destruct (AudioPath.audioData path) as [audio|]; [|done].
  destruct (PathManager.findNearestPointOnPath _ _ _ _) as [[r|]|]; try done.
  destruct (negb (AudioEngine.isReady _)).
  - destruct (AudioEngine.requestMicrophonePermission _ _) as [engine []];
      done.
  - done.
Qed.

Lemma handlePlaybackMove_frame (app : MelodiaApp.t) (currentPoint : Point.t)
  (env : Env.t) :
  let app' := MelodiaApp.handlePlaybackMove app currentPoint env in
  MelodiaApp.pathManager app' = MelodiaApp.pathManager app
  ∧ MelodiaApp.currentRecordingPath app' = MelodiaApp.currentRecordingPath app
  ∧ MelodiaApp.isAppReady app' = MelodiaApp.isAppReady app
  ∧ MelodiaApp.movementThreshold app' = MelodiaApp.movementThreshold app.
Proof.
  unfold MelodiaApp.handlePlaybackMove.
  destruct (MelodiaApp.truthy _) as [active|]; [|done].
  destruct (MelodiaApp.lastPlaybackPoint app) as [last|]; [|done].
  destruct (PathManager.getPath _ _) as [path|]; [|done].
  destruct (AudioPath.audioData path) as [audio|]; [|done].
  destruct (negb (MelodiaApp.isMoving app) && bool_decide _); simpl.
  - destruct (decide _); [done|].
    destruct (PathManager.findNearestPointOnPath _ _ _ _) as [[r|]|];
      try done.
    by destruct (decide _).
  - destruct (negb (MelodiaApp.isMoving app)); [done|].
    destruct (decide _); [done|].
    destruct (PathManager.findNearestPointOnPath _ _ _ _) as [[r|]|];
      try done.
    by destruct (decide _).
Qed.

Lemma store_inv_new : store_inv PathManager.new None.
Proof.
  split; [apply ids_bounded_new|]. by repeat split.
Qed.

Lemma store_inv_startRecording pm recording point now date_now :
  store_inv pm recording →
  store_inv (PathManager.startRecording pm point now date_now).1
    (Some (PathManager.startRecording pm point now date_now).2).
Proof.
  intros (Hids & Hpts & Hact & Hcur).
  pose proof (startRecording_get pm point now date_now) as Hnew.
  pose proof (getPath_startRecording pm point now date_now) as Hother.
  pose proof (ids_bounded_startRecording pm point now date_now Hids) as Hids'.
  assert (Hactive :
    PathManager.activePaths (PathManager.startRecording pm point now date_now).1
    = {[ (PathManager.startRecording pm point now date_now).2 ]}
      ∪ PathManager.activePaths pm) by reflexivity.
  destruct (PathManager.startRecording pm point now date_now) as [pm1 newId].
  simpl in Hnew, Hother, Hids', Hactive |- *.
  split; [done|].
  split; [|split].
  - intros pathId path.
    destruct (decide (pathId = newId)) as [->|Hne].
    + rewrite Hnew. by intros [= <-].
    + rewrite Hother by done. apply Hpts.
  - intros pathId path Hin.
    destruct (decide (pathId = newId)) as [Heq|Hne].
    + rewrite Heq, Hnew. by intros [= <-].
    + rewrite Hother by done. apply Hact.
      rewrite Hactive in Hin.
      apply elem_of_union in Hin as [Hin%elem_of_singleton|Hin]; done.
  - intros pathId path [= <-]. rewrite Hnew. by intros [= <-].
Qed.

Lemma store_inv_addPoint pm recording target point now :
  store_inv pm recording →
  store_inv (PathManager.addPoint pm target point now) recording.
Proof.
  intros (Hids & Hpts & Hact & Hcur).
  split; [by apply ids_bounded_addPoint|].
  split; [|split].
  - intros pathId path' (path & Hget & _ & Hne)%addPoint_path.
    apply Hne. by eapply Hpts.
  - intros pathId path' Hin (path & Hget & Haudio & _)%addPoint_path.
    rewrite Haudio. rewrite activePaths_addPoint in Hin. by eapply Hact.
  - intros pathId path' Hrec (path & Hget & Haudio & _)%addPoint_path.
    rewrite Haudio. by eapply Hcur.
Qed.

(** The end of a recording: the attachment, when there is one, is undone as
    a breach of the invariant by the [endRecording] that follows it. *)
Lemma store_inv_finish pm recording target (payload : option ArrayBuffer) :
  store_inv pm recording →
  store_inv
    (PathManager.endRecording
       (match payload with
        | Some buffer => PathManager.attachAudioData pm target buffer
        | None => pm
        end) target)
    None.
Proof.
  intros (Hids & Hpts & Hact & Hcur).
  split; [|split; [|split]].
  - destruct payload; [by apply ids_bounded_attachAudioData|done].
  - intros pathId path'. unfold PathManager.endRecording, PathManager.getPath.
    simpl. destruct payload as [buffer|]; [|apply Hpts].
    intros (path & Hget & Hsame & _)%attachAudioData_path.
    rewrite Hsame. by eapply Hpts.
  - intros pathId path'.
    unfold PathManager.endRecording, PathManager.getPath. simpl.
    intros [Hin Hne]%elem_of_difference.
    assert (pathId ≠ target) by (by rewrite elem_of_singleton in Hne).
    destruct payload as [buffer|]; [|by apply Hact].
    rewrite activePaths_attachAudioData in Hin.
    intros (path & Hget & _ & Haudio)%attachAudioData_path.
    rewrite Haudio by done. by eapply Hact.
  - done.
Qed.

Lemma app_inv_init (audioContext_ok : bool) :
  app_inv (MelodiaApp.init audioContext_ok).
Proof. split; [done|apply store_inv_new]. Qed.

Lemma app_inv_frame (app app' : MelodiaApp.t) :
  MelodiaApp.pathManager app' = MelodiaApp.pathManager app
  ∧ MelodiaApp.currentRecordingPath app' = MelodiaApp.currentRecordingPath app
  ∧ MelodiaApp.isAppReady app' = MelodiaApp.isAppReady app
  ∧ MelodiaApp.movementThreshold app' = MelodiaApp.movementThreshold app →
  app_inv app → app_inv app'.
Proof. unfold app_inv. by intros (-> & -> & -> & ->). Qed.

Lemma app_inv_step (app : MelodiaApp.t) (a : MelodiaApp.action) :
  app_inv app → app_inv (MelodiaApp.step app a).
Proof.
  intros Hinv. pose proof Hinv as [[Hready Hthreshold] Hstore].
  destruct a as [event env|event env|event env|]; simpl.
  - unfold MelodiaApp.handleInputStart. rewrite Hready. simpl.
    destruct (MelodiaApp.truthy _) as [existing|].
    + eapply app_inv_frame; [apply handlePathPlayback_frame|done].
    + pose proof (store_inv_startRecording _ _ (InputEvent.point event)
                    (Env.performance_now env) (Env.date_now env) Hstore)
        as Hstore'.
      split; [done|]. exact Hstore'.
  - unfold MelodiaApp.handleInputMove. rewrite Hready. simpl.
    destruct (MelodiaApp.truthy (MelodiaApp.activePlaybackPath app))
      as [active|];
      destruct (MelodiaApp.truthy (MelodiaApp.currentRecordingPath app))
        as [recording|]; try done.
    + split; [done|]. by apply store_inv_addPoint.
    + eapply app_inv_frame; [apply handlePlaybackMove_frame|done].
    + split; [done|]. by apply store_inv_addPoint.
  - unfold MelodiaApp.handleInputEnd. rewrite Hready. simpl.
    assert (Hfinish : ∀ recording,
      app_inv
        (MelodiaApp.set_currentRecordingPath
           (MelodiaApp.set_pathManager
              (MelodiaApp.handleInputEnd_attach app recording event env)
              (PathManager.endRecording
                 (MelodiaApp.pathManager
                    (MelodiaApp.handleInputEnd_attach app recording event env))
                 recording))
           None)).
    { intros recording. unfold MelodiaApp.handleInputEnd_attach.
      destruct (AudioEngine.stopRecording _ _) as [engine payload].
      split; [done|]. simpl.
      apply (store_inv_finish _ (MelodiaApp.currentRecordingPath app)).
      by apply store_inv_addPoint. }
    destruct (MelodiaApp.truthy (MelodiaApp.activePlaybackPath app))
      as [active|];
      destruct (MelodiaApp.truthy (MelodiaApp.currentRecordingPath app))
        as [recording|]; try done.
  - split; [done|]. simpl. split; [apply ids_bounded_new|].
    by repeat split.
Qed.

Lemma reachable_inv (app : MelodiaApp.t) :
  MelodiaApp.reachable app → app_inv app.
Proof.
  intros (ok & actions & ->). unfold MelodiaApp.run.
  generalize (app_inv_init ok). generalize (MelodiaApp.init ok).
  induction actions as [|a actions IH]; intros app Hinv; simpl; [done|].
  apply IH. by apply app_inv_step.
Qed.

(** ** Audio and the active set *)

Lemma pressed_is_recording :
  MelodiaApp.currentRecordingPath pressed = Some "path-1"
  ∧ AudioEngine.mediaRecorder (MelodiaApp.audioEngine pressed)
    = AudioEngine.Recording.
Proof. split; reflexivity. Qed.

(** C2 as stated fails inside [handleInputEnd]: the audio is attached while
    the path is still in the active set, and [endRecording] comes after.
    The store between the two calls has an active path with audio. *)
Lemma audio_attached_while_active :
  let attached :=
    MelodiaApp.handleInputEnd_attach pressed "path-1" (click_event false)
      (click_env (Some [])) in
  MelodiaApp.handleInputEnd pressed (click_event false) (click_env (Some []))
  = MelodiaApp.set_currentRecordingPath
      (MelodiaApp.set_pathManager attached
         (PathManager.endRecording (MelodiaApp.pathManager attached) "path-1"))
      None
  ∧ ¬ active_without_audio (MelodiaApp.pathManager attached).
Proof.
  split; [reflexivity|].
  intros Hclaim.
  assert (Hget : ∃ path audio,
    PathManager.getPath
      (MelodiaApp.pathManager
         (MelodiaApp.handleInputEnd_attach pressed "path-1" (click_event false)
            (click_env (Some [])))) "path-1" = Some path
    ∧ AudioPath.audioData path = Some audio).
  { eexists _, _. split.
    - unfold MelodiaApp.handleInputEnd_attach. simpl.
      apply attachAudioData_get, addPoint_get. reflexivity.
    - reflexivity. }
  destruct Hget as (path & audio & Hget & Haudio).
  specialize (Hclaim "path-1" path).
  rewrite Haudio in Hclaim. discriminate Hclaim; [|exact Hget].
  unfold MelodiaApp.handleInputEnd_attach. simpl.
  apply elem_of_union_l, elem_of_singleton. reflexivity.
Qed.

(** A handler never replaces the audio of a path. *)
Lemma step_keeps_audio (app : MelodiaApp.t) (a : MelodiaApp.action)
  (pathId : string) (path path' : AudioPath.t) (audio : AudioData.t) :
  app_inv app →
  PathManager.getPath (MelodiaApp.pathManager app) pathId = Some path →
  AudioPath.audioData path = Some audio →
  PathManager.getPath (MelodiaApp.pathManager (MelodiaApp.step app a)) pathId
  = Some path' →
  AudioPath.audioData path' = Some audio.
Proof.
  intros [[Hready _] (Hids & _ & _ & Hcur)] Hget Haudio.
  assert (Hsame : ∀ app',
    MelodiaApp.pathManager app' = MelodiaApp.pathManager app →
    PathManager.getPath (MelodiaApp.pathManager app') pathId = Some path' →
    AudioPath.audioData path' = Some audio).
  { intros app' ->. rewrite Hget. by intros [= <-]. }
  destruct a as [event env|event env|event env|]; simpl.
  - unfold MelodiaApp.handleInputStart. rewrite Hready.
    change (negb true) with false. cbv iota.
    destruct (MelodiaApp.truthy _) as [existing|].
    + apply Hsame, handlePathPlayback_frame.
    + pose proof (getPath_startRecording (MelodiaApp.pathManager app)
                    (InputEvent.point event) (Env.performance_now env)
                    (Env.date_now env) pathId) as Hother.
      destruct (PathManager.startRecording _ _ _ _) as [pm newId] eqn:Hstart.
      simpl in Hother |- *. rewrite Hother; [by rewrite Hget; intros [= <-]|].
      destruct (Hids pathId) as (k & -> & Hk);
        [by eapply JsMap_get_Some_key|].
      inversion Hstart. intros Heq%path_id_inj. lia.
  - unfold MelodiaApp.handleInputMove. rewrite Hready.
    change (negb true) with false. cbv iota.
    assert (Hadd : ∀ recording,
      PathManager.getPath
        (PathManager.addPoint (MelodiaApp.pathManager app) recording
           (InputEvent.point event) (Env.performance_now env)) pathId
      = Some path' →
      AudioPath.audioData path' = Some audio).
    { intros recording (path0 & Hget0 & Hsame0 & _)%addPoint_path.
      rewrite Hget in Hget0. inversion Hget0; subst. by rewrite Hsame0. }
    destruct (MelodiaApp.truthy (MelodiaApp.activePlaybackPath app))
      as [active|];
      destruct (MelodiaApp.truthy (MelodiaApp.currentRecordingPath app))
        as [recording|]; simpl; try apply Hadd.
    + apply Hsame, handlePlaybackMove_frame.
    + by apply Hsame.
  - unfold MelodiaApp.handleInputEnd. rewrite Hready.
    change (negb true) with false. cbv iota.
    assert (Hfinish : ∀ recording,
      MelodiaApp.currentRecordingPath app = Some recording →
      PathManager.getPath
        (PathManager.endRecording
           (MelodiaApp.pathManager
              (MelodiaApp.handleInputEnd_attach app recording event env))
           recording) pathId
      = Some path' →
      AudioPath.audioData path' = Some audio).
    { intros recording Hrec. unfold MelodiaApp.handleInputEnd_attach.
      destruct (AudioEngine.stopRecording _ _) as [engine payload]. simpl.
      unfold PathManager.endRecording, PathManager.getPath. simpl.
      assert (Hne : pathId ≠ recording).
      { intros ->. specialize (Hcur _ _ Hrec Hget). congruence. }
      destruct payload as [buffer|].
      - intros (path1 & (path0 & Hget0 & Hsame0 & _)%addPoint_path & _
                & Hsame1)%attachAudioData_path.
        rewrite Hget in Hget0. inversion Hget0; subst.
        by rewrite Hsame1, Hsame0.
      - intros (path0 & Hget0 & Hsame0 & _)%addPoint_path.
        rewrite Hget in Hget0. inversion Hget0; subst. by rewrite Hsame0. }
    destruct (MelodiaApp.truthy (MelodiaApp.activePlaybackPath app))
      as [active|];
      destruct (MelodiaApp.truthy (MelodiaApp.currentRecordingPath app))
        as [recording|] eqn:Hrec; simpl;
      try (apply Hfinish; by apply truthy_Some in Hrec as [? _]).
    + by apply Hsame.
    + by apply Hsame.
  - discriminate.
Qed.

(** C2, amended.  Take each handler as one step.  In every state the
    coordinator reaches, no path of the active set has audio; and a path
    that has audio keeps exactly that audio through every further step, for
    as long as it is in the store. *)
Theorem audio_attached_once_between_handlers (audioContext_ok : bool)
  (actions : list MelodiaApp.action) :
  let app := MelodiaApp.run (MelodiaApp.init audioContext_ok) actions in
  active_without_audio (MelodiaApp.pathManager app)
  ∧ ∀ a pathId path path' audio,
      PathManager.getPath (MelodiaApp.pathManager app) pathId = Some path →
      AudioPath.audioData path = Some audio →
      PathManager.getPath (MelodiaApp.pathManager (MelodiaApp.step app a))
        pathId = Some path' →
      AudioPath.audioData path' = Some audio.
Proof.
  intros app.
  assert (Hinv : app_inv app) by (apply reachable_inv; by eexists _, _).
  split.
  - destruct Hinv as [_ (_ & _ & Hact & _)]. exact Hact.
  - intros a pathId path path' audio. by apply step_keeps_audio.
Qed.

Lemma audio_attached_once_between_handlers_witness :
  let app :=
    MelodiaApp.run (MelodiaApp.init true)
      [MelodiaApp.Start (click_event true) (click_env None);
       MelodiaApp.End_ (click_event false) (click_env (Some []))] in
  active_without_audio (MelodiaApp.pathManager app)
  ∧ ∃ path audio,
      PathManager.getPath (MelodiaApp.pathManager app) "path-1" = Some path
      ∧ AudioPath.audioData path = Some audio
      ∧ ∀ path',
          PathManager.getPath
            (MelodiaApp.pathManager
               (MelodiaApp.step app
                  (MelodiaApp.Move (click_event false) (click_env None))))
            "path-1" = Some path' →
          AudioPath.audioData path' = Some audio.
Proof.
  destruct (audio_attached_once_between_handlers true
              [MelodiaApp.Start (click_event true) (click_env None);
               MelodiaApp.End_ (click_event false) (click_env (Some []))])
    as [Hactive Hkeep].
  split; [exact Hactive|].
  eexists _, _. split; [|split].
  - reflexivity.
  - reflexivity.
  - intros path'. eapply Hkeep; reflexivity.
Defined.

(** ** The microphone, once granted

    A path gets audio only from a recorder that ran, and a recorder runs
    only once the microphone is granted; the grant is never taken back. *)

Lemma engine_step_refl (ae : AudioEngine.t) : engine_step ae ae.
Proof. split; auto. Qed.

Lemma engine_step_trans (ae1 ae2 ae3 : AudioEngine.t) :
  engine_step ae1 ae2 → engine_step ae2 ae3 → engine_step ae1 ae3.
Proof.
  intros [Hg12 Hr12] [Hg23 Hr23]. split; [auto|].
  intros H3. destruct (Hr23 H3) as [H2|?]; [|auto].
  destruct (Hr12 H2) as [?|?]; auto.
Qed.

Lemma engine_step_log (ae : AudioEngine.t) (c : AudioEngine.call) :
  engine_step ae (AudioEngine.log ae c).
Proof. split; auto. Qed.

Lemma engine_step_requestMicrophonePermission (ae : AudioEngine.t) (ok : bool) :
  engine_step ae (AudioEngine.requestMicrophonePermission ae ok).1.
Proof.
  unfold AudioEngine.requestMicrophonePermission.
  destruct (_ && _); [apply engine_step_refl|].
  destruct ok; [|apply engine_step_refl].
  split; simpl; [done|auto].
Qed.

Lemma requestMicrophonePermission_granted (ae : AudioEngine.t) (ok : bool) :
  granted ae → (AudioEngine.requestMicrophonePermission ae ok).2 = true.
Proof.
  intros [Hp Hs]. unfold AudioEngine.requestMicrophonePermission.
  by rewrite Hp, Hs.
Qed.

Lemma engine_step_startRecording (ae : AudioEngine.t) (ok : bool) :
  engine_step ae (AudioEngine.startRecording ae ok).1.
Proof.
  unfold AudioEngine.startRecording.
  destruct (AudioEngine.permissionGranted ae) eqn:Hp;
    destruct (AudioEngine.stream ae) eqn:Hs; simpl;
    try apply engine_step_refl.
  destruct ok; [|apply engine_step_refl].
  split; simpl; [done|]. intros _. right. by split.
Qed.

Lemma engine_step_stopRecording (ae : AudioEngine.t)
  (recorded : option ArrayBuffer) :
  engine_step ae (AudioEngine.stopRecording ae recorded).1
  ∧ (is_Some (AudioEngine.stopRecording ae recorded).2 →
     AudioEngine.mediaRecorder ae = AudioEngine.Recording).
Proof.
  unfold AudioEngine.stopRecording.
  destruct (AudioEngine.mediaRecorder ae) eqn:Hr; simpl.
  - split; [apply engine_step_refl|]. by intros [? ?].
  - split; [apply engine_step_refl|]. by intros [? ?].
  - split; [|done]. split; simpl; [done|discriminate].
Qed.

Lemma handlePathPlayback_engine (app : MelodiaApp.t) (pathId : string)
  (clickPoint : Point.t) (env : Env.t) :
  engine_step (MelodiaApp.audioEngine app)
    (MelodiaApp.audioEngine
       (MelodiaApp.handlePathPlayback app pathId clickPoint env)).
Proof.
  unfold MelodiaApp.handlePathPlayback.
  destruct (PathManager.getPath _ _) as [path|];
    [|apply engine_step_refl].
  destruct (AudioPath.audioData path) as [audio|];
    [|apply engine_step_refl].
  destruct (PathManager.findNearestPointOnPath _ _ _ _) as [[r|]|];
    try apply engine_step_refl.
  destruct (negb (AudioEngine.isReady _)).
  - pose proof (engine_step_requestMicrophonePermission
                  (MelodiaApp.audioEngine app) (Env.getUserMedia_ok env))
      as Hstep.
    destruct (AudioEngine.requestMicrophonePermission _ _) as [engine []];
      simpl in *; [|done].
    eapply engine_step_trans; [exact Hstep|apply engine_step_log].
  - simpl. apply engine_step_log.
Qed.

Lemma handlePlaybackMove_engine (app : MelodiaApp.t) (currentPoint : Point.t)
  (env : Env.t) :
  engine_step (MelodiaApp.audioEngine app)
    (MelodiaApp.audioEngine
       (MelodiaApp.handlePlaybackMove app currentPoint env)).
Proof.
  unfold MelodiaApp.handlePlaybackMove.
  destruct (MelodiaApp.truthy _) as [active|]; [|apply engine_step_refl].
  destruct (MelodiaApp.lastPlaybackPoint app) as [last|];
    [|apply engine_step_refl].
  destruct (PathManager.getPath _ _) as [path|]; [|apply engine_step_refl].
  destruct (AudioPath.audioData path) as [audio|]; [|apply engine_step_refl].
  destruct (negb (MelodiaApp.isMoving app) && bool_decide _); simpl.
  - destruct (decide _); [apply engine_step_refl|].
    destruct (PathManager.findNearestPointOnPath _ _ _ _) as [[r|]|];
      try apply engine_step_refl.
    destruct (decide _); simpl;
      [apply engine_step_log|apply engine_step_refl].
  - destruct (negb (MelodiaApp.isMoving app)); [apply engine_step_refl|].
    destruct (decide _); [apply engine_step_refl|].
    destruct (PathManager.findNearestPointOnPath _ _ _ _) as [[r|]|];
      try apply engine_step_refl.
    destruct (decide _); simpl;
      [apply engine_step_log|apply engine_step_refl].
Qed.

Lemma engine_inv_same_store (app app' : MelodiaApp.t) :
  MelodiaApp.pathManager app' = MelodiaApp.pathManager app →
  engine_step (MelodiaApp.audioEngine app) (MelodiaApp.audioEngine app') →
  engine_inv app → engine_inv app'.
Proof.
  intros Hpm [Hg Hr] [Hrec Haudio]. split.
  - intros H. destruct (Hr H); auto.
  - rewrite Hpm. intros pathId path audio Hget Ha. eauto.
Qed.

Lemma engine_inv_step (app : MelodiaApp.t) (a : MelodiaApp.action) :
  engine_inv app → engine_inv (MelodiaApp.step app a).
Proof.
  intros Hinv. pose proof Hinv as [Hrec Haudio].
  destruct a as [event env|event env|event env|]; simpl.
  - unfold MelodiaApp.handleInputStart.
    destruct (negb (MelodiaApp.isAppReady app)); [done|].
    destruct (MelodiaApp.truthy _) as [existing|].
    + eapply engine_inv_same_store; [|apply handlePathPlayback_engine|done].
      apply handlePathPlayback_frame.
    + set (engine1 :=
             if negb (AudioEngine.isReady (MelodiaApp.audioEngine app))
             then (AudioEngine.requestMicrophonePermission
                     (MelodiaApp.audioEngine app)
                     (Env.getUserMedia_ok env)).1
             else MelodiaApp.audioEngine app).
      set (engine2 :=
             if AudioEngine.isReady engine1
             then (AudioEngine.startRecording engine1
                     (Env.mediaRecorder_ok env)).1
             else engine1).
      assert (Hstep : engine_step (MelodiaApp.audioEngine app) engine2).
      { apply (engine_step_trans _ engine1).
        - unfold engine1. destruct (negb _);
            [apply engine_step_requestMicrophonePermission
            |apply engine_step_refl].
        - unfold engine2. destruct (AudioEngine.isReady engine1);
            [apply engine_step_startRecording|apply engine_step_refl]. }
      pose proof (startRecording_get (MelodiaApp.pathManager app)
                    (InputEvent.point event) (Env.performance_now env)
                    (Env.date_now env)) as Hnew.
      pose proof (getPath_startRecording (MelodiaApp.pathManager app)
                    (InputEvent.point event) (Env.performance_now env)
                    (Env.date_now env)) as Hother.
      destruct (PathManager.startRecording _ _ _ _) as [pm newId].
      simpl in Hnew, Hother |- *. destruct Hstep as [Hg Hr]. split; simpl.
      * intros H. destruct (Hr H); auto.
      * intros pathId path audio.
        destruct (decide (pathId = newId)) as [->|Hne].
        -- rewrite Hnew. by intros [= <-].
        -- rewrite Hother by done. intros Hget Ha. eauto.
  - unfold MelodiaApp.handleInputMove.
    destruct (negb (MelodiaApp.isAppReady app)); [done|].
    assert (Hadd : ∀ recording,
      engine_inv
        (MelodiaApp.set_pathManager app
           (PathManager.addPoint (MelodiaApp.pathManager app) recording
              (InputEvent.point event) (Env.performance_now env)))).
    { intros recording. split; [exact Hrec|]. simpl.
      intros pathId path' audio (path & Hget & Hsame & _)%addPoint_path Ha.
      rewrite Hsame in Ha. eauto. }
    destruct (MelodiaApp.truthy (MelodiaApp.activePlaybackPath app))
      as [active|];
      destruct (MelodiaApp.truthy (MelodiaApp.currentRecordingPath app))
        as [recording|]; try done.
    eapply engine_inv_same_store; [|apply handlePlaybackMove_engine|done].
    apply handlePlaybackMove_frame.
  - unfold MelodiaApp.handleInputEnd.
    destruct (negb (MelodiaApp.isAppReady app)); [done|].
    assert (Hfinish : ∀ recording,
      engine_inv
        (MelodiaApp.set_currentRecordingPath
           (MelodiaApp.set_pathManager
              (MelodiaApp.handleInputEnd_attach app recording event env)
              (PathManager.endRecording
                 (MelodiaApp.pathManager
                    (MelodiaApp.handleInputEnd_attach app recording event env))
                 recording))
           None)).
    { intros recording. unfold MelodiaApp.handleInputEnd_attach.
      destruct (engine_step_stopRecording (MelodiaApp.audioEngine app)
                  (Env.recorded env)) as [[Hg Hr] Hpayload].
      destruct (AudioEngine.stopRecording _ _) as [engine payload].
      simpl in Hg, Hr, Hpayload |- *. split; simpl.
      - intros H. destruct (Hr H); auto.
      - unfold PathManager.endRecording, PathManager.getPath. simpl.
        intros pathId path' audio. destruct payload as [buffer|].
        + intros _ _. apply Hg, Hrec, Hpayload. by eexists.
        + intros (path & Hget & Hsame & _)%addPoint_path Ha.
          rewrite Hsame in Ha. eauto. }
    destruct (MelodiaApp.truthy (MelodiaApp.activePlaybackPath app))
      as [active|];
      destruct (MelodiaApp.truthy (MelodiaApp.currentRecordingPath app))
        as [recording|]; done.
  - split; [exact Hrec|]. discriminate.
Qed.

Lemma reachable_engine_inv (app : MelodiaApp.t) :
  MelodiaApp.reachable app → engine_inv app.
Proof.
  intros (ok & actions & ->). unfold MelodiaApp.run.
  assert (Hinit : engine_inv (MelodiaApp.init ok))
    by (split; discriminate).
  revert Hinit. generalize (MelodiaApp.init ok).
  induction actions as [|a actions IH]; intros app Hinv; simpl; [done|].
  apply IH. by apply engine_inv_step.
Qed.

(** ** Input start *)

Lemma findPathAtPoint_key (pm : PathManager.t) (point : Point.t)
  (tolerance : R) (pathId : string) :
  PathManager.findPathAtPoint pm point tolerance = Some pathId →
  pathId ∈ JsMap.keys (PathManager.paths pm).
Proof.
  unfold PathManager.findPathAtPoint, JsMap.keys.
  induction (PathManager.paths pm) as [|[k path] entries IH]; simpl;
    [done|].
  destruct (PathManager.isPointNearPath point path tolerance).
  - intros [= ->]. apply list_elem_of_here.
  - intros H. apply list_elem_of_further. auto.
Qed.

Lemma findNearestPointOnPath_returns (pm : PathManager.t) (point : Point.t)
  (pathId : string) (now : R) (path : AudioPath.t) :
  PathManager.getPath pm pathId = Some path →
  AudioPath.points path ≠ [] →
  ∃ nearest,
    PathManager.findNearestPointOnPath pm point pathId now
    = PathManager.Return (Some nearest).
Proof.
  unfold PathManager.getPath, PathManager.findNearestPointOnPath.
  intros -> Hne. destruct (AudioPath.points path); [done|]. by eexists.
Qed.

Lemma playback_commands_log (ae : AudioEngine.t) (c : AudioEngine.call) :
  AudioEngine.is_playback_command c = true →
  AudioEngine.playback_commands (AudioEngine.log ae c)
  = AudioEngine.playback_commands ae ++ [c].
Proof.
  intros Hc. unfold AudioEngine.playback_commands, AudioEngine.log. simpl.
  rewrite filter_app. f_equal.
  rewrite filter_cons_True by done. done.
Qed.

Lemma requestMicrophonePermission_calls (ae : AudioEngine.t) (ok : bool) :
  AudioEngine.calls (AudioEngine.requestMicrophonePermission ae ok).1
  = AudioEngine.calls ae.
Proof.
  unfold AudioEngine.requestMicrophonePermission.
  destruct (_ && _); [done|]. by destruct ok.
Qed.

Lemma silent_click_state :
  PathManager.findPathAtPoint (MelodiaApp.pathManager silent_click)
    (Point.mk 0 0 0 None) 15 = Some "path-1"
  ∧ (∃ path,
       PathManager.getPath (MelodiaApp.pathManager silent_click) "path-1"
       = Some path
       ∧ AudioPath.audioData path = None)
  ∧ MelodiaApp.mode_of silent_click = MelodiaApp.Idle.
Proof.
  split; [|split; [eexists; split; reflexivity|reflexivity]].
  unfold PathManager.findPathAtPoint. simpl.
  unfold PathManager.isPointNearPath. simpl.
  unfold PathManager.updateBoundingBox, PathManager.createBoundingBox. simpl.
  decide_reals. simpl. decide_reals. simpl.
  unfold PathManager.distanceToLineSegment. simpl.
  decide_reals.
  replace ((0 - 0) * (0 - 0) + (0 - 0) * (0 - 0)) with 0 by lra.
  rewrite sqrt_0. decide_reals. reflexivity.
Qed.

(** C1 as stated fails where the hit path has no audio: the coordinator
    does not start a recording there, it does nothing.  After a click that
    was recorded without audio, a press on the same spot hits that path and
    leaves the coordinator idle, with no new path.  (An event that arrives
    before [init()] has finished is dropped as well.) *)
Lemma start_on_path_without_audio_does_nothing :
  MelodiaApp.handleInputStart MelodiaApp.constructed (click_event true)
    (click_env None) = MelodiaApp.constructed
  ∧ PathManager.findPathAtPoint (MelodiaApp.pathManager silent_click)
    (InputEvent.point (click_event true)) 15 = Some "path-1"
  ∧ (∃ path,
       PathManager.getPath (MelodiaApp.pathManager silent_click) "path-1"
       = Some path
       ∧ AudioPath.audioData path = None)
  ∧ MelodiaApp.handleInputStart silent_click (click_event true)
      (click_env None) = silent_click
  ∧ MelodiaApp.mode_of
      (MelodiaApp.handleInputStart silent_click (click_event true)
         (click_env None)) = MelodiaApp.Idle
  ∧ ¬ ∃ pathId,
        MelodiaApp.mode_of
          (MelodiaApp.handleInputStart silent_click (click_event true)
             (click_env None)) = MelodiaApp.Recording pathId.
Proof.
  destruct silent_click_state as (Hhit & Hpath & Hidle).
  assert (Hsame :
    MelodiaApp.handleInputStart silent_click (click_event true)
      (click_env None) = silent_click).
  { unfold MelodiaApp.handleInputStart.
    change (InputEvent.point (click_event true)) with (Point.mk 0 0 0 None).
    rewrite Hhit. reflexivity. }
  split; [reflexivity|].
  split; [exact Hhit|]. split; [exact Hpath|]. split; [exact Hsame|].
  rewrite Hsame, Hidle. split; [done|]. by intros [pathId ?].
Qed.

(** C1, amended.  In a state the coordinator has reached, on an input-start
    event:
    - no path hit: a new path is created by [startRecording] and becomes
      the recording target (Recording);
    - the hit path has audio: the hit path becomes the playback target,
      with one loop command issued at the position of the touch
      (Scrubbing; the coordinator was Idle);
    - the hit path has no audio: nothing changes. *)
Theorem input_start_transition (app : MelodiaApp.t) (event : InputEvent.t)
  (env : Env.t) :
  MelodiaApp.reachable app →
  let app' := MelodiaApp.handleInputStart app event env in
  match PathManager.findPathAtPoint (MelodiaApp.pathManager app)
          (InputEvent.point event) 15 with
  | None =>
      ∃ pathId,
        PathManager.startRecording (MelodiaApp.pathManager app)
          (InputEvent.point event) (Env.performance_now env) (Env.date_now env)
        = (MelodiaApp.pathManager app', pathId)
        ∧ MelodiaApp.currentRecordingPath app' = Some pathId
        ∧ MelodiaApp.mode_of app' = MelodiaApp.Recording pathId
  | Some hit =>
      ∃ path,
        PathManager.getPath (MelodiaApp.pathManager app) hit = Some path
        ∧ match AudioPath.audioData path with
          | None => app' = app
          | Some audio =>
              ∃ nearest,
                PathManager.findNearestPointOnPath (MelodiaApp.pathManager app)
                  (InputEvent.point event) hit (Env.performance_now env)
                = PathManager.Return (Some nearest)
                ∧ MelodiaApp.activePlaybackPath app' = Some hit
                ∧ (MelodiaApp.mode_of app = MelodiaApp.Idle →
                   MelodiaApp.mode_of app' = MelodiaApp.Scrubbing hit)
                ∧ AudioEngine.playback_commands (MelodiaApp.audioEngine app')
                  = AudioEngine.playback_commands (MelodiaApp.audioEngine app)
                    ++ [AudioEngine.CreateLoop (AudioData.buffer audio) hit
                          (PathManager.Nearest.progress nearest
                           * AudioData.duration audio) (2 / 10)]
                ∧ MelodiaApp.pathManager app' = MelodiaApp.pathManager app
          end
  end.
Proof.
  intros Hreach app'.
  pose proof (reachable_engine_inv _ Hreach) as [_ Hgranted].
  apply reachable_inv in Hreach as [[Hready _] (Hids & Hpts & _ & _)].
  subst app'. unfold MelodiaApp.handleInputStart. rewrite Hready.
  change (negb true) with false. cbv iota.
  destruct (PathManager.findPathAtPoint _ _ _) as [hit|] eqn:Hfind.
  - apply findPathAtPoint_key in Hfind as Hkey.
    destruct (JsMap_key_get _ _ Hkey) as [path Hget].
    destruct (Hids _ Hkey) as (k & -> & _).
    rewrite truthy_path_id.
    exists path. split; [exact Hget|].
    unfold MelodiaApp.handlePathPlayback.
    unfold PathManager.getPath. rewrite Hget.
    destruct (AudioPath.audioData path) as [audio|] eqn:Haudio; [|done].
    pose proof (Hgranted _ _ _ Hget Haudio) as Hgrant.
    destruct (findNearestPointOnPath_returns _ (InputEvent.point event) _
                (Env.performance_now env) _ Hget (Hpts _ _ Hget))
      as [nearest Hnearest].
    rewrite Hnearest. exists nearest. split; [done|].
    assert (Hengine : ∃ engine,
      (if negb (AudioEngine.isReady (MelodiaApp.audioEngine app))
       then AudioEngine.requestMicrophonePermission
              (MelodiaApp.audioEngine app) (Env.getUserMedia_ok env)
       else (MelodiaApp.audioEngine app, true)) = (engine, true)
      ∧ AudioEngine.calls engine
        = AudioEngine.calls (MelodiaApp.audioEngine app)).
    { destruct (AudioEngine.isReady (MelodiaApp.audioEngine app)) eqn:Hr;
        simpl.
      - by eexists.
      - apply (requestMicrophonePermission_granted _
                 (Env.getUserMedia_ok env)) in Hgrant.
        pose proof (requestMicrophonePermission_calls
                      (MelodiaApp.audioEngine app) (Env.getUserMedia_ok env))
          as Hcalls.
        destruct (AudioEngine.requestMicrophonePermission _ _)
          as [engine granted]. simpl in *. subst granted. by eexists. }
    destruct Hengine as (engine & -> & Hcalls). simpl.
    split; [done|]. split; [|split; [|done]].
    + unfold MelodiaApp.mode_of. simpl.
      destruct (MelodiaApp.truthy (MelodiaApp.activePlaybackPath app));
        destruct (MelodiaApp.truthy (MelodiaApp.currentRecordingPath app));
        done.
    + unfold AudioEngine.createLoop.
      rewrite playback_commands_log by done.
      unfold AudioEngine.playback_commands. by rewrite Hcalls.
  - simpl. eexists. split; [reflexivity|]. split; [reflexivity|].
    unfold MelodiaApp.mode_of. simpl.
    by destruct (MelodiaApp.truthy (MelodiaApp.activePlaybackPath app)).
Qed.

Lemma recorded_click_state :
  PathManager.findPathAtPoint (MelodiaApp.pathManager recorded_click)
    (Point.mk 0 0 0 None) 15 = Some "path-1"
  ∧ MelodiaApp.mode_of recorded_click = MelodiaApp.Idle
  ∧ AudioEngine.isReady (MelodiaApp.audioEngine recorded_click) = true.
Proof.
  split; [|split; reflexivity].
  unfold PathManager.findPathAtPoint. simpl.
  unfold PathManager.isPointNearPath. simpl.
  unfold PathManager.updateBoundingBox, PathManager.createBoundingBox. simpl.
  decide_reals. simpl. decide_reals. simpl.
  unfold PathManager.distanceToLineSegment. simpl.
  decide_reals.
  replace ((0 - 0) * (0 - 0) + (0 - 0) * (0 - 0)) with 0 by lra.
  rewrite sqrt_0. decide_reals. reflexivity.
Qed.

(** The unguarded division of [attachAudioData], reached through the
    coordinator: a press and a release on one spot within one tick of the
    clock store NaN as the speed of the path. *)
Lemma tap_speed_is_NaN :
  ∃ path audio,
    PathManager.getPath (MelodiaApp.pathManager recorded_click) "path-1"
    = Some path
    ∧ AudioPath.audioData path = Some audio
    ∧ AudioData.originalSpeed audio = JS.NaN.
Proof.
  eexists _, _. split; [reflexivity|]. split; [reflexivity|]. simpl.
  unfold PathManager.getRecordingDuration, PathManager.calculatePathLength.
  simpl.
  replace ((0 - 0) * (0 - 0) + (0 - 0) * (0 - 0)) with 0 by lra.
  rewrite sqrt_0. unfold JS.div. decide_reals. reflexivity.
Qed.

Lemma input_start_transition_witness :
  MelodiaApp.reachable recorded_click
  ∧ let app' :=
      MelodiaApp.handleInputStart recorded_click (click_event true)
        (click_env None) in
    ∃ nearest,
      PathManager.findNearestPointOnPath (MelodiaApp.pathManager recorded_click)
        (Point.mk 0 0 0 None) "path-1" 0
      = PathManager.Return (Some nearest)
      ∧ MelodiaApp.activePlaybackPath app' = Some "path-1"
      ∧ MelodiaApp.mode_of app' = MelodiaApp.Scrubbing "path-1".
Proof.
  assert (Hreach : MelodiaApp.reachable recorded_click)
    by (eexists true, _; reflexivity).
  split; [exact Hreach|].
  pose proof (input_start_transition recorded_click (click_event true)
                (click_env None) Hreach) as H.
  destruct recorded_click_state as (Hhit & Hidle & Hready).
  cbv zeta in H.
  change (InputEvent.point (click_event true)) with (Point.mk 0 0 0 None) in H.
  rewrite Hhit in H.
  destruct H as (path & Hget & H).
  assert (Haudio : ∃ audio, AudioPath.audioData path = Some audio).
  { revert Hget. unfold PathManager.getPath. simpl.
    intros [= <-]. by eexists. }
  destruct Haudio as [audio Haudio]. rewrite Haudio in H.
  destruct H as (nearest & Hnearest & Hactive & Hmode & _).
  exists nearest. split; [exact Hnearest|]. split; [exact Hactive|].
  exact (Hmode Hidle).
Defined.

(** ** Jitter suppression *)

(** A move within the threshold of the tracked point, before the gesture
    has started to move, changes nothing at all. *)
Lemma handleInputMove_jitter (app : MelodiaApp.t) (event : InputEvent.t)
  (env : Env.t) (target : string) (tracked : Point.t) :
  MelodiaApp.mode_of app = MelodiaApp.Scrubbing target →
  MelodiaApp.isMoving app = false →
  MelodiaApp.lastPlaybackPoint app = Some tracked →
  distance_moved (InputEvent.point event) tracked
  <= MelodiaApp.movementThreshold app →
  MelodiaApp.handleInputMove app event env = app.
Proof.
  unfold MelodiaApp.mode_of, MelodiaApp.handleInputMove, distance_moved.
  intros Hmode Hstill Htracked Hnear.
  destruct (negb (MelodiaApp.isAppReady app)); [done|].
  destruct (MelodiaApp.truthy (MelodiaApp.activePlaybackPath app))
    as [active|] eqn:Hactive;
    destruct (MelodiaApp.truthy (MelodiaApp.currentRecordingPath app))
      as [recording|]; try discriminate.
  unfold MelodiaApp.handlePlaybackMove. rewrite Hactive, Htracked.
  destruct (PathManager.getPath _ _) as [path|]; [|done].
  destruct (AudioPath.audioData path) as [audio|]; [|done].
  rewrite Hstill.
  rewrite bool_decide_eq_false_2 by lra.
  simpl. by rewrite Hstill.
Qed.

Lemma moves_run_jitter (moves : list (InputEvent.t * Env.t))
  (app : MelodiaApp.t) (target : string) (tracked : Point.t) :
  MelodiaApp.mode_of app = MelodiaApp.Scrubbing target →
  MelodiaApp.isMoving app = false →
  MelodiaApp.lastPlaybackPoint app = Some tracked →
  Forall (fun move =>
            distance_moved (InputEvent.point move.1) tracked
            <= MelodiaApp.movementThreshold app) moves →
  moves_run app moves = app.
Proof.
  intros Hmode Hstill Htracked.
  induction moves as [|[event env] moves IH]; intros Hall; [done|].
  apply Forall_cons in Hall as [Hnear Hall]. simpl.
  rewrite (handleInputMove_jitter app event env target tracked) by done.
  by apply IH.
Qed.

(** From Idle, an input start that ends in Scrubbing went all the way
    through [handlePathPlayback]. *)
Lemma start_enters_scrubbing (app : MelodiaApp.t) (event : InputEvent.t)
  (env : Env.t) (target : string) :
  app_inv app →
  MelodiaApp.mode_of app = MelodiaApp.Idle →
  MelodiaApp.mode_of (MelodiaApp.handleInputStart app event env)
  = MelodiaApp.Scrubbing target →
  ∃ path audio nearest,
    PathManager.getPath (MelodiaApp.pathManager app) target = Some path
    ∧ AudioPath.audioData path = Some audio
    ∧ PathManager.findNearestPointOnPath (MelodiaApp.pathManager app)
        (InputEvent.point event) target (Env.performance_now env)
      = PathManager.Return (Some nearest)
    ∧ MelodiaApp.lastPlaybackPoint (MelodiaApp.handleInputStart app event env)
      = Some (PathManager.Nearest.point nearest)
    ∧ MelodiaApp.isMoving (MelodiaApp.handleInputStart app event env) = false
    ∧ MelodiaApp.movementThreshold (MelodiaApp.handleInputStart app event env)
      = 5
    ∧ AudioEngine.playback_commands
        (MelodiaApp.audioEngine (MelodiaApp.handleInputStart app event env))
      = AudioEngine.playback_commands (MelodiaApp.audioEngine app)
        ++ [AudioEngine.CreateLoop (AudioData.buffer audio) target
              (PathManager.Nearest.progress nearest * AudioData.duration audio)
              (2 / 10)].
Proof.
  intros [[Hready Hthreshold] _] Hidle.
  unfold MelodiaApp.handleInputStart. rewrite Hready.
  change (negb true) with false. cbv iota.
  destruct (MelodiaApp.truthy (PathManager.findPathAtPoint _ _ _))
    as [existing|] eqn:Hfind.
  2:{ unfold MelodiaApp.mode_of. simpl.
      by destruct (MelodiaApp.truthy (MelodiaApp.activePlaybackPath app)). }
  apply truthy_Some in Hfind as [_ Hne].
  destruct existing as [|c existing]; [done|].
  unfold MelodiaApp.handlePathPlayback.
  destruct (PathManager.getPath _ _) as [path|] eqn:Hget;
    [|by rewrite Hidle].
  destruct (AudioPath.audioData path) as [audio|] eqn:Haudio;
    [|by rewrite Hidle].
  destruct (PathManager.findNearestPointOnPath _ _ _ _) as [[nearest|]|]
    eqn:Hnearest; try by rewrite Hidle.
  pose proof (requestMicrophonePermission_calls (MelodiaApp.audioEngine app)
                (Env.getUserMedia_ok env)) as Hcalls.
  assert (Hsame : ∀ engine,
    MelodiaApp.mode_of (MelodiaApp.set_audioEngine app engine)
    = MelodiaApp.mode_of app) by done.
  destruct (negb (AudioEngine.isReady (MelodiaApp.audioEngine app)));
    [destruct (AudioEngine.requestMicrophonePermission _ _)
       as [engine []]|];
    simpl; try (rewrite Hsame, Hidle; discriminate);
    (unfold MelodiaApp.mode_of; simpl;
     destruct (MelodiaApp.truthy (MelodiaApp.currentRecordingPath app));
     [discriminate|];
     intros [= <-];
     exists path, audio, nearest;
     rewrite Hget, Hnearest;
     repeat (split; [done|]);
     unfold AudioEngine.createLoop;
     rewrite playback_commands_log by done;
     unfold AudioEngine.playback_commands; simpl in Hcalls;
     by rewrite ?Hcalls).
Qed.

(** What the coordinator does suppress.  Start a gesture from Idle on a
    path with audio, so that the coordinator enters Scrubbing and issues the
    initial loop.  The point it tracks from then on is the point of the path
    nearest to the press, not the point of the press.  If every following
    move event lies within the 5px threshold of that tracked point, the
    moves change nothing: the playback commands issued since the start of
    the gesture are the one initial [createLoop], and no
    [playAudioAtPosition] or further [createLoop] follows.  For a press on
    the path itself this is the suppression of jitter around the press. *)
Theorem jitter_suppression (app : MelodiaApp.t) (event : InputEvent.t)
  (env : Env.t) (target : string) (tracked : Point.t)
  (moves : list (InputEvent.t * Env.t)) :
  MelodiaApp.reachable app →
  MelodiaApp.mode_of app = MelodiaApp.Idle →
  let scrubbing := MelodiaApp.handleInputStart app event env in
  MelodiaApp.mode_of scrubbing = MelodiaApp.Scrubbing target →
  MelodiaApp.lastPlaybackPoint scrubbing = Some tracked →
  Forall (fun move => distance_moved (InputEvent.point move.1) tracked <= 5)
    moves →
  (∃ nearest,
     PathManager.findNearestPointOnPath (MelodiaApp.pathManager app)
       (InputEvent.point event) target (Env.performance_now env)
     = PathManager.Return (Some nearest)
     ∧ tracked = PathManager.Nearest.point nearest)
  ∧ moves_run scrubbing moves = scrubbing
  ∧ ∃ audioData position,
      AudioEngine.playback_commands
        (MelodiaApp.audioEngine (moves_run scrubbing moves))
      = AudioEngine.playback_commands (MelodiaApp.audioEngine app)
        ++ [AudioEngine.CreateLoop audioData target position (2 / 10)].
Proof.
  intros Hinv%reachable_inv Hidle scrubbing Hmode Htracked Hnear.
  destruct (start_enters_scrubbing app event env target Hinv Hidle Hmode)
    as (path & audio & nearest & _ & _ & Hnearest & Hlast & Hstill
        & Hthreshold & Hcommands).
  fold scrubbing in Hlast, Hstill, Hthreshold, Hcommands.
  assert (Hsame : moves_run scrubbing moves = scrubbing).
  { apply (moves_run_jitter moves scrubbing target tracked); try done.
    by rewrite Hthreshold. }
  split; [|split; [exact Hsame|rewrite Hsame; eauto]].
  exists nearest. split; [exact Hnearest|]. congruence.
Qed.

Lemma distance_moved_within (p tracked : Point.t) (d : R) :
  0 <= d →
  (Point.x p - Point.x tracked) * (Point.x p - Point.x tracked)
  + (Point.y p - Point.y tracked) * (Point.y p - Point.y tracked) <= d * d →
  distance_moved p tracked <= d.
Proof.
  intros Hd Hsq. unfold distance_moved.
  rewrite <- (sqrt_square d) by done.
  apply sqrt_le_1_alt. lra.
Qed.

(** Pressing on the recorded click: the coordinator scrubs, and tracks the
    origin. *)
Lemma recorded_click_press :
  let scrubbing :=
    MelodiaApp.handleInputStart recorded_click (click_event true)
      (click_env None) in
  MelodiaApp.mode_of scrubbing = MelodiaApp.Scrubbing "path-1"
  ∧ ∃ tracked,
      MelodiaApp.lastPlaybackPoint scrubbing = Some tracked
      ∧ Point.x tracked = 0 ∧ Point.y tracked = 0.
Proof.
  destruct recorded_click_state as (Hhit & _ & _).
  unfold MelodiaApp.handleInputStart.
  change (InputEvent.point (click_event true)) with (Point.mk 0 0 0 None).
  rewrite Hhit. split; [reflexivity|].
  eexists. split; [reflexivity|]. simpl.
  unfold PathManager.scan_segment, PathManager.closestPointOnLineSegment.
  simpl. decide_reals. simpl.
  unfold PathManager.distanceToPoint. simpl. decide_reals. done.
Qed.

Lemma jitter_suppression_witness :
  let scrubbing :=
    MelodiaApp.handleInputStart recorded_click (click_event true)
      (click_env None) in
  let moves :=
    [(InputEvent.mk MOUSE (Point.mk 3 0 0 None) false false 0,
      Env.mk 50 50 true true None);
     (InputEvent.mk MOUSE (Point.mk 0 4 0 None) false false 0,
      Env.mk 400 400 true true None)] in
  moves_run scrubbing moves = scrubbing
  ∧ ∃ audioData position,
      AudioEngine.playback_commands
        (MelodiaApp.audioEngine (moves_run scrubbing moves))
      = AudioEngine.playback_commands (MelodiaApp.audioEngine recorded_click)
        ++ [AudioEngine.CreateLoop audioData "path-1" position (2 / 10)].
Proof.
  destruct recorded_click_press as (Hmode & tracked & Htracked & Hx & Hy).
  destruct recorded_click_state as (_ & Hidle & _).
  apply (jitter_suppression recorded_click (click_event true) (click_env None)
           "path-1" tracked
           [(InputEvent.mk MOUSE (Point.mk 3 0 0 None) false false 0,
             Env.mk 50 50 true true None);
            (InputEvent.mk MOUSE (Point.mk 0 4 0 None) false false 0,
             Env.mk 400 400 true true None)]).
  - eexists true, _. reflexivity.
  - exact Hidle.
  - exact Hmode.
  - exact Htracked.
  - constructor; [|constructor; [|constructor]];
      apply distance_moved_within; simpl; rewrite ?Hx, ?Hy; lra.
Defined.

(** ** A press beside the path *)

Lemma long_stroke_store :
  ∃ speed,
    PathManager.paths (MelodiaApp.pathManager long_stroke)
    = [("path-1",
        AudioPath.mk "path-1"
          [Point.mk 0 0 0 None; Point.mk 100 0 10000 None]
          (Some (AudioData.mk [] webm 44100 10 0 speed))
          PathManager.getDefaultStyle (Rectangle.mk 0 0 100 0) 0)].
Proof.
  eexists. unfold long_stroke. simpl.
  unfold MelodiaApp.handleInputEnd_attach. simpl.
  unfold PathManager.attachAudioData, PathManager.addPoint. simpl.
  unfold PathManager.updateBoundingBox, PathManager.createBoundingBox. simpl.
  decide_reals. simpl.
  unfold PathManager.getRecordingDuration. simpl.
  replace (100 - 0) with 100 by lra.
  replace ((10000 - 0) / 1000) with 10 by lra.
  reflexivity.
Qed.

Lemma long_stroke_state :
  MelodiaApp.isAppReady long_stroke = true
  ∧ MelodiaApp.mode_of long_stroke = MelodiaApp.Idle
  ∧ AudioEngine.isReady (MelodiaApp.audioEngine long_stroke) = true
  ∧ MelodiaApp.isMoving long_stroke = false
  ∧ MelodiaApp.movementThreshold long_stroke = 5.
Proof. repeat split; reflexivity. Qed.

Lemma closest_on_long_stroke (x y t : R) (pressure : option R) (now : R) :
  0 <= x <= 100 →
  PathManager.closestPointOnLineSegment (Point.mk x y t pressure)
    (Point.mk 0 0 0 None) (Point.mk 100 0 10000 None) now
  = Point.mk x 0 now None.
Proof.
  intros Hx. unfold PathManager.closestPointOnLineSegment. simpl.
  decide_reals. f_equal; field.
Qed.

Lemma nearest_on_long_stroke (pm : PathManager.t) (path : AudioPath.t)
  (x y t : R) (pressure : option R) (now : R) :
  PathManager.getPath pm "path-1" = Some path →
  AudioPath.points path = [Point.mk 0 0 0 None; Point.mk 100 0 10000 None] →
  0 < x <= 100 →
  PathManager.findNearestPointOnPath pm (Point.mk x y t pressure) "path-1" now
  = PathManager.Return
      (Some (PathManager.Nearest.mk (Point.mk x 0 now None) (x / 100))).
Proof.
  intros Hget Hpoints Hx.
  unfold PathManager.findNearestPointOnPath, PathManager.getPath in *.
  rewrite Hget, Hpoints. simpl.
  unfold PathManager.calculatePathLength. rewrite Hpoints. simpl.
  unfold PathManager.scan_segment.
  rewrite closest_on_long_stroke by lra.
  unfold PathManager.distanceToPoint. simpl.
  rewrite decide_True by (apply sqrt_lt_1_alt; nra).
  simpl.
  replace (sqrt ((100 - 0) * (100 - 0) + (0 - 0) * (0 - 0))) with 100
    by (symmetry; replace ((100 - 0) * (100 - 0) + (0 - 0) * (0 - 0))
          with (100 * 100) by lra; apply sqrt_square; lra).
  replace (sqrt ((0 - 100) * (0 - 100) + (0 - 0) * (0 - 0))) with 100
    by (symmetry; replace ((0 - 100) * (0 - 100) + (0 - 0) * (0 - 0))
          with (100 * 100) by lra; apply sqrt_square; lra).
  replace (sqrt ((0 - x) * (0 - x) + (0 - 0) * (0 - 0))) with x
    by (symmetry; replace ((0 - x) * (0 - x) + (0 - 0) * (0 - 0))
          with (x * x) by lra; apply sqrt_square; lra).
  decide_reals.
  replace ((0 + x / 100 * 100) / (0 + 100)) with (x / 100) by lra.
  do 3 f_equal. unfold JS.max, JS.min.
  destruct (decide (x / 100 < 1)); decide_reals; lra.
Qed.

Lemma long_stroke_path :
  ∃ speed,
    PathManager.getPath (MelodiaApp.pathManager long_stroke) "path-1"
    = Some
        (AudioPath.mk "path-1"
           [Point.mk 0 0 0 None; Point.mk 100 0 10000 None]
           (Some (AudioData.mk [] webm 44100 10 0 speed))
           PathManager.getDefaultStyle (Rectangle.mk 0 0 100 0) 0).
Proof.
  destruct long_stroke_store as [speed Hstore]. exists speed.
  unfold PathManager.getPath. by rewrite Hstore.
Qed.

Lemma near_scrubbing_state :
  near_scrubbing
  = MelodiaApp.set_playbackIndicators
      (MelodiaApp.set_playingPaths
         (MelodiaApp.set_audioEngine
            (MelodiaApp.set_lastAudioPosition
               (MelodiaApp.set_isMoving
                  (MelodiaApp.set_lastPlaybackTime
                     (MelodiaApp.set_lastPlaybackPoint
                        (MelodiaApp.set_activePlaybackPath long_stroke
                           (Some "path-1"))
                        (Some (Point.mk 50 0 20000 None)))
                     20000)
                  false)
               (50 / 100 * 10))
            (AudioEngine.createLoop (MelodiaApp.audioEngine long_stroke) []
               "path-1" (50 / 100 * 10) (2 / 10)))
         ({[ "path-1" ]} ∪ MelodiaApp.playingPaths long_stroke))
      (<[ "path-1" := Point.mk 50 0 20000 None ]>
         (MelodiaApp.playbackIndicators long_stroke)).
Proof.
  destruct long_stroke_store as [speed Hstore].
  destruct long_stroke_state as (Hready & Hidle & Hengine & Hmoving & Hthr).
  unfold near_scrubbing, MelodiaApp.handleInputStart.
  rewrite Hready. simpl negb. cbv iota.
  unfold PathManager.findPathAtPoint. rewrite Hstore. simpl.
  unfold PathManager.isPointNearPath. simpl.
  decide_reals. simpl.
  unfold PathManager.distanceToLineSegment. simpl.
  decide_reals. sqrt_is 10. decide_reals. simpl.
  unfold MelodiaApp.handlePathPlayback.
  assert (Hget :
    PathManager.getPath (MelodiaApp.pathManager long_stroke) "path-1"
    = Some
        (AudioPath.mk "path-1"
           [Point.mk 0 0 0 None; Point.mk 100 0 10000 None]
           (Some (AudioData.mk [] webm 44100 10 0 speed))
           PathManager.getDefaultStyle (Rectangle.mk 0 0 100 0) 0))
    by (unfold PathManager.getPath; by rewrite Hstore).
  rewrite Hget. simpl AudioPath.audioData. cbv iota.
  simpl Env.performance_now.
  rewrite (nearest_on_long_stroke _ _ 50 10 0 None 20000 Hget) by (done || lra).
  rewrite Hengine. reflexivity.
Qed.

(** A move that goes one pixel along the path is played. *)
Lemma near_move_is_played :
  distance_moved (InputEvent.point near_move.1) (InputEvent.point near_press.1)
  <= 5
  ∧ ∃ audioData rate,
      AudioEngine.playback_commands
        (MelodiaApp.audioEngine (moves_run near_scrubbing [near_move]))
      = AudioEngine.playback_commands (MelodiaApp.audioEngine near_scrubbing)
        ++ [AudioEngine.PlayAudioAtPosition audioData "path-1" (51 / 10) rate].
Proof.
  split.
  { unfold distance_moved. simpl.
    replace ((51 - 50) * ((51 - 50) * 1) + (10 - 10) * ((10 - 10) * 1))
      with (1 * 1) by lra.
    rewrite sqrt_square; lra. }
  destruct long_stroke_path as [speed Hget].
  destruct long_stroke_state as (Hready & Hidle & Hengine & Hmoving & Hthr).
  assert (Hcurrent : MelodiaApp.currentRecordingPath long_stroke = None)
    by reflexivity.
  rewrite near_scrubbing_state.
  set (app := long_stroke) in *. clearbody app.
  unfold moves_run. simpl fold_left.
  unfold MelodiaApp.handleInputMove. simpl.
  rewrite Hready, Hcurrent. simpl.
  unfold MelodiaApp.handlePlaybackMove. simpl.
  rewrite Hget. simpl.
  assert (Hfar :
    sqrt ((51 - 50) * ((51 - 50) * 1) + (10 - 0) * ((10 - 0) * 1)) > 5).
  { apply Rlt_gt. rewrite <- (sqrt_square 5) by lra.
    apply sqrt_lt_1_alt. lra. }
  rewrite Hthr, (bool_decide_eq_true_2 _ Hfar). simpl.
  decide_reals.
  rewrite (nearest_on_long_stroke _ _ 51 10 0 None 20150 Hget) by (done || lra).
  simpl.
  replace (51 / 100 * 10 - 50 / 100 * 10) with (1 / 10) by lra.
  rewrite Rabs_pos_eq by lra. decide_reals. simpl.
  unfold AudioEngine.playAudioAtPosition.
  rewrite playback_commands_log by done.
  replace (51 / 100 * 10) with (51 / 10) by lra.
  eauto.
Qed.

(** A move that does not leave the place of the press counts as a
    movement. *)
Lemma still_move_counts_as_movement :
  MelodiaApp.isMoving near_scrubbing = false
  ∧ MelodiaApp.isMoving (moves_run near_scrubbing [still_move]) = true
  ∧ AudioEngine.calls
      (MelodiaApp.audioEngine (moves_run near_scrubbing [still_move]))
    = AudioEngine.calls (MelodiaApp.audioEngine near_scrubbing).
Proof.
  destruct long_stroke_path as [speed Hget].
  destruct long_stroke_state as (Hready & Hidle & Hengine & Hmoving & Hthr).
  assert (Hcurrent : MelodiaApp.currentRecordingPath long_stroke = None)
    by reflexivity.
  rewrite near_scrubbing_state.
  set (app := long_stroke) in *. clearbody app.
  split; [reflexivity|].
  unfold moves_run. simpl fold_left.
  unfold MelodiaApp.handleInputMove. simpl.
  rewrite Hready, Hcurrent. simpl.
  unfold MelodiaApp.handlePlaybackMove. simpl.
  rewrite Hget. simpl.
  assert (Hfar :
    sqrt ((50 - 50) * ((50 - 50) * 1) + (10 - 0) * ((10 - 0) * 1)) > 5).
  { apply Rlt_gt. rewrite <- (sqrt_square 5) by lra.
    apply sqrt_lt_1_alt. lra. }
  rewrite Hthr, (bool_decide_eq_true_2 _ Hfar). simpl.
  decide_reals.
  rewrite (nearest_on_long_stroke _ _ 50 10 0 None 20150 Hget) by (done || lra).
  simpl.
  replace (50 / 100 * 10 - 50 / 100 * 10) with 0 by lra.
  rewrite Rabs_R0. decide_reals. simpl. done.
Qed.

(** The numbers of the two moves in doubles.  On the stroke from (0, 0) to
    (100, 0) the press at (50, 10) is tracked at (50, 0) with progress 0.5,
    the move to (51, 10) is 1 pixel from the press and more than 5 from the
    tracked point, its progress is 0.51, and with ten seconds of audio its
    position, 5.1, is more than 0.05 from the position 5 of the loop. *)
Lemma near_move_in_doubles :
  Double.findNearestPointOnPath (Double.Point.mk 50 10) level_stroke
  = Some (Double.Nearest.mk (Double.Point.mk 50 0) 0.5)
  ∧ Double.findNearestPointOnPath (Double.Point.mk 51 10) level_stroke
    = Some (Double.Nearest.mk (Double.Point.mk 51 0) 0.51)
  ∧ Double.distanceToPoint (Double.Point.mk 51 10) (Double.Point.mk 50 10)
    = 1%float
  ∧ Double.gtb
      (Double.distanceToPoint (Double.Point.mk 51 10) (Double.Point.mk 50 0))
      5 = true
  ∧ (0.51 * 10 = 5.1)%float
  ∧ Double.gtb (PrimFloat.abs (0.51 * 10 - 0.5 * 10)) 0.05 = true.
Proof. vm_compute. repeat split. Qed.

Lemma long_stroke_reachable : MelodiaApp.reachable long_stroke.
Proof. by eexists true, _. Qed.

(** C9, at the input where the code departs from it.  The stroke from the
    origin to (100, 0) has ten seconds of audio.  A press at (50, 10) hits
    it, the tolerance being 15, and the coordinator scrubs, not yet moving.
    The point it tracks is not the press but (50, 0), the point of the path
    nearest to it, and [handlePlaybackMove] measures the first movement
    from there.  So a move event that stays at the very place of the press
    is 10 pixels away and switches the coordinator to moving; and a move to
    (51, 10), one pixel from the press, 150 milliseconds after it, sends
    [playAudioAtPosition] at 5.1 seconds: a playback command beyond the
    initial loop, for a move within the threshold of the start point. *)
Theorem jitter_beside_the_path_is_played :
  MelodiaApp.reachable long_stroke
  ∧ MelodiaApp.mode_of long_stroke = MelodiaApp.Idle
  ∧ MelodiaApp.mode_of near_scrubbing = MelodiaApp.Scrubbing "path-1"
  ∧ MelodiaApp.lastPlaybackPoint near_scrubbing
    = Some (Point.mk 50 0 20000 None)
  ∧ MelodiaApp.isMoving near_scrubbing = false
  ∧ MelodiaApp.isMoving (moves_run near_scrubbing [still_move]) = true
  ∧ distance_moved (InputEvent.point near_move.1)
      (InputEvent.point near_press.1) <= 5
  ∧ ∃ audioData rate,
      AudioEngine.playback_commands
        (MelodiaApp.audioEngine (moves_run near_scrubbing [near_move]))
      = AudioEngine.playback_commands (MelodiaApp.audioEngine near_scrubbing)
        ++ [AudioEngine.PlayAudioAtPosition audioData "path-1" (51 / 10) rate].
Proof.
  split; [exact long_stroke_reachable|].
  split; [reflexivity|].
  split; [by rewrite near_scrubbing_state|].
  split; [by rewrite near_scrubbing_state|].
  split; [apply still_move_counts_as_movement|].
  split; [apply still_move_counts_as_movement|].
  exact near_move_is_played.
Qed.

(** * More properties of the code *)

(** ** The geometry of the path queries *)

Lemma distanceToPoint_nonneg (p q : Point.t) :
  0 <= PathManager.distanceToPoint p q.
Proof. apply sqrt_pos. Qed.

(** ** The path queries in double precision *)

(** X1.  The hit test and the nearest-point query measure the same thing
    where the segment is not cut.  In the doubles of the source, for every
    query point and segment: when the segment is a point by the test of the
    code ([lenSq === 0]), or [param] is neither below 0 nor above 1,
    [distanceToLineSegment] returns the distance from the query point to
    the point that [closestPointOnLineSegment] returns. *)
Theorem distanceToLineSegment_is_distance_to_closest
  (point lineStart lineEnd : Double.Point.t) :
  (segment_lenSq lineStart lineEnd =? 0)%float = true
  ∨ ((segment_param point lineStart lineEnd <? 0)%float = false
     ∧ (1 <? segment_param point lineStart lineEnd)%float = false) →
  Double.distanceToLineSegment point lineStart lineEnd
  = Double.distanceToPoint point
      (Double.closestPointOnLineSegment point lineStart lineEnd).
Proof.
  unfold segment_param, segment_lenSq, Double.distanceToLineSegment,
    Double.closestPointOnLineSegment, Double.distanceToPoint, Double.gtb.
  cbv zeta.
  intros [Hzero|[Hlow Hhigh]].
  - rewrite Hzero. reflexivity.
  - destruct (_ =? 0)%float; [reflexivity|].
    rewrite Hlow, Hhigh. reflexivity.
Qed.

Lemma distanceToLineSegment_is_distance_to_closest_witness :
  Double.distanceToLineSegment (Double.Point.mk 100 60)
    (Double.Point.mk 58.7 95.6) (Double.Point.mk 216.6 5.8)
  = Double.distanceToPoint (Double.Point.mk 100 60)
      (Double.closestPointOnLineSegment (Double.Point.mk 100 60)
         (Double.Point.mk 58.7 95.6) (Double.Point.mk 216.6 5.8)).
Proof.
  apply distanceToLineSegment_is_distance_to_closest.
  right. vm_compute. split; reflexivity.
Defined.

(** Where [param] is above 1 the two part: [distanceToLineSegment] measures
    to [lineEnd] itself, [closestPointOnLineSegment] computes
    [lineStart + 1 * C], and the sum rounds.  For the query point
    (9.3, 49.2) and the segment from (40.6, 52) to (9.9, 47.4) the point
    returned has x = 9.899999999999999, and the two distances differ in
    their last digit. *)
Lemma distances_differ_at_a_cut_end :
  let point := Double.Point.mk 9.3 49.2 in
  let lineStart := Double.Point.mk 40.6 52 in
  let lineEnd := Double.Point.mk 9.9 47.4 in
  (1 <? segment_param point lineStart lineEnd)%float = true
  ∧ Double.closestPointOnLineSegment point lineStart lineEnd
    = Double.Point.mk 9.899999999999999 47.4
  ∧ Double.distanceToLineSegment point lineStart lineEnd
    = 1.8973665961010315%float
  ∧ Double.distanceToPoint point
      (Double.closestPointOnLineSegment point lineStart lineEnd)
    = 1.897366596101031%float.
Proof. vm_compute. repeat split. Qed.

(** One segment more: the scan takes the closest point of the segment when
    it is below [minDistance], and keeps what it has otherwise. *)
Lemma scan_segment_nearest (clickPoint : Double.Point.t) (totalLength : float)
  (p1 p2 : Double.Point.t) (cands : list Double.Point.t) (st : Double.Scan) :
  nearest_among clickPoint cands st →
  nearest_among clickPoint
    (cands ++ [Double.closestPointOnLineSegment clickPoint p1 p2])
    (Double.scan_segment clickPoint totalLength p1 p2 st).
Proof.
  intros (Hin & Hmin & Hall). unfold Double.scan_segment. cbv zeta.
  destruct (_ <? Double.minDistance st)%float eqn:Hlt; simpl.
  - split; [|split; [done|]].
    + apply elem_of_app. right. by apply list_elem_of_singleton.
    + intros c [Hc|Hc%list_elem_of_singleton]%elem_of_app.
      * apply (ltb_not_below _ (Double.minDistance st)); [by apply Hall|done].
      * subst c. apply ltb_irrefl.
  - split; [|split; [done|]].
    + apply elem_of_app. by left.
    + intros c [Hc|Hc%list_elem_of_singleton]%elem_of_app.
      * by apply Hall.
      * by subst c.
Qed.

Lemma scan_loop_nearest (clickPoint : Double.Point.t) (totalLength : float)
  (rest : list Double.Point.t) : ∀ p1 cands st,
  nearest_among clickPoint cands st →
  nearest_among clickPoint (cands ++ closest_points clickPoint p1 rest)
    (Double.scan_loop clickPoint totalLength p1 rest st).
Proof.
  induction rest as [|p2 rest IH]; intros p1 cands st Hst; simpl.
  - by rewrite app_nil_r.
  - rewrite (cons_middle _ cands), app_assoc.
    apply IH. by apply scan_segment_nearest.
Qed.

(** [Math.max(0, Math.min(1, v))] is neither below 0 nor above 1, whatever
    [v] is; for NaN it is NaN, which is below nothing and above nothing. *)
Lemma clamped_progress (v : float) :
  (Double.max 0 (Double.min 1 v) <? 0)%float = false
  ∧ (1 <? Double.max 0 (Double.min 1 v))%float = false.
Proof.
  assert (Hmin : (1 <? Double.min 1 v)%float = false).
  { unfold Double.min. destruct (_ || _); [reflexivity|].
    destruct (1 <? v)%float eqn:Hhigh; [reflexivity|].
    destruct (v <? 1)%float; [done|]. simpl. done. }
  revert Hmin. generalize (Double.min 1 v). intros m Hm.
  unfold Double.max. destruct (_ || _); [done|].
  destruct (0 <? m)%float eqn:Hpos.
  - split; [|done]. apply (ltb_not_below _ m); [apply ltb_irrefl|done].
  - destruct (m <? 0)%float; [done|]. simpl. done.
Qed.

(** X2.  In the doubles of the source, for a path with at least one point
    [findNearestPointOnPath] returns (no null, no exception).  The point it
    returns is the first point of the path or the point that
    [closestPointOnLineSegment] computes for one of the segments; none of
    these candidates is nearer to the query point, by [distanceToPoint] and
    the comparison of the code; and the progress is neither below 0 nor
    above 1.  The candidates are rounded: they need not lie on the
    polyline, and a point of the polyline can be nearer than all of them. *)
Theorem findNearestPointOnPath_is_nearest (clickPoint : Double.Point.t)
  (path : Double.AudioPath.t) :
  Double.AudioPath.points path ≠ [] →
  ∃ nearest,
    Double.findNearestPointOnPath clickPoint path = Some nearest
    ∧ Double.Nearest.point nearest
      ∈ candidates clickPoint (Double.AudioPath.points path)
    ∧ (∀ c, c ∈ candidates clickPoint (Double.AudioPath.points path) →
         (Double.distanceToPoint clickPoint c
          <? Double.distanceToPoint clickPoint
               (Double.Nearest.point nearest))%float
         = false)
    ∧ (Double.Nearest.progress nearest <? 0)%float = false
    ∧ (1 <? Double.Nearest.progress nearest)%float = false.
Proof.
  intros Hpoints. unfold Double.findNearestPointOnPath.
  destruct (Double.AudioPath.points path) as [|p0 rest] eqn:Hpts; [done|].
  eexists. split; [reflexivity|]. simpl.
  destruct (scan_loop_nearest clickPoint (Double.calculatePathLength path)
              rest p0 [p0]
              (Double.mkScan p0 (Double.distanceToPoint clickPoint p0) 0 0))
    as (Hin & Hmin & Hall).
  { split; [by apply list_elem_of_singleton|]. split; [done|].
    intros c Hc%list_elem_of_singleton. subst c. apply ltb_irrefl. }
  split; [done|]. split.
  - intros c Hc. rewrite <- Hmin. by apply Hall.
  - apply clamped_progress.
Qed.

(** On the stroke (13.73, 6.865), (43.06, 21.53), (48.232, 24.116) and for
    the query point (30, 40) the candidates are the first point, (40, 20)
    on the first segment and the end (43.06, 21.53) of the first segment
    for the second; (40, 20) is returned. *)
Lemma findNearestPointOnPath_is_nearest_witness :
  ∃ nearest,
    Double.findNearestPointOnPath (Double.Point.mk 30 40) rising_stroke
    = Some nearest
    ∧ Double.Nearest.point nearest
      ∈ candidates (Double.Point.mk 30 40)
          (Double.AudioPath.points rising_stroke)
    ∧ (∀ c, c ∈ candidates (Double.Point.mk 30 40)
                  (Double.AudioPath.points rising_stroke) →
         (Double.distanceToPoint (Double.Point.mk 30 40) c
          <? Double.distanceToPoint (Double.Point.mk 30 40)
               (Double.Nearest.point nearest))%float
         = false)
    ∧ (Double.Nearest.progress nearest <? 0)%float = false
    ∧ (1 <? Double.Nearest.progress nearest)%float = false.
Proof.
  apply (findNearestPointOnPath_is_nearest (Double.Point.mk 30 40)
           rising_stroke).
  discriminate.
Defined.

(** The loop over the segments stops at the first one within the
    tolerance. *)
Lemma nearSegment_loop_iff (point : Double.Point.t) (tolerance : float)
  (rest : list Double.Point.t) : ∀ p1,
  Double.nearSegment_loop point tolerance p1 rest = true
  ↔ ∃ s, s ∈ consecutive_from p1 rest
         ∧ (Double.distanceToLineSegment point s.1 s.2 <=? tolerance)%float
           = true.
Proof.
  induction rest as [|p2 rest IH]; intros p1; simpl.
  - split; [done|]. intros (s & Hs & _). by apply elem_of_nil in Hs.
  - destruct (_ <=? tolerance)%float eqn:Hnear.
    + split; [|done]. intros _. exists (p1, p2). split; [|done].
      apply elem_of_cons. by left.
    + rewrite IH. split.
      * intros (s & Hs & Hle). exists s. split; [|done].
        apply elem_of_cons. by right.
      * intros (s & [->|Hs]%elem_of_cons & Hle).
        -- simpl in Hle. congruence.
        -- by exists s.
Qed.

(** X8.  The hit test in the doubles of the source.  [isPointNearPath]
    accepts a point exactly when its quick rejection lets the point pass,
    that is the point is not outside the bounding box widened by the
    tolerance, and either some segment of the path is within the tolerance
    by [distanceToLineSegment], or the path is a single point and that
    point is within the tolerance.  The rejection is its own condition: the
    width and the height of the box are rounded, and a point within the
    tolerance of a segment can be refused by the box. *)
Theorem isPointNearPath_in_doubles (point : Double.Point.t)
  (path : Double.AudioPath.t) (tolerance : float) :
  Double.isPointNearPath point path tolerance = true
  ↔ box_refuses point (Double.AudioPath.boundingBox path) tolerance = false
    ∧ ((∃ s, s ∈ consecutive (Double.AudioPath.points path)
             ∧ (Double.distanceToLineSegment point s.1 s.2 <=? tolerance)%float
               = true)
       ∨ (∃ p, Double.AudioPath.points path = [p]
               ∧ (Double.distanceToPoint point p <=? tolerance)%float = true)).
Proof.
  unfold Double.isPointNearPath, box_refuses. cbv zeta.
  destruct (_ || _ || _ || _)%float.
  { split; [done|]. by intros [? _]. }
  destruct (Double.AudioPath.points path) as [|p0 rest]; simpl.
  - split; [done|]. intros [_ [(s & Hs & _)|(p & Hp & _)]]; [|done].
    by apply elem_of_nil in Hs.
  - destruct (Double.nearSegment_loop point tolerance p0 rest) eqn:Hloop.
    + split; [|done]. intros _. split; [done|]. left.
      by apply nearSegment_loop_iff.
    + assert (Hnone : ¬ ∃ s, s ∈ consecutive_from p0 rest
                ∧ (Double.distanceToLineSegment point s.1 s.2 <=? tolerance)%float
                  = true).
      { rewrite <- nearSegment_loop_iff. by rewrite Hloop. }
      destruct rest as [|p1 rest].
      * split.
        -- intros Hle. split; [done|]. right. by exists p0.
        -- intros [_ [Hs|(p & [= <-] & Hle)]]; [done|]. exact Hle.
      * split; [done|]. intros [_ [Hs|(p & Hp & _)]]; done.
Qed.

(** ** The hit test *)

(** X3.  [findPathAtPoint] returns the first path, in insertion order, that
    the hit test accepts, and null exactly when it accepts none. *)
Theorem findPathAtPoint_first_match (pm : PathManager.t) (q : Point.t)
  (tolerance : R) :
  match PathManager.findPathAtPoint pm q tolerance with
  | Some pathId =>
      ∃ before path after,
        PathManager.paths pm = before ++ (pathId, path) :: after
        ∧ PathManager.isPointNearPath q path tolerance = true
        ∧ Forall (fun entry =>
                    PathManager.isPointNearPath q entry.2 tolerance = false)
            before
  | None =>
      Forall (fun entry =>
                PathManager.isPointNearPath q entry.2 tolerance = false)
        (PathManager.paths pm)
  end.
Proof.
  unfold PathManager.findPathAtPoint.
  induction (PathManager.paths pm) as [|[k path] entries IH]; simpl.
  - constructor.
  - destruct (PathManager.isPointNearPath q path tolerance) eqn:Hnear.
    + exists [], path, entries. split; [done|]. split; [done|]. constructor.
    + destruct (PathManager.findPathAtPoint_loop entries q tolerance)
        as [pathId|].
      * destruct IH as (before & path' & after & -> & Hhit & Hmiss).
        exists ((k, path) :: before), path', after.
        split; [done|]. split; [done|]. by constructor.
      * by constructor.
Qed.

(** ** Length, duration and speed *)

Lemma calculatePathLength_loop_acc (rest : list Point.t) : ∀ prev len,
  PathManager.calculatePathLength_loop prev rest len
  = len + PathManager.calculatePathLength_loop prev rest 0.
Proof.
  induction rest as [|curr rest IH]; intros prev len; simpl; [lra|].
  rewrite IH. rewrite (IH curr (0 + _)). lra.
Qed.

Lemma distance_triangle (a b c : Point.t) :
  PathManager.distanceToPoint a c
  <= PathManager.distanceToPoint a b + PathManager.distanceToPoint b c.
Proof.
  pose proof (triangle (Point.x a) (Point.y a) (Point.x c) (Point.y c)
                (Point.x b) (Point.y b)) as H.
  unfold dist_euc, Rsqr in H. exact H.
Qed.

Lemma calculatePathLength_loop_chord (rest : list Point.t) : ∀ prev,
  PathManager.distanceToPoint (List.last rest prev) prev
  <= PathManager.calculatePathLength_loop prev rest 0.
Proof.
  induction rest as [|curr rest IH]; intros prev.
  - simpl. unfold PathManager.distanceToPoint.
    replace ((Point.x prev - Point.x prev) * (Point.x prev - Point.x prev)
             + (Point.y prev - Point.y prev) * (Point.y prev - Point.y prev))
      with 0 by ring.
    rewrite sqrt_0. lra.
  - rewrite last_cons_default. simpl.
    rewrite calculatePathLength_loop_acc.
    specialize (IH curr).
    pose proof (distance_triangle (List.last rest curr) curr prev) as Htri.
    unfold PathManager.distanceToPoint in *. lra.
Qed.

Lemma calculatePathLength_nonneg (path : AudioPath.t) :
  0 <= PathManager.calculatePathLength path.
Proof.
  unfold PathManager.calculatePathLength.
  destruct (AudioPath.points path) as [|p0 rest]; [lra|].
  pose proof (calculatePathLength_loop_chord rest p0).
  pose proof (distanceToPoint_nonneg (List.last rest p0) p0). lra.
Qed.

(** X5.  What [attachAudioData] stores as [originalSpeed], in full: the
    quotient of length and duration when the duration is not zero; positive
    infinity when the duration is zero and the path has length; NaN when both
    are zero.  It is never negative infinity. *)
Theorem originalSpeed_cases (pm : PathManager.t) (pathId : string)
  (payload : ArrayBuffer) (path : AudioPath.t) :
  PathManager.getPath pm pathId = Some path →
  ∃ path' audio,
    PathManager.getPath (PathManager.attachAudioData pm pathId payload) pathId
    = Some path'
    ∧ AudioPath.audioData path' = Some audio
    ∧ AudioData.originalSpeed audio
      = (if decide (PathManager.getRecordingDuration path = 0) then
           if decide (PathManager.calculatePathLength path = 0)
           then JS.NaN else JS.PosInfinity
         else JS.Fin (PathManager.calculatePathLength path
                      / PathManager.getRecordingDuration path)).
Proof.
  intros Hget. eexists _, _.
  split; [by apply attachAudioData_get|]. split; [done|]. simpl.
  unfold JS.div. pose proof (calculatePathLength_nonneg path).
  repeat case_decide; try done; lra.
Qed.

Lemma originalSpeed_cases_witness :
  ∃ path' audio,
    PathManager.getPath (PathManager.attachAudioData first_store "path-1" [])
      "path-1"
    = Some path'
    ∧ AudioPath.audioData path' = Some audio
    ∧ AudioData.originalSpeed audio
      = (if decide (PathManager.getRecordingDuration first_path = 0) then
           if decide (PathManager.calculatePathLength first_path = 0)
           then JS.NaN else JS.PosInfinity
         else JS.Fin (PathManager.calculatePathLength first_path
                      / PathManager.getRecordingDuration first_path)).
Proof.
  apply (originalSpeed_cases first_store "path-1" [] first_path). reflexivity.
Defined.

(** ** A touch on the first point *)

Lemma scan_loop_at_zero (q : Point.t) (total now : R) (rest : list Point.t) :
  ∀ p1 st,
  PathManager.minDistance st = 0 →
  PathManager.nearestProgress (PathManager.scan_loop q total now p1 rest st)
  = PathManager.nearestProgress st
  ∧ PathManager.nearestPoint (PathManager.scan_loop q total now p1 rest st)
    = PathManager.nearestPoint st.
Proof.
  induction rest as [|p2 rest IH]; intros p1 st Hzero; simpl; [done|].
  unfold PathManager.scan_segment.
  pose proof (distanceToPoint_nonneg q
                (PathManager.closestPointOnLineSegment q p1 p2 now)).
  rewrite decide_False by lra. simpl.
  destruct (IH p2 (PathManager.mkScan (PathManager.nearestPoint st)
                     (PathManager.minDistance st)
                     (PathManager.nearestProgress st)
                     (PathManager.accumulatedLength st
                      + PathManager.distanceToPoint p1 p2)) Hzero)
    as [H1 H2].
  by rewrite H1, H2.
Qed.

(** X6.  A query at the place of the first point of a path gets that first
    point back, with progress 0, whatever the rest of the path looks like. *)
Theorem findNearestPointOnPath_at_first_point (pm : PathManager.t)
  (q : Point.t) (pathId : string) (now : R) (path : AudioPath.t)
  (first : Point.t) :
  PathManager.getPath pm pathId = Some path →
  head (AudioPath.points path) = Some first →
  Point.x q = Point.x first → Point.y q = Point.y first →
  PathManager.findNearestPointOnPath pm q pathId now
  = PathManager.Return (Some (PathManager.Nearest.mk first 0)).
Proof.
  unfold PathManager.getPath, PathManager.findNearestPointOnPath.
  intros -> Hhead Hx Hy.
  destruct (AudioPath.points path) as [|p0 rest]; [done|].
  injection Hhead as ->.
  assert (Hzero : PathManager.distanceToPoint q first = 0).
  { unfold PathManager.distanceToPoint. rewrite Hx, Hy.
    replace ((Point.x first - Point.x first) * (Point.x first - Point.x first)
             + (Point.y first - Point.y first)
               * (Point.y first - Point.y first))
      with 0 by ring.
    apply sqrt_0. }
  destruct (scan_loop_at_zero q (PathManager.calculatePathLength path) now
              rest first
              (PathManager.mkScan first (PathManager.distanceToPoint q first)
                 0 0) Hzero) as [-> ->].
  simpl. do 3 f_equal. unfold JS.max, JS.min. repeat case_decide; lra.
Qed.

Lemma findNearestPointOnPath_at_first_point_witness :
  PathManager.findNearestPointOnPath first_store (Point.mk 0 0 7 None)
    "path-1" 7
  = PathManager.Return
      (Some (PathManager.Nearest.mk (Point.mk 0 0 0 None) 0)).
Proof.
  apply (findNearestPointOnPath_at_first_point first_store
           (Point.mk 0 0 7 None) "path-1" 7 first_path (Point.mk 0 0 0 None));
    reflexivity.
Defined.

(** ** Every store that the operations can build *)

Lemma JsMap_keys_set_present {V : Type} (m : JsMap.t V) (k : string) (v : V) :
  k ∈ JsMap.keys m → JsMap.keys (JsMap.set m k v) = JsMap.keys m.
Proof.
  unfold JsMap.keys. induction m as [|[k0 v0] m IH]; simpl.
  - intros H. by apply not_elem_of_nil in H.
  - intros H. destruct (decide (k0 = k)) as [->|Hne]; simpl; [done|].
    f_equal. apply IH. apply elem_of_cons in H as [->|H]; done.
Qed.

Lemma JsMap_keys_set_absent {V : Type} (m : JsMap.t V) (k : string) (v : V) :
  k ∉ JsMap.keys m → JsMap.keys (JsMap.set m k v) = JsMap.keys m ++ [k].
Proof.
  unfold JsMap.keys. induction m as [|[k0 v0] m IH]; simpl; [done|].
  intros H. apply not_elem_of_cons in H as [Hne H].
  rewrite decide_False by done. simpl. f_equal. by apply IH.
Qed.

Lemma JsMap_keys_set_NoDup {V : Type} (m : JsMap.t V) (k : string) (v : V) :
  NoDup (JsMap.keys m) → NoDup (JsMap.keys (JsMap.set m k v)).
Proof.
  intros Hnd. destruct (decide (k ∈ JsMap.keys m)) as [Hin|Hnotin].
  - by rewrite JsMap_keys_set_present.
  - rewrite JsMap_keys_set_absent by done.
    apply NoDup_app. split; [done|]. split; [|apply NoDup_singleton].
    intros x Hx ->%list_elem_of_singleton. done.
Qed.

Lemma JsMap_get_None_key {V : Type} (m : JsMap.t V) (k : string) :
  JsMap.get m k = None ↔ k ∉ JsMap.keys m.
Proof.
  split.
  - intros Hnone Hin. apply JsMap_key_get in Hin as [v Hv]. congruence.
  - intros Hnotin. destruct (JsMap.get m k) eqn:Hget; [|done].
    by apply JsMap_get_Some_key in Hget.
Qed.

Lemma JsMap_get_delete_ne {V : Type} (m : JsMap.t V) (k k' : string) :
  k ≠ k' → JsMap.get (JsMap.delete m k) k' = JsMap.get m k'.
Proof.
  intros Hne. induction m as [|[k0 v0] m IH]; simpl; [done|].
  destruct (decide (k0 = k)) as [->|Hne0]; simpl.
  - by rewrite decide_False.
  - by rewrite IH.
Qed.

Lemma JsMap_get_delete_eq {V : Type} (m : JsMap.t V) (k : string) :
  NoDup (JsMap.keys m) → JsMap.get (JsMap.delete m k) k = None.
Proof.
  unfold JsMap.keys. induction m as [|[k0 v0] m IH]; simpl; [done|].
  intros [Hnotin Hnd]%NoDup_cons.
  destruct (decide (k0 = k)) as [->|Hne]; simpl.
  - by apply JsMap_get_None_key.
  - rewrite decide_False by done. by apply IH.
Qed.

Lemma JsMap_keys_delete_NoDup {V : Type} (m : JsMap.t V) (k : string) :
  NoDup (JsMap.keys m) → NoDup (JsMap.keys (JsMap.delete m k)).
Proof.
  unfold JsMap.keys. induction m as [|[k0 v0] m IH]; simpl; [done|].
  intros [Hnotin Hnd]%NoDup_cons.
  destruct (decide (k0 = k)) as [->|Hne]; simpl; [done|].
  apply NoDup_cons. split; [|by apply IH].
  intros Hin. apply Hnotin. by eapply (JsMap_keys_delete (V := V)).
Qed.

Lemma getPath_deletePath_eq (pm : PathManager.t) (pathId : string) :
  NoDup (JsMap.keys (PathManager.paths pm)) →
  PathManager.getPath (PathManager.deletePath pm pathId) pathId = None.
Proof. apply JsMap_get_delete_eq. Qed.

Lemma getPath_deletePath_ne (pm : PathManager.t) (pathId other : string) :
  pathId ≠ other →
  PathManager.getPath (PathManager.deletePath pm pathId) other
  = PathManager.getPath pm other.
Proof. apply JsMap_get_delete_ne. Qed.

Lemma store_wf_new : store_wf PathManager.new.
Proof.
  split; [constructor|]. split; [done|].
  intros pathId H. by apply not_elem_of_empty in H.
Qed.

Lemma store_wf_apply_op (pm : PathManager.t) (op : store_op) :
  store_wf pm → store_wf (apply_op pm op).1.
Proof.
  intros Hwf. pose proof Hwf as (Hnd & Hpaths & Hactive).
  destruct op as [point now date_now|target point now|target|target payload
                 |target|]; simpl.
  - pose proof (startRecording_get pm point now date_now) as Hnew.
    pose proof (getPath_startRecording pm point now date_now) as Hother.
    simpl in Hnew, Hother.
    split; [by apply JsMap_keys_set_NoDup|]. split.
    + intros pathId path.
      destruct (decide
        (pathId = PathManager.path_id (PathManager.pathCounter pm + 1)))
        as [->|Hne].
      * rewrite Hnew. intros [= <-]. simpl. done.
      * rewrite Hother by done. apply Hpaths.
    + intros pathId.
      destruct (decide
        (pathId = PathManager.path_id (PathManager.pathCounter pm + 1)))
        as [->|Hne].
      * intros _. rewrite Hnew. by eexists.
      * rewrite Hother by done.
        intros [Hin%elem_of_singleton|Hin]%elem_of_union; [done|].
        by apply Hactive.
  - destruct (PathManager.getPath pm target) as [path|] eqn:Hget.
    2:{ unfold PathManager.addPoint. unfold PathManager.getPath in Hget.
        by rewrite Hget. }
    pose proof (addPoint_get pm target point now path Hget) as Hnew.
    split; [|split].
    + unfold PathManager.addPoint. unfold PathManager.getPath in Hget.
      rewrite Hget. simpl. by apply JsMap_keys_set_NoDup.
    + intros pathId path'.
      destruct (decide (pathId = target)) as [->|Hne].
      * rewrite Hnew. intros [= <-]. simpl.
        destruct (Hpaths _ _ Hget) as (Hid & Hne & Hstyle).
        split; [done|]. split; [|done].
        intros Hnil. by apply app_eq_nil in Hnil as [_ ?].
      * rewrite getPath_addPoint_ne by done. apply Hpaths.
    + intros pathId. rewrite activePaths_addPoint. intros Hin.
      destruct (decide (pathId = target)) as [->|Hne].
      * rewrite Hnew. by eexists.
      * rewrite getPath_addPoint_ne by done. by apply Hactive.
  - split; [done|]. split; [done|].
    intros pathId [Hin _]%elem_of_difference. by apply Hactive.
  - destruct (PathManager.getPath pm target) as [path|] eqn:Hget.
    2:{ unfold PathManager.attachAudioData.
        unfold PathManager.getPath in Hget. by rewrite Hget. }
    pose proof (attachAudioData_get pm target payload path Hget) as Hnew.
    split; [|split].
    + unfold PathManager.attachAudioData. unfold PathManager.getPath in Hget.
      rewrite Hget. simpl. by apply JsMap_keys_set_NoDup.
    + intros pathId path'.
      destruct (decide (pathId = target)) as [->|Hne].
      * rewrite Hnew. intros [= <-]. simpl. by apply Hpaths.
      * rewrite getPath_attachAudioData_ne by done. apply Hpaths.
    + intros pathId. rewrite activePaths_attachAudioData. intros Hin.
      destruct (decide (pathId = target)) as [->|Hne].
      * rewrite Hnew. by eexists.
      * rewrite getPath_attachAudioData_ne by done. by apply Hactive.
  - split; [by apply JsMap_keys_delete_NoDup|]. split.
    + intros pathId path. unfold PathManager.getPath. simpl.
      destruct (decide (pathId = target)) as [->|Hne].
      * by rewrite JsMap_get_delete_eq.
      * rewrite JsMap_get_delete_ne by done. apply Hpaths.
    + intros pathId [Hin Hne]%elem_of_difference.
      unfold PathManager.getPath. simpl.
      rewrite JsMap_get_delete_ne; [by apply Hactive|].
      intros ->. by apply Hne, elem_of_singleton.
  - apply store_wf_new.
Qed.

Lemma store_wf_run_ops (ops : list store_op) : ∀ pm,
  store_wf pm → store_wf (run_ops pm ops).1.
Proof.
  induction ops as [|op ops IH]; intros pm Hwf; simpl; [done|].
  pose proof (store_wf_apply_op pm op Hwf) as H1.
  destruct (apply_op pm op) as [pm1 ids1]. simpl in H1.
  specialize (IH pm1 H1). by destruct (run_ops pm1 ops).
Qed.

(** X7.  Whatever sequence of store operations is run on a new store, the
    store stays well formed: its ids are distinct, every path sits under its
    own id, has at least one point and the default style, and every id in
    the active set has a path. *)
Theorem every_store_is_well_formed (ops : list store_op) :
  store_wf (run_ops PathManager.new ops).1.
Proof. apply store_wf_run_ops, store_wf_new. Qed.

(** X9.  In every store that the operations can build, [deletePath] removes
    the path and its recording mark, and changes nothing else: the other
    paths are the same, and they record as before. *)
Theorem deletePath_removes_only_that_path (ops : list store_op)
  (pathId : string) :
  let pm := (run_ops PathManager.new ops).1 in
  let pm' := PathManager.deletePath pm pathId in
  PathManager.getPath pm' pathId = None
  ∧ PathManager.isRecording pm' pathId = false
  ∧ PathManager.pathCounter pm' = PathManager.pathCounter pm
  ∧ ∀ other, other ≠ pathId →
      PathManager.getPath pm' other = PathManager.getPath pm other
      ∧ PathManager.isRecording pm' other = PathManager.isRecording pm other.
Proof.
  intros pm pm'.
  destruct (store_wf_run_ops ops PathManager.new store_wf_new)
    as (Hnd & _ & _). fold pm in Hnd.
  unfold pm', PathManager.deletePath, PathManager.getPath,
    PathManager.isRecording. simpl.
  split; [by apply JsMap_get_delete_eq|].
  split.
  { apply bool_decide_eq_false. intros [_ H]%elem_of_difference.
    by apply H, elem_of_singleton. }
  split; [done|]. intros other Hne.
  split; [by apply JsMap_get_delete_ne|].
  apply bool_decide_ext. rewrite elem_of_difference, elem_of_singleton.
  tauto.
Qed.

Lemma StronglySorted_snoc (l : list R) (y : R) :
  StronglySorted Rle l → Forall (fun x => x <= y) l →
  StronglySorted Rle (l ++ [y]).
Proof.
  induction 1 as [|x l Hl IH Hx]; intros Hall; simpl.
  - repeat constructor.
  - apply Forall_cons in Hall as [Hxy Hall].
    constructor; [by apply IH|].
    apply Forall_app. split; [done|]. by constructor.
Qed.

Lemma getRecordingDuration_nonneg (path : AudioPath.t) :
  StronglySorted Rle (Point.timestamp <$> AudioPath.points path) →
  0 <= PathManager.getRecordingDuration path.
Proof.
  unfold PathManager.getRecordingDuration.
  destruct (decide (length (AudioPath.points path) < 2)%nat); [lra|].
  destruct (AudioPath.points path) as [|first rest] eqn:Hpoints;
    [simpl; lra|].
  change ((first :: rest) !! 0%nat) with (Some first).
  destruct ((first :: rest) !! (length (first :: rest) - 1)%nat)
    as [final|] eqn:Hfinal; [|lra].
  intros Hsorted. apply StronglySorted_inv in Hsorted as [_ Hfirst].
  apply list_elem_of_lookup_2, elem_of_cons in Hfinal as [->|Hin]; [lra|].
  rewrite Forall_forall in Hfirst.
  specialize (Hfirst (Point.timestamp final)
                (list_elem_of_fmap_2 Point.timestamp _ _ Hin)). lra.
Qed.

Lemma audio_nonneg_apply_op (pm : PathManager.t) (op : store_op) :
  NoDup (JsMap.keys (PathManager.paths pm)) →
  stamps_sorted pm → audio_nonneg pm → audio_nonneg (apply_op pm op).1.
Proof.
  intros Hnd Hsorted Haudio.
  destruct op as [point now date_now|target point now|target|target payload
                 |target|]; simpl.
  - pose proof (startRecording_get pm point now date_now) as Hnew.
    pose proof (getPath_startRecording pm point now date_now) as Hother.
    simpl in Hnew, Hother. intros pathId path audio.
    destruct (decide
      (pathId = PathManager.path_id (PathManager.pathCounter pm + 1)))
      as [->|Hne].
    + rewrite Hnew. by intros [= <-].
    + rewrite Hother by done. apply Haudio.
  - intros pathId path' audio (path & Hget & Hsame & _)%addPoint_path.
    rewrite Hsame. by eapply Haudio.
  - done.
  - intros pathId path' audio.
    destruct (decide (pathId = target)) as [->|Hne].
    + destruct (PathManager.getPath pm target) as [path|] eqn:Hget.
      * rewrite (attachAudioData_get _ _ _ _ Hget). intros [= <-]. simpl.
        intros [= <-]. simpl.
        pose proof (getRecordingDuration_nonneg path (Hsorted _ _ Hget))
          as Hduration.
        pose proof (calculatePathLength_nonneg path) as Hlength.
        split; [lra|]. unfold JS.div.
        destruct (decide (PathManager.getRecordingDuration path = 0)).
        -- destruct (decide (PathManager.calculatePathLength path = 0));
             [done|].
           destruct (decide (0 < PathManager.calculatePathLength path));
             [done|lra].
        -- apply Rmult_le_pos; [done|].
           apply Rlt_le, Rinv_0_lt_compat. lra.
      * intros Hget'. apply (Haudio target path' audio).
        unfold PathManager.getPath, PathManager.attachAudioData in *.
        by rewrite Hget in Hget'.
    + rewrite getPath_attachAudioData_ne by done. apply Haudio.
  - intros pathId path audio.
    destruct (decide (target = pathId)) as [->|Hne].
    + by rewrite getPath_deletePath_eq.
    + rewrite getPath_deletePath_ne by done. apply Haudio.
  - intros pathId path audio. done.
Qed.

Lemma stamps_apply_op (pm : PathManager.t) (op : store_op) (bound : R) :
  NoDup (JsMap.keys (PathManager.paths pm)) →
  stamps_sorted pm → stamps_le pm bound →
  (∀ now, op_clock op = Some now → bound <= now) →
  stamps_sorted (apply_op pm op).1
  ∧ stamps_le (apply_op pm op).1
      (match op_clock op with Some now => now | None => bound end).
Proof.
  intros Hnd Hsorted Hle Hclock.
  destruct op as [point now date_now|target point now|target|target payload
                 |target|]; simpl.
  - specialize (Hclock now eq_refl).
    pose proof (startRecording_get pm point now date_now) as Hnew.
    pose proof (getPath_startRecording pm point now date_now) as Hother.
    simpl in Hnew, Hother. split.
    + intros pathId path.
      destruct (decide
        (pathId = PathManager.path_id (PathManager.pathCounter pm + 1)))
        as [->|Hne].
      * rewrite Hnew. intros [= <-]. simpl. repeat constructor.
      * rewrite Hother by done. apply Hsorted.
    + intros pathId path p.
      destruct (decide
        (pathId = PathManager.path_id (PathManager.pathCounter pm + 1)))
        as [->|Hne].
      * rewrite Hnew. intros [= <-]. simpl.
        intros ->%list_elem_of_singleton. simpl. lra.
      * rewrite Hother by done. intros Hget Hp.
        specialize (Hle _ _ _ Hget Hp). lra.
  - specialize (Hclock now eq_refl).
    destruct (PathManager.getPath pm target) as [path|] eqn:Hget.
    2:{ unfold PathManager.addPoint. unfold PathManager.getPath in Hget.
        rewrite Hget. split; [done|].
        intros pathId path p Hg Hp. specialize (Hle _ _ _ Hg Hp). lra. }
    pose proof (addPoint_get pm target point now path Hget) as Hnew. split.
    + intros pathId path'.
      destruct (decide (pathId = target)) as [->|Hne].
      * rewrite Hnew. intros [= <-]. simpl. rewrite fmap_app. simpl.
        apply StronglySorted_snoc; [by eapply Hsorted|].
        apply Forall_fmap, Forall_forall. intros p Hp. simpl.
        specialize (Hle _ _ _ Hget Hp). lra.
      * rewrite getPath_addPoint_ne by done. apply Hsorted.
    + intros pathId path' p.
      destruct (decide (pathId = target)) as [->|Hne].
      * rewrite Hnew. intros [= <-]. simpl.
        intros [Hp| ->%list_elem_of_singleton]%elem_of_app; [|simpl; lra].
        specialize (Hle _ _ _ Hget Hp). lra.
      * rewrite getPath_addPoint_ne by done. intros Hg Hp.
        specialize (Hle _ _ _ Hg Hp). lra.
  - done.
  - split.
    + intros pathId path' (path & Hget & Hsame & _)%attachAudioData_path.
      rewrite Hsame. by eapply Hsorted.
    + intros pathId path' p (path & Hget & Hsame & _)%attachAudioData_path.
      rewrite Hsame. by eapply Hle.
  - split.
    + intros pathId path.
      destruct (decide (target = pathId)) as [->|Hne].
      * by rewrite getPath_deletePath_eq.
      * rewrite getPath_deletePath_ne by done. apply Hsorted.
    + intros pathId path p.
      destruct (decide (target = pathId)) as [->|Hne].
      * by rewrite getPath_deletePath_eq.
      * rewrite getPath_deletePath_ne by done. apply Hle.
  - split; [done|]. intros pathId path p. done.
Qed.

Lemma stamps_run_ops (ops : list store_op) : ∀ pm bound,
  store_wf pm → stamps_sorted pm → stamps_le pm bound → audio_nonneg pm →
  StronglySorted Rle (bound :: omap op_clock ops) →
  stamps_sorted (run_ops pm ops).1 ∧ audio_nonneg (run_ops pm ops).1.
Proof.
  induction ops as [|op ops IH];
    intros pm bound Hwf Hsorted Hle Haudio Hclock; simpl; [done|].
  pose proof (store_wf_apply_op pm op Hwf) as Hwf1.
  pose proof (audio_nonneg_apply_op pm op (proj1 Hwf) Hsorted Haudio)
    as Haudio1.
  destruct Hwf as (Hnd & _).
  apply StronglySorted_inv in Hclock as [Hrest Hbound]. simpl in Hrest, Hbound.
  destruct (stamps_apply_op pm op bound Hnd Hsorted Hle) as [Hsorted1 Hle1].
  { intros now Hnow. rewrite Hnow in Hbound.
    by apply Forall_cons in Hbound as [? _]. }
  destruct (apply_op pm op) as [pm1 ids1].
  simpl in Hwf1, Hsorted1, Hle1, Haudio1.
  specialize (IH pm1 (match op_clock op with Some now => now | None => bound end)
                Hwf1 Hsorted1 Hle1 Haudio1).
  destruct (run_ops pm1 ops) as [pm2 ids2]. simpl in *. apply IH.
  destruct (op_clock op) as [now|]; [done|].
  by constructor.
Qed.

Lemma clock_run_ops (ops : list store_op) :
  StronglySorted Rle (omap op_clock ops) →
  stamps_sorted (run_ops PathManager.new ops).1
  ∧ audio_nonneg (run_ops PathManager.new ops).1.
Proof.
  intros Hclock.
  destruct (omap op_clock ops) as [|first readings] eqn:Hreadings.
  - apply (stamps_run_ops ops PathManager.new 0); try done.
    + apply store_wf_new.
    + rewrite Hreadings. repeat constructor.
  - apply (stamps_run_ops ops PathManager.new first); try done.
    + apply store_wf_new.
    + rewrite Hreadings. constructor; [done|].
      constructor; [lra|]. by apply StronglySorted_inv in Hclock as [_ ?].
Qed.

(** X10.  When the clock never goes back from one operation to the next, the
    timestamps of the points of every path are in order, whatever timestamps
    the points came with: the store stamps each point with its own reading of
    the clock. *)
Theorem timestamps_follow_the_clock (ops : list store_op) :
  StronglySorted Rle (omap op_clock ops) →
  stamps_sorted (run_ops PathManager.new ops).1.
Proof. intros Hclock. by apply clock_run_ops. Qed.

Lemma timestamps_follow_the_clock_witness :
  stamps_sorted
    (run_ops PathManager.new
       [OpStartRecording (Point.mk 0 0 9 None) 0 0;
        OpAddPoint "path-1" (Point.mk 3 4 2 None) 5]).1.
Proof.
  apply (timestamps_follow_the_clock
           [OpStartRecording (Point.mk 0 0 9 None) 0 0;
            OpAddPoint "path-1" (Point.mk 3 4 2 None) 5]).
  simpl. apply SSorted_cons.
  - apply SSorted_cons; [apply SSorted_nil|apply Forall_nil_2].
  - apply Forall_cons_2; [lra|apply Forall_nil_2].
Defined.

(** X11.  When the clock never goes back from one operation to the next, no
    path gets audio with a negative duration or a negative speed: the
    duration is not negative, and the speed is a number from 0 on, positive
    infinity or NaN. *)
Theorem stored_audio_is_never_negative (ops : list store_op) :
  StronglySorted Rle (omap op_clock ops) →
  audio_nonneg (run_ops PathManager.new ops).1.
Proof. intros Hclock. by apply clock_run_ops. Qed.

Lemma stored_audio_is_never_negative_witness :
  audio_nonneg
    (run_ops PathManager.new
       [OpStartRecording (Point.mk 0 0 9 None) 0 0;
        OpAddPoint "path-1" (Point.mk 3 4 2 None) 5;
        OpAttachAudioData "path-1" []]).1.
Proof.
  apply (stored_audio_is_never_negative
           [OpStartRecording (Point.mk 0 0 9 None) 0 0;
            OpAddPoint "path-1" (Point.mk 3 4 2 None) 5;
            OpAttachAudioData "path-1" []]).
  simpl. apply SSorted_cons.
  - apply SSorted_cons; [apply SSorted_nil|apply Forall_nil_2].
  - apply Forall_cons_2; [lra|apply Forall_nil_2].
Defined.

(** ** What the coordinator asks of the audio engine *)

Lemma call_in_range_log (ae : AudioEngine.t) (c : AudioEngine.call) :
  call_in_range c →
  Forall call_in_range (AudioEngine.calls ae) →
  Forall call_in_range (AudioEngine.calls (AudioEngine.log ae c)).
Proof.
  intros Hc Hall. simpl. apply Forall_app. split; [done|]. by constructor.
Qed.

Lemma rate_in_range (v : R) : 5 / 10 <= JS.max (5 / 10) (JS.min 2 v) <= 2.
Proof. unfold JS.max, JS.min. repeat case_decide; lra. Qed.

Lemma stopRecording_calls (ae : AudioEngine.t) (recorded : option ArrayBuffer) :
  AudioEngine.calls (AudioEngine.stopRecording ae recorded).1
  = AudioEngine.calls ae.
Proof.
  unfold AudioEngine.stopRecording. by destruct (AudioEngine.mediaRecorder ae).
Qed.

Lemma startRecording_calls (ae : AudioEngine.t) (ok : bool) :
  AudioEngine.calls (AudioEngine.startRecording ae ok).1 = AudioEngine.calls ae.
Proof.
  unfold AudioEngine.startRecording.
  destruct (_ || _); [done|]. by destruct ok.
Qed.

Lemma handlePathPlayback_calls_in_range (app : MelodiaApp.t) (pathId : string)
  (clickPoint : Point.t) (env : Env.t) :
  Forall call_in_range (AudioEngine.calls (MelodiaApp.audioEngine app)) →
  Forall call_in_range
    (AudioEngine.calls
       (MelodiaApp.audioEngine
          (MelodiaApp.handlePathPlayback app pathId clickPoint env))).
Proof.
  intros Hall. unfold MelodiaApp.handlePathPlayback.
  destruct (PathManager.getPath _ _) as [path|]; [|done].
  destruct (AudioPath.audioData path) as [audio|]; [|done].
  destruct (PathManager.findNearestPointOnPath _ _ _ _) as [[r|]|]; try done.
  pose proof (requestMicrophonePermission_calls (MelodiaApp.audioEngine app)
                (Env.getUserMedia_ok env)) as Hcalls.
  destruct (negb (AudioEngine.isReady _)).
  - destruct (AudioEngine.requestMicrophonePermission _ _) as [engine []];
      simpl in *.
    + apply Forall_app. rewrite Hcalls. split; [done|]. by constructor.
    + by rewrite Hcalls.
  - simpl. apply Forall_app. split; [done|]. by constructor.
Qed.

Lemma handlePlaybackMove_calls_in_range (app : MelodiaApp.t)
  (currentPoint : Point.t) (env : Env.t) :
  Forall call_in_range (AudioEngine.calls (MelodiaApp.audioEngine app)) →
  Forall call_in_range
    (AudioEngine.calls
       (MelodiaApp.audioEngine
          (MelodiaApp.handlePlaybackMove app currentPoint env))).
Proof.
  intros Hall. unfold MelodiaApp.handlePlaybackMove.
  destruct (MelodiaApp.truthy _) as [active|]; [|done].
  destruct (MelodiaApp.lastPlaybackPoint app) as [last|]; [|done].
  destruct (PathManager.getPath _ _) as [path|]; [|done].
  destruct (AudioPath.audioData path) as [audio|]; [|done].
  assert (Hplay : ∀ app' position v,
    Forall call_in_range (AudioEngine.calls (MelodiaApp.audioEngine app')) →
    Forall call_in_range
      (AudioEngine.calls
         (AudioEngine.playAudioAtPosition (MelodiaApp.audioEngine app')
            (AudioData.buffer audio) active position
            (JS.max (5 / 10) (JS.min 2 v))))).
  { intros app' position v Hall'. apply call_in_range_log; [|done].
    apply rate_in_range. }
  destruct (negb (MelodiaApp.isMoving app) && bool_decide _); simpl.
  - destruct (decide _); [done|].
    destruct (PathManager.findNearestPointOnPath _ _ _ _) as [[r|]|];
      try done.
    destruct (decide _); simpl; [|done].
    by apply (Hplay (MelodiaApp.set_isMoving app true)).
  - destruct (negb (MelodiaApp.isMoving app)); [done|].
    destruct (decide _); [done|].
    destruct (PathManager.findNearestPointOnPath _ _ _ _) as [[r|]|];
      try done.
    destruct (decide _); simpl; [|done].
    by apply (Hplay app).
Qed.

Lemma step_calls_in_range (app : MelodiaApp.t) (a : MelodiaApp.action) :
  Forall call_in_range (AudioEngine.calls (MelodiaApp.audioEngine app)) →
  Forall call_in_range
    (AudioEngine.calls (MelodiaApp.audioEngine (MelodiaApp.step app a))).
Proof.
  intros Hall. destruct a as [event env|event env|event env|]; simpl.
  - unfold MelodiaApp.handleInputStart.
    destruct (negb (MelodiaApp.isAppReady app)); [done|].
    destruct (MelodiaApp.truthy _) as [existing|].
    + by apply handlePathPlayback_calls_in_range.
    + destruct (PathManager.startRecording _ _ _ _) as [pm pathId]. simpl.
      pose proof (requestMicrophonePermission_calls
                    (MelodiaApp.audioEngine app) (Env.getUserMedia_ok env))
        as Hcalls.
      destruct (negb (AudioEngine.isReady (MelodiaApp.audioEngine app)));
        destruct (AudioEngine.isReady _);
        rewrite ?startRecording_calls, ?Hcalls; done.
  - unfold MelodiaApp.handleInputMove.
    destruct (negb (MelodiaApp.isAppReady app)); [done|].
    destruct (MelodiaApp.truthy (MelodiaApp.activePlaybackPath app))
      as [active|];
      destruct (MelodiaApp.truthy (MelodiaApp.currentRecordingPath app))
        as [recording|]; try done.
    by apply handlePlaybackMove_calls_in_range.
  - unfold MelodiaApp.handleInputEnd, MelodiaApp.handleInputEnd_attach.
    destruct (negb (MelodiaApp.isAppReady app)); [done|].
    pose proof (stopRecording_calls (MelodiaApp.audioEngine app)
                  (Env.recorded env)) as Hcalls.
    destruct (AudioEngine.stopRecording _ _) as [engine payload].
    simpl in Hcalls.
    destruct (MelodiaApp.truthy (MelodiaApp.activePlaybackPath app))
      as [active|];
      destruct (MelodiaApp.truthy (MelodiaApp.currentRecordingPath app))
        as [recording|]; simpl; rewrite ?Hcalls; try done.
    apply Forall_app. split; [done|]. by constructor.
  - done.
Qed.

(** X12.  Whatever the user does, every play command that the coordinator
    sends to the audio engine has a rate between 0.5 and 2, and every loop
    command asks for a window of 0.2 seconds. *)
Theorem commands_stay_in_range (audioContext_ok : bool)
  (actions : list MelodiaApp.action) :
  Forall call_in_range
    (AudioEngine.calls
       (MelodiaApp.audioEngine
          (MelodiaApp.run (MelodiaApp.init audioContext_ok) actions))).
Proof.
  unfold MelodiaApp.run.
  assert (Hinit : Forall call_in_range
            (AudioEngine.calls
               (MelodiaApp.audioEngine (MelodiaApp.init audioContext_ok))))
    by constructor.
  revert Hinit. generalize (MelodiaApp.init audioContext_ok).
  induction actions as [|a actions IH]; intros app Hall; simpl; [done|].
  apply IH. by apply step_calls_in_range.
Qed.

(** ** Whole gestures *)

Lemma run_app (app : MelodiaApp.t) (l1 l2 : list MelodiaApp.action) :
  MelodiaApp.run app (l1 ++ l2) = MelodiaApp.run (MelodiaApp.run app l1) l2.
Proof. unfold MelodiaApp.run. apply fold_left_app. Qed.

Lemma run_gesture (app : MelodiaApp.t) (press release : InputEvent.t * Env.t)
  (moves : list (InputEvent.t * Env.t)) :
  MelodiaApp.run app (gesture press moves release)
  = MelodiaApp.handleInputEnd
      (MelodiaApp.run (MelodiaApp.handleInputStart app press.1 press.2)
         ((fun move => MelodiaApp.Move move.1 move.2) <$> moves))
      release.1 release.2.
Proof.
  unfold gesture.
  change (MelodiaApp.run app (?a :: ?l))
    with (MelodiaApp.run (MelodiaApp.step app a) l).
  by rewrite run_app.
Qed.

Lemma set_pathManager_same (app : MelodiaApp.t) :
  MelodiaApp.set_pathManager app (MelodiaApp.pathManager app) = app.
Proof. by destruct app. Qed.

Lemma handleInputMove_recording (app : MelodiaApp.t) (recording : string)
  (event : InputEvent.t) (env : Env.t) :
  MelodiaApp.isAppReady app = true →
  MelodiaApp.truthy (MelodiaApp.currentRecordingPath app) = Some recording →
  MelodiaApp.handleInputMove app event env
  = MelodiaApp.set_pathManager app
      (PathManager.addPoint (MelodiaApp.pathManager app) recording
         (InputEvent.point event) (Env.performance_now env)).
Proof.
  intros Hready Hrec. unfold MelodiaApp.handleInputMove.
  rewrite Hready, Hrec.
  by destruct (MelodiaApp.truthy (MelodiaApp.activePlaybackPath app)).
Qed.

Lemma handleInputEnd_recording (app : MelodiaApp.t) (recording : string)
  (event : InputEvent.t) (env : Env.t) :
  MelodiaApp.isAppReady app = true →
  MelodiaApp.truthy (MelodiaApp.currentRecordingPath app) = Some recording →
  MelodiaApp.handleInputEnd app event env
  = MelodiaApp.set_currentRecordingPath
      (MelodiaApp.set_pathManager
         (MelodiaApp.handleInputEnd_attach app recording event env)
         (PathManager.endRecording
            (MelodiaApp.pathManager
               (MelodiaApp.handleInputEnd_attach app recording event env))
            recording))
      None.
Proof.
  intros Hready Hrec. unfold MelodiaApp.handleInputEnd.
  rewrite Hready, Hrec.
  by destruct (MelodiaApp.truthy (MelodiaApp.activePlaybackPath app)).
Qed.

Lemma handleInputEnd_attach_target (app : MelodiaApp.t) (recording : string)
  (event : InputEvent.t) (env : Env.t) :
  MelodiaApp.activePlaybackPath
    (MelodiaApp.handleInputEnd_attach app recording event env)
  = MelodiaApp.activePlaybackPath app.
Proof.
  unfold MelodiaApp.handleInputEnd_attach.
  by destruct (AudioEngine.stopRecording _ _).
Qed.

(** While a recording is going on, the moves only add points. *)
Lemma recording_moves (moves : list (InputEvent.t * Env.t)) :
  ∀ (app : MelodiaApp.t) (recording : string),
  MelodiaApp.isAppReady app = true →
  MelodiaApp.truthy (MelodiaApp.currentRecordingPath app) = Some recording →
  MelodiaApp.run app ((fun move => MelodiaApp.Move move.1 move.2) <$> moves)
  = MelodiaApp.set_pathManager app
      (addPoints (MelodiaApp.pathManager app) recording
         (recorded_move <$> moves)).
Proof.
  induction moves as [|[event env] moves IH]; intros app recording Hready Hrec.
  - simpl. by rewrite set_pathManager_same.
  - rewrite !fmap_cons.
    change (MelodiaApp.run app (?a :: ?l))
      with (MelodiaApp.run (MelodiaApp.step app a) l).
    change (MelodiaApp.step app (MelodiaApp.Move (event, env).1 (event, env).2))
      with (MelodiaApp.handleInputMove app event env).
    rewrite (handleInputMove_recording app recording) by done.
    by rewrite (IH _ recording).
Qed.

(** A run of [addPoint]s appends the stamped points and keeps the rest of
    the path. *)
Lemma addPoints_get (moves : list (Point.t * R)) : ∀ pm pathId path,
  PathManager.getPath pm pathId = Some path →
  ∃ path',
    PathManager.getPath (addPoints pm pathId moves) pathId = Some path'
    ∧ AudioPath.points path'
      = AudioPath.points path
        ++ ((fun move => PathManager.stamp move.1 move.2) <$> moves)
    ∧ AudioPath.audioData path' = AudioPath.audioData path
    ∧ AudioPath.createdAt path' = AudioPath.createdAt path.
Proof.
  induction moves as [|[point now] moves IH]; intros pm pathId path Hget.
  - exists path. simpl. by rewrite app_nil_r.
  - simpl.
    edestruct (IH (PathManager.addPoint pm pathId point now) pathId)
      as (path' & Hget' & Hpts & Haudio & Hcreated).
    + by apply addPoint_get.
    + exists path'. split; [done|]. rewrite Hpts, Haudio, Hcreated.
      simpl. by rewrite <- app_assoc.
Qed.

(** What a gesture on empty canvas stores. *)
Lemma recording_gesture_points (app : MelodiaApp.t)
  (press release : InputEvent.t * Env.t)
  (moves : list (InputEvent.t * Env.t)) :
  MelodiaApp.reachable app →
  MelodiaApp.mode_of app = MelodiaApp.Idle →
  PathManager.findPathAtPoint (MelodiaApp.pathManager app)
    (InputEvent.point press.1) 15 = None →
  let app' := MelodiaApp.run app (gesture press moves release) in
  let pathId :=
    PathManager.path_id
      (PathManager.pathCounter (MelodiaApp.pathManager app) + 1) in
  let recorder :=
    AudioEngine.mediaRecorder
      (MelodiaApp.audioEngine
         (MelodiaApp.handleInputStart app press.1 press.2)) in
  MelodiaApp.mode_of app' = MelodiaApp.Idle
  ∧ PathManager.isRecording (MelodiaApp.pathManager app') pathId = false
  ∧ ∃ path,
      PathManager.getPath (MelodiaApp.pathManager app') pathId = Some path
      ∧ AudioPath.points path
        = (fun move => PathManager.stamp move.1 move.2)
          <$> (recorded_move press :: (recorded_move <$> moves)
               ++ [recorded_move release])
      ∧ match AudioPath.audioData path with
        | Some audio =>
            recorder = AudioEngine.Recording
            ∧ Env.recorded release.2 = Some (AudioData.buffer audio)
        | None =>
            recorder ≠ AudioEngine.Recording ∨ Env.recorded release.2 = None
        end.
Proof.
  intros [[Hready _] _]%reachable_inv Hidle Hmiss app' pathId recorder.
  subst app' recorder. rewrite run_gesture.
  destruct press as [press penv], release as [release renv].
  simpl fst in *. simpl snd in *.
  assert (Hactive :
    MelodiaApp.truthy (MelodiaApp.activePlaybackPath app) = None).
  { unfold MelodiaApp.mode_of in Hidle.
    by destruct (MelodiaApp.truthy (MelodiaApp.activePlaybackPath app)),
      (MelodiaApp.truthy (MelodiaApp.currentRecordingPath app)). }
  set (app1 := MelodiaApp.handleInputStart app press penv).
  assert (Happ1 :
    MelodiaApp.isAppReady app1 = true
    ∧ MelodiaApp.currentRecordingPath app1 = Some pathId
    ∧ MelodiaApp.activePlaybackPath app1 = MelodiaApp.activePlaybackPath app
    ∧ MelodiaApp.pathManager app1
      = (PathManager.startRecording (MelodiaApp.pathManager app)
           (InputEvent.point press) (Env.performance_now penv)
           (Env.date_now penv)).1).
  { subst app1. unfold MelodiaApp.handleInputStart.
    rewrite Hready, Hmiss. simpl. done. }
  destruct Happ1 as (Hready1 & Hcurrent1 & Hactive1 & Hpm1).
  clearbody app1.
  assert (Htruthy1 :
    MelodiaApp.truthy (MelodiaApp.currentRecordingPath app1) = Some pathId)
    by (rewrite Hcurrent1; apply truthy_path_id).
  rewrite (recording_moves moves app1 pathId) by done.
  set (app2 := MelodiaApp.set_pathManager app1 _).
  assert (Htruthy2 :
    MelodiaApp.truthy (MelodiaApp.currentRecordingPath app2) = Some pathId)
    by done.
  rewrite (handleInputEnd_recording app2 pathId) by done.
  pose proof (startRecording_get (MelodiaApp.pathManager app)
                (InputEvent.point press) (Env.performance_now penv)
                (Env.date_now penv)) as Hnew.
  rewrite <- Hpm1 in Hnew.
  change ((PathManager.startRecording _ _ _ _).2) with pathId in Hnew.
  destruct (addPoints_get (recorded_move <$> moves) _ pathId _ Hnew)
    as (path2 & Hget2 & Hpts2 & Haudio2 & _).
  simpl in Hpts2, Haudio2.
  pose proof (addPoint_get _ pathId (InputEvent.point release)
                (Env.performance_now renv) path2 Hget2) as Hget3.
  split; [|split].
  - unfold MelodiaApp.mode_of. simpl.
    rewrite handleInputEnd_attach_target.
    change (MelodiaApp.activePlaybackPath app2)
      with (MelodiaApp.activePlaybackPath app1).
    by rewrite Hactive1, Hactive.
  - apply bool_decide_eq_false. simpl.
    rewrite elem_of_difference, elem_of_singleton. tauto.
  - unfold MelodiaApp.handleInputEnd_attach, AudioEngine.stopRecording.
    change (MelodiaApp.audioEngine app2) with (MelodiaApp.audioEngine app1).
    change (MelodiaApp.pathManager app2)
      with (addPoints (MelodiaApp.pathManager app1) pathId
              (recorded_move <$> moves)).
    assert (Hpoints :
      AudioPath.points path2
      ++ [PathManager.stamp (InputEvent.point release)
            (Env.performance_now renv)]
      = (fun move => PathManager.stamp move.1 move.2)
        <$> (recorded_move (press, penv) :: (recorded_move <$> moves)
             ++ [recorded_move (release, renv)])).
    { rewrite Hpts2, fmap_cons, fmap_app. simpl.
      by rewrite <- list_fmap_compose. }
    destruct (AudioEngine.mediaRecorder (MelodiaApp.audioEngine app1))
      eqn:Hrecorder; [| |destruct (Env.recorded renv) as [payload|] eqn:Hpay];
      simpl.
    + eexists. split; [exact Hget3|]. split; [exact Hpoints|].
      simpl. rewrite Haudio2. by left.
    + eexists. split; [exact Hget3|]. split; [exact Hpoints|].
      simpl. rewrite Haudio2. by left.
    + eexists. split; [by apply attachAudioData_get|].
      split; [exact Hpoints|]. done.
    + eexists. split; [exact Hget3|]. split; [exact Hpoints|].
      simpl. rewrite Haudio2. by right.
Qed.

(** X13.  A gesture that starts on empty canvas while the coordinator is idle
    and the audio engine is ready records exactly its own events: the new
    path holds the point of the press, the points of the moves and the point
    of the release, in that order, each with the clock reading of its
    handler.  When the handler of the release has finished the coordinator
    is idle again, the path is no longer recording, and it has audio exactly
    when the recorder was running and handed a payload back.  With the
    engine ready [handleInputStart] does not ask for the microphone, so the
    path exists before the first move is handled; the one wait of the
    gesture, for the recorder to stop, comes after its last event. *)
Theorem recording_gesture_stores_its_points (app : MelodiaApp.t)
  (press release : InputEvent.t * Env.t)
  (moves : list (InputEvent.t * Env.t)) :
  MelodiaApp.reachable app →
  MelodiaApp.mode_of app = MelodiaApp.Idle →
  AudioEngine.isReady (MelodiaApp.audioEngine app) = true →
  PathManager.findPathAtPoint (MelodiaApp.pathManager app)
    (InputEvent.point press.1) 15 = None →
  let app' := MelodiaApp.run app (gesture press moves release) in
  let pathId :=
    PathManager.path_id
      (PathManager.pathCounter (MelodiaApp.pathManager app) + 1) in
  let recorder :=
    AudioEngine.mediaRecorder
      (MelodiaApp.audioEngine
         (MelodiaApp.handleInputStart app press.1 press.2)) in
  MelodiaApp.mode_of app' = MelodiaApp.Idle
  ∧ PathManager.isRecording (MelodiaApp.pathManager app') pathId = false
  ∧ ∃ path,
      PathManager.getPath (MelodiaApp.pathManager app') pathId = Some path
      ∧ AudioPath.points path
        = (fun move => PathManager.stamp move.1 move.2)
          <$> (recorded_move press :: (recorded_move <$> moves)
               ++ [recorded_move release])
      ∧ match AudioPath.audioData path with
        | Some audio =>
            recorder = AudioEngine.Recording
            ∧ Env.recorded release.2 = Some (AudioData.buffer audio)
        | None =>
            recorder ≠ AudioEngine.Recording ∨ Env.recorded release.2 = None
        end.
Proof.
  intros Hreach Hidle _ Hmiss. by apply recording_gesture_points.
Qed.

Lemma second_press_misses :
  PathManager.findPathAtPoint (MelodiaApp.pathManager recorded_click)
    (Point.mk 200 200 0 None) 15 = None.
Proof.
  unfold PathManager.findPathAtPoint. simpl.
  unfold PathManager.isPointNearPath. simpl.
  unfold PathManager.updateBoundingBox, PathManager.createBoundingBox. simpl.
  decide_reals. simpl. decide_reals. reflexivity.
Qed.

Lemma recording_gesture_stores_its_points_witness :
  let app' :=
    MelodiaApp.run recorded_click
      (gesture second_press [second_move] second_release) in
  let pathId :=
    PathManager.path_id
      (PathManager.pathCounter (MelodiaApp.pathManager recorded_click) + 1) in
  let recorder :=
    AudioEngine.mediaRecorder
      (MelodiaApp.audioEngine
         (MelodiaApp.handleInputStart recorded_click second_press.1
            second_press.2)) in
  MelodiaApp.mode_of app' = MelodiaApp.Idle
  ∧ PathManager.isRecording (MelodiaApp.pathManager app') pathId = false
  ∧ ∃ path,
      PathManager.getPath (MelodiaApp.pathManager app') pathId = Some path
      ∧ AudioPath.points path
        = (fun move => PathManager.stamp move.1 move.2)
          <$> (recorded_move second_press
               :: (recorded_move <$> [second_move])
               ++ [recorded_move second_release])
      ∧ match AudioPath.audioData path with
        | Some audio =>
            recorder = AudioEngine.Recording
            ∧ Env.recorded second_release.2 = Some (AudioData.buffer audio)
        | None =>
            recorder ≠ AudioEngine.Recording
            ∨ Env.recorded second_release.2 = None
        end.
Proof.
  apply (recording_gesture_stores_its_points recorded_click second_press
           second_release [second_move]).
  - by eexists true, _.
  - apply recorded_click_state.
  - apply recorded_click_state.
  - exact second_press_misses.
Defined.

Lemma handlePlaybackMove_target (app : MelodiaApp.t) (currentPoint : Point.t)
  (env : Env.t) :
  MelodiaApp.activePlaybackPath
    (MelodiaApp.handlePlaybackMove app currentPoint env)
  = MelodiaApp.activePlaybackPath app.
Proof.
  unfold MelodiaApp.handlePlaybackMove.
  destruct (MelodiaApp.truthy _) as [active|]; [|done].
  destruct (MelodiaApp.lastPlaybackPoint app) as [last|]; [|done].
  destruct (PathManager.getPath _ _) as [path|]; [|done].
  destruct (AudioPath.audioData path) as [audio|]; [|done].
  destruct (negb (MelodiaApp.isMoving app) && bool_decide _); simpl.
  - destruct (decide _); [done|].
    destruct (PathManager.findNearestPointOnPath _ _ _ _) as [[r|]|];
      try done.
    by destruct (decide _).
  - destruct (negb (MelodiaApp.isMoving app)); [done|].
    destruct (decide _); [done|].
    destruct (PathManager.findNearestPointOnPath _ _ _ _) as [[r|]|];
      try done.
    by destruct (decide _).
Qed.

Lemma mode_of_Scrubbing (app : MelodiaApp.t) (target : string) :
  MelodiaApp.mode_of app = MelodiaApp.Scrubbing target ↔
  MelodiaApp.truthy (MelodiaApp.activePlaybackPath app) = Some target
  ∧ MelodiaApp.truthy (MelodiaApp.currentRecordingPath app) = None.
Proof.
  unfold MelodiaApp.mode_of.
  destruct (MelodiaApp.truthy (MelodiaApp.activePlaybackPath app)),
    (MelodiaApp.truthy (MelodiaApp.currentRecordingPath app));
    split; try (intros [= ->]; done); try (intros [[= ->] ?]; done);
    try (intros [? ?]; done); done.
Qed.

(** While a path is scrubbed, the moves leave the store and the two targets
    alone. *)
Lemma scrubbing_moves (target : string) (moves : list (InputEvent.t * Env.t)) :
  ∀ app : MelodiaApp.t,
  MelodiaApp.isAppReady app = true →
  MelodiaApp.mode_of app = MelodiaApp.Scrubbing target →
  let app' :=
    MelodiaApp.run app
      ((fun move => MelodiaApp.Move move.1 move.2) <$> moves) in
  MelodiaApp.isAppReady app' = true
  ∧ MelodiaApp.mode_of app' = MelodiaApp.Scrubbing target
  ∧ MelodiaApp.pathManager app' = MelodiaApp.pathManager app.
Proof.
  induction moves as [|[event env] moves IH]; intros app Hready Hmode;
    [done|].
  rewrite fmap_cons.
  change (MelodiaApp.run app (?a :: ?l))
    with (MelodiaApp.run (MelodiaApp.step app a) l).
  change (MelodiaApp.step app (MelodiaApp.Move (event, env).1 (event, env).2))
    with (MelodiaApp.handleInputMove app event env).
  apply mode_of_Scrubbing in Hmode as Htargets.
  destruct Htargets as [Hactive Hcurrent].
  assert (Hmove :
    MelodiaApp.handleInputMove app event env
    = MelodiaApp.handlePlaybackMove app (InputEvent.point event) env).
  { unfold MelodiaApp.handleInputMove. by rewrite Hready, Hactive, Hcurrent. }
  rewrite Hmove.
  destruct (handlePlaybackMove_frame app (InputEvent.point event) env)
    as (Hpm & Hcur & Hrdy & _).
  pose proof (handlePlaybackMove_target app (InputEvent.point event) env)
    as Htarget.
  destruct (IH (MelodiaApp.handlePlaybackMove app (InputEvent.point event) env))
    as (Hready' & Hmode' & Hpm').
  - by rewrite Hrdy.
  - apply mode_of_Scrubbing. by rewrite Htarget, Hcur.
  - split; [done|]. split; [done|]. by rewrite Hpm'.
Qed.

(** X14.  A gesture that starts on a path with audio while the coordinator is
    idle and the audio engine is ready scrubs that path and nothing else:
    whatever the moves, the path store is unchanged, and on the release the
    coordinator is idle again and the last call it has made on the engine is
    the stop of that path's playback.  With the engine ready the press sets
    the scrubbing state before [handlePathPlayback] waits for its loop.
    What that handler writes after the wait, [playingPaths] and
    [playbackIndicators], is left aside: the release can be handled
    first. *)
Theorem scrub_gesture_leaves_the_store (app : MelodiaApp.t)
  (press release : InputEvent.t * Env.t)
  (moves : list (InputEvent.t * Env.t)) (target : string) :
  MelodiaApp.reachable app →
  MelodiaApp.mode_of app = MelodiaApp.Idle →
  AudioEngine.isReady (MelodiaApp.audioEngine app) = true →
  MelodiaApp.mode_of (MelodiaApp.handleInputStart app press.1 press.2)
  = MelodiaApp.Scrubbing target →
  let app' := MelodiaApp.run app (gesture press moves release) in
  MelodiaApp.pathManager app' = MelodiaApp.pathManager app
  ∧ MelodiaApp.mode_of app' = MelodiaApp.Idle
  ∧ last (AudioEngine.calls (MelodiaApp.audioEngine app'))
    = Some (AudioEngine.StopPlayback target).
Proof.
  intros [[Hready _] _]%reachable_inv Hidle _ Hscrub app'.
  subst app'. rewrite run_gesture.
  destruct press as [press penv], release as [release renv].
  simpl fst in *. simpl snd in *.
  set (app1 := MelodiaApp.handleInputStart app press penv) in *.
  assert (Happ1 :
    MelodiaApp.isAppReady app1 = true
    ∧ MelodiaApp.pathManager app1 = MelodiaApp.pathManager app).
  { subst app1. unfold MelodiaApp.handleInputStart in *.
    rewrite Hready in *. simpl negb in *. cbv iota in *.
    destruct (MelodiaApp.truthy (PathManager.findPathAtPoint _ _ _))
      as [hit|].
    - destruct (handlePathPlayback_frame app hit (InputEvent.point press) penv)
        as (Hpm & _ & Hrdy & _).
      split; [by rewrite Hrdy|done].
    - apply mode_of_Scrubbing in Hscrub as [_ Hcur]. exfalso.
      destruct (PathManager.startRecording _ _ _ _) as [pm newId] eqn:Hstart.
      assert (newId
              = PathManager.path_id
                  (PathManager.pathCounter (MelodiaApp.pathManager app) + 1))
        as -> by (by inversion Hstart).
      simpl in Hcur. discriminate. }
  destruct Happ1 as [Hready1 Hpm1]. clearbody app1.
  destruct (scrubbing_moves target moves app1 Hready1 Hscrub)
    as (Hready2 & Hmode2 & Hpm2).
  set (app2 := MelodiaApp.run app1 _) in *. clearbody app2.
  apply mode_of_Scrubbing in Hmode2 as [Hactive2 Hcurrent2].
  unfold MelodiaApp.handleInputEnd. rewrite Hready2, Hactive2, Hcurrent2.
  simpl. split; [by rewrite Hpm2|].
  split; [unfold MelodiaApp.mode_of; simpl; by rewrite Hcurrent2|].
  apply last_snoc.
Qed.

Lemma scrub_gesture_leaves_the_store_witness :
  let press := (click_event true, click_env None) in
  let release := (click_event false, click_env None) in
  let app' := MelodiaApp.run recorded_click (gesture press [stroke_move] release) in
  MelodiaApp.pathManager app' = MelodiaApp.pathManager recorded_click
  ∧ MelodiaApp.mode_of app' = MelodiaApp.Idle
  ∧ last (AudioEngine.calls (MelodiaApp.audioEngine app'))
    = Some (AudioEngine.StopPlayback "path-1").
Proof.
  apply (scrub_gesture_leaves_the_store recorded_click
           (click_event true, click_env None)
           (click_event false, click_env None) [stroke_move] "path-1").
  - by eexists true, _.
  - apply recorded_click_state.
  - apply recorded_click_state.
  - apply recorded_click_press.
Defined.

(** X15.  The throttle of the scrub: a move that is handled less than 100
    milliseconds after the last accepted one sends nothing to the engine and
    leaves the tracked point, the tracked time, the audio position, the
    playback indicators and the store as they are. *)
Theorem throttled_move_is_silent (app : MelodiaApp.t) (event : InputEvent.t)
  (env : Env.t) (target : string) :
  MelodiaApp.mode_of app = MelodiaApp.Scrubbing target →
  Env.performance_now env - MelodiaApp.lastPlaybackTime app < 100 →
  let app' := MelodiaApp.handleInputMove app event env in
  MelodiaApp.audioEngine app' = MelodiaApp.audioEngine app
  ∧ MelodiaApp.lastPlaybackPoint app' = MelodiaApp.lastPlaybackPoint app
  ∧ MelodiaApp.lastPlaybackTime app' = MelodiaApp.lastPlaybackTime app
  ∧ MelodiaApp.lastAudioPosition app' = MelodiaApp.lastAudioPosition app
  ∧ MelodiaApp.playbackIndicators app' = MelodiaApp.playbackIndicators app
  ∧ MelodiaApp.pathManager app' = MelodiaApp.pathManager app.
Proof.
  intros [Hactive Hcurrent]%mode_of_Scrubbing Hsoon.
  unfold MelodiaApp.handleInputMove.
  destruct (negb (MelodiaApp.isAppReady app)); [done|].
  rewrite Hactive, Hcurrent.
  unfold MelodiaApp.handlePlaybackMove. rewrite Hactive.
  destruct (MelodiaApp.lastPlaybackPoint app) as [last|] eqn:Hlast;
    [|by rewrite Hlast].
  destruct (PathManager.getPath _ _) as [path|]; [|by rewrite Hlast].
  destruct (AudioPath.audioData path) as [audio|]; [|by rewrite Hlast].
  destruct (negb (MelodiaApp.isMoving app) && bool_decide _); simpl.
  - rewrite decide_True by done. simpl. by rewrite Hlast.
  - destruct (negb (MelodiaApp.isMoving app)); [by rewrite Hlast|].
    rewrite decide_True by done. by rewrite Hlast.
Qed.

Lemma throttled_move_is_silent_witness :
  let app :=
    MelodiaApp.handleInputStart recorded_click (click_event true)
      (click_env None) in
  let app' := MelodiaApp.handleInputMove app stroke_move.1 stroke_move.2 in
  MelodiaApp.audioEngine app' = MelodiaApp.audioEngine app
  ∧ MelodiaApp.lastPlaybackPoint app' = MelodiaApp.lastPlaybackPoint app
  ∧ MelodiaApp.lastPlaybackTime app' = MelodiaApp.lastPlaybackTime app
  ∧ MelodiaApp.lastAudioPosition app' = MelodiaApp.lastAudioPosition app
  ∧ MelodiaApp.playbackIndicators app' = MelodiaApp.playbackIndicators app
  ∧ MelodiaApp.pathManager app' = MelodiaApp.pathManager app.
Proof.
  apply (throttled_move_is_silent _ stroke_move.1 stroke_move.2 "path-1").
  - apply recorded_click_press.
  - destruct recorded_click_state as (Hhit & _ & _).
    unfold MelodiaApp.handleInputStart.
    change (InputEvent.point (click_event true)) with (Point.mk 0 0 0 None).
    rewrite Hhit. simpl. lra.
Defined.

Lemma addPoints_missing (moves : list (Point.t * R)) : ∀ pm pathId,
  PathManager.getPath pm pathId = None → addPoints pm pathId moves = pm.
Proof.
  induction moves as [|[point now] moves IH]; intros pm pathId Hget; [done|].
  simpl. unfold PathManager.addPoint at 1.
  unfold PathManager.getPath in Hget. rewrite Hget. by apply IH.
Qed.

(** X16.  [clearCanvas] in the middle of a recording drops the gesture: the
    rest of its moves and its release find no path to extend, the payload of
    the recorder is attached to nothing, and the store is the empty store of
    a new [PathManager], with the counter back at 0 and no recording
    target. *)
Theorem clear_during_recording_drops_the_gesture (app : MelodiaApp.t)
  (recording : string) (moves : list (InputEvent.t * Env.t))
  (release : InputEvent.t * Env.t) :
  MelodiaApp.reachable app →
  MelodiaApp.mode_of app = MelodiaApp.Recording recording →
  let app' :=
    MelodiaApp.run app
      (MelodiaApp.ClearCanvas
       :: ((fun move => MelodiaApp.Move move.1 move.2) <$> moves)
       ++ [MelodiaApp.End_ release.1 release.2]) in
  MelodiaApp.pathManager app' = PathManager.new
  ∧ MelodiaApp.currentRecordingPath app' = None.
Proof.
  intros [[Hready _] _]%reachable_inv Hmode app'. subst app'.
  assert (Hcurrent :
    MelodiaApp.truthy (MelodiaApp.currentRecordingPath app) = Some recording).
  { unfold MelodiaApp.mode_of in Hmode.
    destruct (MelodiaApp.truthy (MelodiaApp.activePlaybackPath app)),
      (MelodiaApp.truthy (MelodiaApp.currentRecordingPath app));
      by inversion Hmode. }
  change (MelodiaApp.run app (?a :: ?l))
    with (MelodiaApp.run (MelodiaApp.step app a) l).
  change (MelodiaApp.step app MelodiaApp.ClearCanvas)
    with (MelodiaApp.clearCanvas app).
  rewrite run_app.
  rewrite (recording_moves moves _ recording) by done.
  rewrite addPoints_missing by done.
  rewrite set_pathManager_same.
  change (MelodiaApp.run ?a [MelodiaApp.End_ ?e ?v])
    with (MelodiaApp.handleInputEnd a e v).
  rewrite (handleInputEnd_recording _ recording) by done.
  simpl. split; [|done].
  unfold MelodiaApp.handleInputEnd_attach.
  destruct (AudioEngine.stopRecording _ _) as [engine [payload|]]; simpl;
    unfold PathManager.endRecording, PathManager.new; simpl; f_equal;
    apply set_eq; intros pathId; rewrite elem_of_difference;
    (split; [by intros [?%elem_of_empty _]|by intros ?%elem_of_empty]).
Qed.

Lemma clear_during_recording_drops_the_gesture_witness :
  let app' :=
    MelodiaApp.run pressed
      (MelodiaApp.ClearCanvas
       :: ((fun move => MelodiaApp.Move move.1 move.2) <$> [stroke_move])
       ++ [MelodiaApp.End_ (click_event false) (click_env (Some []))]) in
  MelodiaApp.pathManager app' = PathManager.new
  ∧ MelodiaApp.currentRecordingPath app' = None.
Proof.
  apply (clear_during_recording_drops_the_gesture pressed "path-1"
           [stroke_move] (click_event false, click_env (Some []))).
  - by exists true, [MelodiaApp.Start (click_event true) (click_env None)].
  - reflexivity.
Defined.

(** ** The touch handler *)

Lemma open_after_app (events1 events2 : list InputEvent.t) (open : gset Z) :
  open_after open (events1 ++ events2)
  = open_after (open_after open events1) events2.
Proof. unfold open_after. apply fold_left_app. Qed.

Lemma well_bracketed_app (events1 : list InputEvent.t) :
  ∀ (open : gset Z) (events2 : list InputEvent.t),
  well_bracketed open events1 →
  well_bracketed (open_after open events1) events2 →
  well_bracketed open (events1 ++ events2).
Proof.
  induction events1 as [|e events1 IH]; intros open events2 H1 H2; [done|].
  destruct H1 as [Hopen H1]. split; [done|]. by apply IH.
Qed.

Section Wired.
Context {C : Type} (start move end_ : C).
Implicit Types (th : TouchHandler.t C) (calls : list (C * InputEvent.t)).

Local Abbreviation has_callbacks th :=
  (TouchHandler.callbacks_onStart th = [start]
   ∧ TouchHandler.callbacks_onMove th = [move]
   ∧ TouchHandler.callbacks_onEnd th = [end_]).

Lemma tracks_nil th : has_callbacks th → tracks start move end_ th th [].
Proof. intros Hcb. split; [done|]. split; [apply Forall_nil_2|]. done. Qed.

Lemma tracks_app th1 th2 th3 calls1 calls2 :
  tracks start move end_ th1 th2 calls1 →
  tracks start move end_ th2 th3 calls2 →
  tracks start move end_ th1 th3 (calls1 ++ calls2).
Proof.
  intros (_ & Hr1 & Hb1 & Hd1) (Hcb & Hr2 & Hb2 & Hd2).
  split; [done|]. split; [by apply Forall_app|].
  rewrite fmap_app. split.
  - apply well_bracketed_app; [done|]. by rewrite <- Hd1.
  - by rewrite open_after_app, <- Hd1.
Qed.

Lemma for_changedTouches_tracks
  (body : TouchHandler.t C → Touch.t
          → TouchHandler.t C * list (C * InputEvent.t)) :
  (∀ th touch, has_callbacks th →
     tracks start move end_ th (body th touch).1 (body th touch).2) →
  ∀ changedTouches th, has_callbacks th →
    tracks start move end_ th
      (TouchHandler.for_changedTouches body th changedTouches).1
      (TouchHandler.for_changedTouches body th changedTouches).2.
Proof.
  intros Hbody. induction changedTouches as [|touch rest IH]; intros th Hcb.
  - by apply tracks_nil.
  - simpl. specialize (Hbody th touch Hcb).
    destruct (body th touch) as [th1 calls1]. simpl in Hbody.
    specialize (IH th1 (proj1 Hbody)).
    destruct (TouchHandler.for_changedTouches body th1 rest) as [th2 calls2].
    simpl in *. by eapply tracks_app.
Qed.

Lemma start_tracks th (type : InputType) (point : Point.t) (id : Z)
  (state : TouchState.t) :
  has_callbacks th →
  tracks start move end_ th
    (TouchHandler.set_activeTouches th
       (<[ id := state ]> (TouchHandler.activeTouches th)))
    (TouchHandler.forEach (TouchHandler.callbacks_onStart th)
       (InputEvent.mk type point true false id)).
Proof.
  intros (Hs & Hm & He). split; [done|]. rewrite Hs. simpl.
  split; [apply Forall_cons_2; [done|apply Forall_nil_2]|].
  split; [done|]. unfold open_after, open_after_event. simpl.
  apply dom_insert_L.
Qed.

Lemma move_tracks th (type : InputType) (point : Point.t) (id : Z)
  (state : TouchState.t) :
  has_callbacks th →
  is_Some (TouchHandler.activeTouches th !! id) →
  tracks start move end_ th
    (TouchHandler.set_activeTouches th
       (<[ id := state ]> (TouchHandler.activeTouches th)))
    (TouchHandler.forEach (TouchHandler.callbacks_onMove th)
       (InputEvent.mk type point false false id)).
Proof.
  intros (Hs & Hm & He) Hdown. split; [done|]. rewrite Hm. simpl.
  split; [apply Forall_cons_2; [done|apply Forall_nil_2]|].
  split; [split; [|done]; intros _; by apply elem_of_dom|].
  unfold open_after, open_after_event. simpl.
  by apply dom_insert_lookup_L.
Qed.

Lemma end_tracks th (type : InputType) (point : Point.t) (id : Z) :
  has_callbacks th →
  is_Some (TouchHandler.activeTouches th !! id) →
  tracks start move end_ th
    (TouchHandler.set_activeTouches th
       (delete id (TouchHandler.activeTouches th)))
    (TouchHandler.forEach (TouchHandler.callbacks_onEnd th)
       (InputEvent.mk type point false true id)).
Proof.
  intros (Hs & Hm & He) Hdown. split; [done|]. rewrite He. simpl.
  split; [apply Forall_cons_2; [done|apply Forall_nil_2]|].
  split; [split; [|done]; intros _; by apply elem_of_dom|].
  unfold open_after, open_after_event. simpl.
  apply dom_delete_L.
Qed.

Lemma dispatch_tracks th (event : TouchHandler.dom_event) :
  has_callbacks th →
  tracks start move end_ th (TouchHandler.dispatch th event).1
    (TouchHandler.dispatch th event).2.
Proof.
  intros Hcb.
  assert (Hstart : ∀ changedTouches th, has_callbacks th →
    tracks start move end_ th
      (TouchHandler.handleTouchStart th changedTouches).1
      (TouchHandler.handleTouchStart th changedTouches).2).
  { apply for_changedTouches_tracks. intros th' touch Hcb'.
    exact (start_tracks th' TOUCH _ _ _ Hcb'). }
  assert (Hmove : ∀ changedTouches th, has_callbacks th →
    tracks start move end_ th
      (TouchHandler.handleTouchMove th changedTouches).1
      (TouchHandler.handleTouchMove th changedTouches).2).
  { apply for_changedTouches_tracks. intros th' touch Hcb'.
    unfold TouchHandler.handleTouchMove_body.
    destruct (TouchHandler.activeTouches th' !! Touch.identifier touch)
      as [touchState|] eqn:Hdown; [|by apply tracks_nil].
    exact (move_tracks th' TOUCH _ _ _ Hcb' (mk_is_Some _ _ Hdown)). }
  assert (Hend : ∀ changedTouches th, has_callbacks th →
    tracks start move end_ th
      (TouchHandler.handleTouchEnd th changedTouches).1
      (TouchHandler.handleTouchEnd th changedTouches).2).
  { apply for_changedTouches_tracks. intros th' touch Hcb'.
    unfold TouchHandler.handleTouchEnd_body.
    destruct (TouchHandler.activeTouches th' !! Touch.identifier touch)
      as [touchState|] eqn:Hdown; [|by apply tracks_nil].
    exact (end_tracks th' TOUCH _ _ Hcb' (mk_is_Some _ _ Hdown)). }
  destruct event as [l|l|l|l|e|e|e|e]; simpl; auto.
  - exact (start_tracks th MOUSE _ _ _ Hcb).
  - unfold TouchHandler.handleMouseMove.
    destruct (TouchHandler.activeTouches th !! (-1)%Z) as [touchState|]
      eqn:Hdown; [|by apply tracks_nil].
    exact (move_tracks th MOUSE _ _ _ Hcb (mk_is_Some _ _ Hdown)).
  - unfold TouchHandler.handleMouseUp.
    destruct (TouchHandler.activeTouches th !! (-1)%Z) as [touchState|]
      eqn:Hdown; [|by apply tracks_nil].
    exact (end_tracks th MOUSE _ _ Hcb (mk_is_Some _ _ Hdown)).
  - unfold TouchHandler.handleMouseUp.
    destruct (TouchHandler.activeTouches th !! (-1)%Z) as [touchState|]
      eqn:Hdown; [|by apply tracks_nil].
    exact (end_tracks th MOUSE _ _ Hcb (mk_is_Some _ _ Hdown)).
Qed.

Lemma run_tracks (events : list TouchHandler.dom_event) : ∀ th,
  has_callbacks th →
  tracks start move end_ th (TouchHandler.run th events).1
    (TouchHandler.run th events).2.
Proof.
  induction events as [|event rest IH]; intros th Hcb.
  - by apply tracks_nil.
  - simpl. pose proof (dispatch_tracks th event Hcb) as Hstep.
    destruct (TouchHandler.dispatch th event) as [th1 calls1].
    simpl in Hstep. specialize (IH th1 (proj1 Hstep)).
    destruct (TouchHandler.run th1 rest) as [th2 calls2].
    simpl in *. by eapply tracks_app.
Qed.

End Wired.

(** X17.  With the callbacks set up as the coordinator does, whatever DOM
    events arrive, the input events that the touch handler passes on come in
    brackets: every move and every end is for a pointer that had a start and
    no end since.  Each event goes to the callback of its kind, and the
    pointers that the handler holds as down afterwards are exactly those
    that the events passed on leave open. *)
Theorem input_events_are_bracketed {C : Type} (start move end_ : C)
  (events : list TouchHandler.dom_event) :
  let th := TouchHandler.wired start move end_ in
  let calls := (TouchHandler.run th events).2 in
  well_bracketed ∅ calls.*2
  ∧ Forall (routed start move end_) calls
  ∧ dom (TouchHandler.activeTouches (TouchHandler.run th events).1)
    = open_after ∅ calls.*2.
Proof.
  intros th calls.
  destruct (run_tracks start move end_ events th) as (_ & Hr & Hb & Hd);
    [done|].
  subst th calls. simpl in Hb, Hd. rewrite dom_empty_L in Hb, Hd. done.
Qed.

Lemma forEach_nil {C : Type} (e : InputEvent.t) :
  TouchHandler.forEach (@nil C) e = [].
Proof. done. Qed.

Lemma run_without_callbacks {C : Type} (events : list TouchHandler.dom_event) :
  ∀ th : TouchHandler.t C,
  TouchHandler.callbacks_onStart th = [] →
  TouchHandler.callbacks_onMove th = [] →
  TouchHandler.callbacks_onEnd th = [] →
  (TouchHandler.run th events).2 = [].
Proof.
  assert (Hloop : ∀ (body : TouchHandler.t C → Touch.t
                            → TouchHandler.t C * list (C * InputEvent.t)),
    (∀ th touch,
       TouchHandler.callbacks_onStart th = [] →
       TouchHandler.callbacks_onMove th = [] →
       TouchHandler.callbacks_onEnd th = [] →
       (TouchHandler.callbacks_onStart (body th touch).1 = []
        ∧ TouchHandler.callbacks_onMove (body th touch).1 = []
        ∧ TouchHandler.callbacks_onEnd (body th touch).1 = [])
       ∧ (body th touch).2 = []) →
    ∀ changedTouches th,
      TouchHandler.callbacks_onStart th = [] →
      TouchHandler.callbacks_onMove th = [] →
      TouchHandler.callbacks_onEnd th = [] →
      (TouchHandler.callbacks_onStart
         (TouchHandler.for_changedTouches body th changedTouches).1 = []
       ∧ TouchHandler.callbacks_onMove
           (TouchHandler.for_changedTouches body th changedTouches).1 = []
       ∧ TouchHandler.callbacks_onEnd
           (TouchHandler.for_changedTouches body th changedTouches).1 = [])
      ∧ (TouchHandler.for_changedTouches body th changedTouches).2 = []).
  { intros body Hbody.
    induction changedTouches as [|touch rest IH]; intros th Hs Hm He;
      [done|].
    simpl. destruct (Hbody th touch Hs Hm He) as [(Hs1 & Hm1 & He1) Hout1].
    destruct (body th touch) as [th1 calls1]. simpl in *.
    destruct (IH th1 Hs1 Hm1 He1) as [Hcb2 Hout2].
    destruct (TouchHandler.for_changedTouches body th1 rest)
      as [th2 calls2].
    simpl in *. by rewrite Hout1, Hout2. }
  assert (Hstep : ∀ (event : TouchHandler.dom_event) (th : TouchHandler.t C),
    TouchHandler.callbacks_onStart th = [] →
    TouchHandler.callbacks_onMove th = [] →
    TouchHandler.callbacks_onEnd th = [] →
    (TouchHandler.callbacks_onStart (TouchHandler.dispatch th event).1 = []
     ∧ TouchHandler.callbacks_onMove (TouchHandler.dispatch th event).1 = []
     ∧ TouchHandler.callbacks_onEnd (TouchHandler.dispatch th event).1 = [])
    ∧ (TouchHandler.dispatch th event).2 = []).
  { intros event th Hs Hm He.
    destruct event as [l|l|l|l|e|e|e|e]; simpl.
    - apply Hloop; [|done..]. intros th' touch Hs' Hm' He'.
      unfold TouchHandler.handleTouchStart_body. simpl. by rewrite Hs'.
    - apply Hloop; [|done..]. intros th' touch Hs' Hm' He'.
      unfold TouchHandler.handleTouchMove_body.
      destruct (_ !! _); simpl; by rewrite ?Hm'.
    - apply Hloop; [|done..]. intros th' touch Hs' Hm' He'.
      unfold TouchHandler.handleTouchEnd_body.
      destruct (_ !! _); simpl; by rewrite ?He'.
    - apply Hloop; [|done..]. intros th' touch Hs' Hm' He'.
      unfold TouchHandler.handleTouchEnd_body.
      destruct (_ !! _); simpl; by rewrite ?He'.
    - unfold TouchHandler.handleMouseDown. simpl. by rewrite Hs.
    - unfold TouchHandler.handleMouseMove.
      destruct (_ !! _); simpl; by rewrite ?Hm.
    - unfold TouchHandler.handleMouseUp.
      destruct (_ !! _); simpl; by rewrite ?He.
    - unfold TouchHandler.handleMouseUp.
      destruct (_ !! _); simpl; by rewrite ?He. }
  induction events as [|event rest IH]; intros th Hs Hm He; [done|].
  simpl. destruct (Hstep event th Hs Hm He) as [(Hs1 & Hm1 & He1) Hout1].
  destruct (TouchHandler.dispatch th event) as [th1 calls1]. simpl in *.
  specialize (IH th1 Hs1 Hm1 He1).
  destruct (TouchHandler.run th1 rest) as [th2 calls2].
  simpl in *. by rewrite Hout1, IH.
Qed.

(** X18.  After [destroy] no callback is called again, whatever DOM events
    still arrive: the listeners stay on the canvas, but there is no callback
    left to call. *)
Theorem destroy_silences_the_handler {C : Type} (th : TouchHandler.t C)
  (events : list TouchHandler.dom_event) :
  (TouchHandler.run (TouchHandler.destroy th) events).2 = [].
Proof. by apply run_without_callbacks. Qed.

Lemma run_dom_app {C : Type} (events1 events2 : list TouchHandler.dom_event)
  (th : TouchHandler.t C) :
  TouchHandler.run th (events1 ++ events2)
  = (let '(th1, calls1) := TouchHandler.run th events1 in
     let '(th2, calls2) := TouchHandler.run th1 events2 in
     (th2, calls1 ++ calls2)).
Proof.
  revert th. induction events1 as [|event rest IH]; intros th; simpl.
  - by destruct (TouchHandler.run th events2).
  - destruct (TouchHandler.dispatch th event) as [th1 calls1].
    rewrite IH. destruct (TouchHandler.run th1 rest) as [th2 calls2].
    destruct (TouchHandler.run th2 events2) as [th3 calls3].
    by rewrite app_assoc.
Qed.

Lemma run_dom_cons {C : Type} (event : TouchHandler.dom_event)
  (rest : list TouchHandler.dom_event) (th : TouchHandler.t C) :
  TouchHandler.run th (event :: rest)
  = (let '(th1, calls1) := TouchHandler.dispatch th event in
     let '(th2, calls2) := TouchHandler.run th1 rest in
     (th2, calls1 ++ calls2)).
Proof. done. Qed.

(** Mouse moves while the button is down: each is passed on, and the
    pointer -1 stays down. *)
Lemma mouse_moves_while_down {C : Type} (moves : list MouseEvent.t) :
  ∀ th : TouchHandler.t C,
  is_Some (TouchHandler.activeTouches th !! (-1)%Z) →
  let result :=
    TouchHandler.run th (TouchHandler.mousemove <$> moves) in
  result.2
  = moves ≫= (fun e =>
      TouchHandler.forEach (TouchHandler.callbacks_onMove th)
        (mouse_input false false e))
  ∧ is_Some (TouchHandler.activeTouches result.1 !! (-1)%Z)
  ∧ TouchHandler.callbacks_onEnd result.1 = TouchHandler.callbacks_onEnd th
  ∧ ∀ id, id ≠ (-1)%Z →
      TouchHandler.activeTouches result.1 !! id
      = TouchHandler.activeTouches th !! id.
Proof.
  induction moves as [|e rest IH]; intros th Hdown; [done|].
  rewrite fmap_cons, run_dom_cons.
  change (TouchHandler.dispatch th (TouchHandler.mousemove e))
    with (TouchHandler.handleMouseMove th e).
  unfold TouchHandler.handleMouseMove.
  destruct Hdown as [touchState Hdown]. rewrite Hdown.
  set (th1 := TouchHandler.set_activeTouches th _).
  destruct (IH th1) as (Hcalls & Hdown' & Hcb & Hother).
  { subst th1. simpl. rewrite lookup_insert_eq. by eexists. }
  destruct (TouchHandler.run th1 (TouchHandler.mousemove <$> rest))
    as [th2 calls2].
  simpl in *. split; [by rewrite Hcalls|]. split; [done|]. split; [done|].
  intros id Hne. rewrite Hother by done.
  by rewrite lookup_insert_ne.
Qed.

(** What a mouse drag passes on. *)
Lemma mouse_drag_calls {C : Type} (th : TouchHandler.t C)
  (press release : MouseEvent.t) (moves : list MouseEvent.t) :
  let result :=
    TouchHandler.run th
      (TouchHandler.mousedown press
       :: (TouchHandler.mousemove <$> moves)
       ++ [TouchHandler.mouseup release]) in
  result.2
  = TouchHandler.forEach (TouchHandler.callbacks_onStart th)
      (mouse_input true false press)
    ++ (moves ≫= (fun e =>
          TouchHandler.forEach (TouchHandler.callbacks_onMove th)
            (mouse_input false false e)))
    ++ TouchHandler.forEach (TouchHandler.callbacks_onEnd th)
         (mouse_input false true release)
  ∧ TouchHandler.activeTouches result.1 !! (-1)%Z = None
  ∧ ∀ id, id ≠ (-1)%Z →
      TouchHandler.activeTouches result.1 !! id
      = TouchHandler.activeTouches th !! id.
Proof.
  intros result. subst result. rewrite run_dom_cons.
  change (TouchHandler.dispatch th (TouchHandler.mousedown press))
    with (TouchHandler.handleMouseDown th press).
  unfold TouchHandler.handleMouseDown.
  set (th1 := TouchHandler.set_activeTouches th _).
  rewrite run_dom_app.
  destruct (mouse_moves_while_down moves th1)
    as (Hcalls & [touchState Hdown] & Hcb & Hother).
  { subst th1. simpl. rewrite lookup_insert_eq. by eexists. }
  destruct (TouchHandler.run th1 (TouchHandler.mousemove <$> moves))
    as [th2 calls2].
  simpl in *. unfold TouchHandler.handleMouseUp. rewrite Hdown. simpl.
  rewrite Hcalls, Hcb, app_nil_r. split; [done|].
  split; [apply lookup_delete_eq|].
  intros id Hne. rewrite lookup_delete_ne by done.
  rewrite Hother by done. by rewrite lookup_insert_ne.
Qed.

(** X19.  A mouse drag is passed on as one gesture: the press as a start, every
    move as a move and the release as an end, all for pointer -1 and with the
    client coordinates taken relative to the canvas.  Afterwards the pointer
    -1 is up and the pointers of the touches are as before. *)
Theorem mouse_drag_is_one_gesture {C : Type} (th : TouchHandler.t C)
  (press release : MouseEvent.t) (moves : list MouseEvent.t) :
  let result :=
    TouchHandler.run th
      (TouchHandler.mousedown press
       :: (TouchHandler.mousemove <$> moves)
       ++ [TouchHandler.mouseup release]) in
  result.2
  = TouchHandler.forEach (TouchHandler.callbacks_onStart th)
      (mouse_input true false press)
    ++ (moves ≫= (fun e =>
          TouchHandler.forEach (TouchHandler.callbacks_onMove th)
            (mouse_input false false e)))
    ++ TouchHandler.forEach (TouchHandler.callbacks_onEnd th)
         (mouse_input false true release)
  ∧ TouchHandler.activeTouches result.1 !! (-1)%Z = None
  ∧ ∀ id, id ≠ (-1)%Z →
      TouchHandler.activeTouches result.1 !! id
      = TouchHandler.activeTouches th !! id.
Proof. apply mouse_drag_calls. Qed.

(** ** Playback *)

Lemma decode_if_not_cached_Some (ae ae1 : Playback.t) (audioData : ArrayBuffer)
  (playbackId : string) (decoded : option R) (audioBuffer : AudioBuffer.t) :
  Playback.decode_if_not_cached ae audioData playbackId decoded
  = Some (ae1, audioBuffer) →
  Playback.audioContext ae1 = Playback.audioContext ae
  ∧ Playback.sources ae1 = Playback.sources ae
  ∧ Playback.activeSources ae1 = Playback.activeSources ae
  ∧ Playback.audioBuffers ae1 !! playbackId = Some audioBuffer
  ∧ (∀ other, other ≠ playbackId →
       Playback.audioBuffers ae1 !! other = Playback.audioBuffers ae !! other)
  ∧ (∀ cachedBuffer,
       Playback.audioBuffers ae !! playbackId = Some cachedBuffer →
       audioBuffer = cachedBuffer ∧ ae1 = ae).
Proof.
  unfold Playback.decode_if_not_cached.
  destruct (Playback.audioBuffers ae !! playbackId) as [b|] eqn:Hcache.
  - intros [= <- <-]. do 5 (split; [done|]). by intros ? [= ->].
  - destruct decoded as [duration|]; [|done]. intros [= <- <-]. simpl.
    do 3 (split; [done|]). split; [apply lookup_insert_eq|].
    split; [|done]. intros other Hne. by rewrite lookup_insert_ne.
Qed.

Lemma stop_keeps (s : Source.t) :
  Source.onended (Source.stop s) = Source.onended s
  ∧ Source.buffer (Source.stop s) = Source.buffer s.
Proof. unfold Source.stop. by destruct (Source.started s). Qed.

Lemma lookup_alter_stop (sources : list Source.t) (stopped source : nat)
  (s : Source.t) :
  alter Source.stop stopped sources !! source = Some s →
  ∃ s0, sources !! source = Some s0
        ∧ Source.onended s = Source.onended s0
        ∧ Source.buffer s = Source.buffer s0
        ∧ (source ≠ stopped → s = s0).
Proof.
  destruct (decide (source = stopped)) as [->|Hne].
  - rewrite list_lookup_alter_eq.
    destruct (sources !! stopped) as [s0|]; [|done].
    intros [= <-]. exists s0. destruct (stop_keeps s0) as [-> ->]. done.
  - rewrite list_lookup_alter_ne by done. intros Hs. by exists s.
Qed.

Lemma registry_ok_stopPlayback (ae : Playback.t) (playbackId : string) :
  registry_ok ae → registry_ok (Playback.stopPlayback ae playbackId).
Proof.
  intros [Hactive Hbuffers]. unfold Playback.stopPlayback.
  destruct (Playback.activeSources ae !! playbackId) as [stopped|] eqn:Hid;
    [|done].
  split; simpl.
  - intros other source [Hne Hother]%lookup_delete_Some.
    destruct (Hactive other source Hother) as (s & Hs & Hended & Hrunning).
    exists s. split; [|done].
    rewrite list_lookup_alter_ne; [done|]. intros <-.
    destruct (Hactive playbackId stopped Hid) as (s' & Hs' & Hended' & _).
    congruence.
  - intros source s (s0 & Hs0 & -> & -> & _)%lookup_alter_stop. eauto.
Qed.

Lemma registry_ok_decode (ae ae1 : Playback.t) (audioData : ArrayBuffer)
  (playbackId : string) (decoded : option R) (audioBuffer : AudioBuffer.t) :
  Playback.decode_if_not_cached ae audioData playbackId decoded
  = Some (ae1, audioBuffer) →
  registry_ok ae → registry_ok ae1.
Proof.
  unfold Playback.decode_if_not_cached.
  destruct (Playback.audioBuffers ae !! playbackId) as [b|] eqn:Hcache.
  - by intros [= <- <-].
  - destruct decoded as [duration|]; [|done].
    intros [= <- <-] [Hactive Hbuffers]. split; simpl; [done|].
    intros source s Hs. specialize (Hbuffers source s Hs).
    rewrite lookup_insert_ne; [done|]. intros Heq. congruence.
Qed.

Lemma registry_ok_register (ae : Playback.t) (playbackId : string)
  (s : Source.t) :
  registry_ok ae →
  Source.onended s = playbackId →
  Source.stopped s = false →
  Playback.audioBuffers ae !! playbackId = Some (Source.buffer s) →
  registry_ok (Playback.register ae playbackId s).
Proof.
  intros [Hactive Hbuffers] Hended Hrunning Hcache. split; simpl.
  - intros other source.
    destruct (decide (playbackId = other)) as [<-|Hne].
    + rewrite lookup_insert_eq. intros [= <-]. exists s.
      split; [|done]. by apply list_lookup_middle.
    + rewrite lookup_insert_ne by done. intros Hother.
      destruct (Hactive other source Hother) as (s' & Hs' & ? & ?).
      exists s'. split; [|done]. by apply lookup_app_l_Some.
  - intros source s' [Hold|[_ Hnew]]%lookup_app_Some; [eauto|].
    destruct (source - length (Playback.sources ae))%nat; [|done].
    simpl in Hnew. injection Hnew as Heq. rewrite <- Heq, Hended. exact Hcache.
Qed.

Lemma registry_ok_step (ae : Playback.t) (e : Playback.event) :
  registry_ok ae → registry_ok (Playback.step ae e).
Proof.
  intros Hok.
  destruct e as [audioData playbackId position rate decoded
                |audioData playbackId position duration decoded
                |playbackId|source]; simpl.
  - unfold Playback.playAudioAtPosition.
    destruct (negb (Playback.audioContext ae)); [done|].
    pose proof (registry_ok_stopPlayback ae playbackId Hok) as Hok1.
    destruct (Playback.decode_if_not_cached _ _ _ _) as [[ae1 b]|] eqn:Hd;
      [|done].
    pose proof (registry_ok_decode _ _ _ _ _ _ Hd Hok1) as Hok2.
    apply decode_if_not_cached_Some in Hd as (_ & _ & _ & Hcache & _).
    destruct (decide (_ < 0)); simpl; by apply registry_ok_register.
  - unfold Playback.createLoop.
    destruct (negb (Playback.audioContext ae)); [done|].
    pose proof (registry_ok_stopPlayback ae playbackId Hok) as Hok1.
    destruct (Playback.decode_if_not_cached _ _ _ _) as [[ae1 b]|] eqn:Hd;
      [|done].
    pose proof (registry_ok_decode _ _ _ _ _ _ Hd Hok1) as Hok2.
    apply decode_if_not_cached_Some in Hd as (_ & _ & _ & Hcache & _).
    destruct (decide (_ < 5 / 100)); simpl; [done|].
    by apply registry_ok_register.
  - by apply registry_ok_stopPlayback.
  - unfold Playback.onended.
    destruct (Playback.sources ae !! source) as [s|]; [|done].
    destruct Hok as [Hactive Hbuffers]. split; simpl; [|done].
    intros other source' [_ Hother]%lookup_delete_Some. eauto.
Qed.

Lemma registry_ok_run (events : list Playback.event) : ∀ ae,
  registry_ok ae → registry_ok (Playback.run ae events).
Proof.
  induction events as [|e rest IH]; intros ae Hok; [done|].
  simpl. apply IH. by apply registry_ok_step.
Qed.

(** X22.  Whatever commands and [ended] events the engine gets, its registry
    stays consistent: a source that is registered exists, was created for
    the id it is registered under and has not been stopped, and every source
    plays the buffer that is cached under its id. *)
Theorem registry_stays_consistent (audioContext_ok : bool)
  (events : list Playback.event) :
  registry_ok (Playback.run (Playback.new audioContext_ok) events).
Proof. apply registry_ok_run. by split. Qed.

Lemma plays_cached_step (before ae : Playback.t) (playbackId : string)
  (audioBuffer : AudioBuffer.t) (e : Playback.event) :
  plays_cached before playbackId audioBuffer ae →
  plays_cached before playbackId audioBuffer (Playback.step ae e).
Proof.
  intros Hplays.
  assert (Hstop : ∀ ae id,
    plays_cached before playbackId audioBuffer ae →
    plays_cached before playbackId audioBuffer (Playback.stopPlayback ae id)).
  { intros ae0 id (Hcache & Hlen & Hsources). unfold Playback.stopPlayback.
    destruct (Playback.activeSources ae0 !! id) as [stopped|]; [|done].
    split; [done|]. simpl. rewrite length_alter. split; [done|].
    intros source s (s0 & Hs0 & -> & -> & _)%lookup_alter_stop. eauto. }
  assert (Hregister : ∀ ae id ae1 audioData decoded b s,
    plays_cached before playbackId audioBuffer ae →
    Playback.decode_if_not_cached ae audioData id decoded = Some (ae1, b) →
    Source.buffer s = b →
    Source.onended s = id →
    plays_cached before playbackId audioBuffer ae1
    ∧ plays_cached before playbackId audioBuffer (Playback.register ae1 id s)).
  { intros ae0 id ae1 audioData decoded b s (Hcache & Hlen & Hsources) Hd Hb
      Hended.
    apply decode_if_not_cached_Some in Hd
      as (_ & Hsrc & _ & Hnew & Hothers & Hsame).
    assert (Hcache1 :
      Playback.audioBuffers ae1 !! playbackId = Some audioBuffer).
    { destruct (decide (playbackId = id)) as [<-|Hne].
      - by destruct (Hsame _ Hcache) as [_ ->].
      - by rewrite Hothers. }
    split.
    - split; [done|]. rewrite Hsrc. done.
    - split; [done|]. simpl. rewrite length_app, Hsrc. split; [lia|].
      intros source s' [Hold|[_ Hlast]]%lookup_app_Some; [eauto|].
      destruct (source - length (Playback.sources ae0))%nat; [|done].
      simpl in Hlast. injection Hlast as Heq. intros _ Hid.
      rewrite <- Heq in Hid |- *. rewrite Hb.
      assert (id = playbackId) as -> by congruence.
      by destruct (Hsame _ Hcache) as [-> _]. }
  destruct e as [audioData id position rate decoded
                |audioData id position duration decoded
                |id|source]; simpl.
  - unfold Playback.playAudioAtPosition.
    destruct (negb (Playback.audioContext ae)); [done|].
    specialize (Hstop ae id Hplays).
    destruct (Playback.decode_if_not_cached _ _ _ _) as [[ae1 b]|] eqn:Hd;
      [|done].
    destruct (decide (_ < 0)); simpl;
      by apply (Hregister _ _ _ _ _ _ _ Hstop Hd).
  - unfold Playback.createLoop.
    destruct (negb (Playback.audioContext ae)); [done|].
    specialize (Hstop ae id Hplays).
    destruct (Playback.decode_if_not_cached _ _ _ _) as [[ae1 b]|] eqn:Hd;
      [|done].
    destruct (decide (_ < 5 / 100)); simpl.
    + by apply (Hregister _ _ _ _ _ _
                  (Source.mk b 0 false 0 0 id None false) Hstop Hd).
    + by apply (Hregister _ _ _ _ _ _ _ Hstop Hd).
  - by apply Hstop.
  - unfold Playback.onended.
    by destruct (Playback.sources ae !! source).
Qed.

(** X23.  The first decoded buffer of an id fixes its audio.  Once a buffer is
    cached for an id, whatever commands and [ended] events follow and
    whatever payloads the commands carry, the buffer stays the one cached,
    and every source that is created for the id plays it. *)
Theorem first_decode_fixes_the_audio (ae : Playback.t) (playbackId : string)
  (audioBuffer : AudioBuffer.t) (events : list Playback.event) :
  Playback.audioBuffers ae !! playbackId = Some audioBuffer →
  plays_cached ae playbackId audioBuffer (Playback.run ae events).
Proof.
  intros Hcache.
  assert (Hstart : plays_cached ae playbackId audioBuffer ae).
  { split; [done|]. split; [done|]. intros source s Hs Hle.
    apply lookup_lt_Some in Hs. lia. }
  revert Hstart. generalize ae at 2 4.
  induction events as [|e rest IH]; intros ae' Hplays; [done|].
  simpl. apply IH. by apply plays_cached_step.
Qed.

Lemma first_decode_fixes_the_audio_witness :
  plays_cached cached "path-1" (AudioBuffer.mk [] 1)
    (Playback.run cached
       [Playback.CreateLoop [Byte.x01] "path-1" 0 (2 / 10) (Some 7)]).
Proof.
  apply (first_decode_fixes_the_audio cached "path-1" (AudioBuffer.mk [] 1)
           [Playback.CreateLoop [Byte.x01] "path-1" 0 (2 / 10) (Some 7)]).
  reflexivity.
Defined.

Lemma onended_Some (ae : Playback.t) (source : nat) (s : Source.t) :
  Playback.sources ae !! source = Some s →
  Playback.onended ae source
  = Playback.mk (Playback.audioContext ae) (Playback.sources ae)
      (delete (Source.onended s) (Playback.activeSources ae))
      (Playback.audioBuffers ae).
Proof. unfold Playback.onended. by intros ->. Qed.

(** X24.  The [onended] handler of a source deletes whatever is registered
    under its id, also a later source.  When a play replaces the source of
    an id and the [ended] event of the replaced source is then handled, the
    new source is no longer registered although it sounds: [isPlaying] is
    false for the id, and [stopPlayback] for the id does nothing. *)
Theorem stale_onended_unregisters_the_successor (audioContext_ok : bool)
  (events : list Playback.event) (playbackId : string) (old : nat)
  (audioData : ArrayBuffer) (position rate : R) (decoded : option R) :
  let ae := Playback.run (Playback.new audioContext_ok) events in
  let result :=
    Playback.playAudioAtPosition ae audioData playbackId position rate
      decoded in
  let ae' := Playback.onended result.1 old in
  Playback.activeSources ae !! playbackId = Some old →
  result.2 = true →
  Playback.isPlaying result.1 playbackId = true
  ∧ Playback.isPlaying ae' playbackId = false
  ∧ Playback.stopPlayback ae' playbackId = ae'
  ∧ ∃ s, Playback.sources ae' !! length (Playback.sources ae) = Some s
         ∧ Source.onended s = playbackId
         ∧ Source.sounding s.
Proof.
  intros ae result ae' Hold Hsuccess.
  assert (Hok : registry_ok ae) by (apply registry_ok_run; by split).
  destruct Hok as [Hactive _].
  destruct (Hactive playbackId old Hold) as (s_old & Hs_old & Hended & _).
  assert (Hresult : ∃ ae2 new,
    result.1 = Playback.register ae2 playbackId new
    ∧ Playback.sources ae2 = alter Source.stop old (Playback.sources ae)
    ∧ Source.onended new = playbackId
    ∧ Source.sounding new).
  { revert Hsuccess. subst result. unfold Playback.playAudioAtPosition.
    destruct (negb (Playback.audioContext ae)); [done|].
    unfold Playback.stopPlayback. rewrite Hold.
    destruct (Playback.decode_if_not_cached _ _ _ _) as [[ae2 b]|] eqn:Hd;
      [|done].
    apply decode_if_not_cached_Some in Hd as (_ & Hsources & _).
    destruct (decide (_ < 0)) as [Hneg|Hpos]; [done|]. intros _.
    eexists _, _. split; [reflexivity|]. split; [exact Hsources|].
    split; [done|]. split; [by eexists|done]. }
  destruct Hresult as (ae2 & new & Hresult & Hsources & Hnew & Hsounding).
  subst ae'. rewrite Hresult.
  assert (Hlen : length (Playback.sources ae2) = length (Playback.sources ae))
    by (rewrite Hsources; apply length_alter).
  assert (Hstale :
    Playback.sources (Playback.register ae2 playbackId new) !! old
    = Some (Source.stop s_old)).
  { simpl. rewrite Hsources. apply lookup_app_l_Some.
    rewrite list_lookup_alter_eq. by rewrite Hs_old. }
  split.
  { unfold Playback.isPlaying. apply bool_decide_eq_true. simpl.
    rewrite lookup_insert_eq. by eexists. }
  rewrite (onended_Some _ _ _ Hstale).
  destruct (stop_keeps s_old) as [-> _]. rewrite Hended.
  split; [|split].
  - unfold Playback.isPlaying. apply bool_decide_eq_false. simpl.
    rewrite lookup_delete_eq. by intros [? ?].
  - unfold Playback.stopPlayback. simpl. by rewrite lookup_delete_eq.
  - exists new. simpl. rewrite <- Hlen.
    split; [by apply list_lookup_middle|]. done.
Qed.

Lemma looping_reachable :
  looping
  = Playback.run (Playback.new true)
      [Playback.CreateLoop [] "path-1" 0 (2 / 10) (Some 1)].
Proof.
  unfold Playback.run, looping. simpl. unfold Playback.createLoop. simpl.
  change (Playback.decode_if_not_cached _ _ _ _)
    with (Some (Playback.mk true [] ∅ {[ "path-1" := AudioBuffer.mk [] 1 ]},
                AudioBuffer.mk [] 1)).
  simpl. unfold JS.max, JS.min. decide_reals. simpl.
  unfold Playback.register. simpl. f_equal.
  f_equal. f_equal; lra.
Qed.

Lemma stale_onended_unregisters_the_successor_witness :
  let ae :=
    Playback.run (Playback.new true)
      [Playback.CreateLoop [] "path-1" 0 (2 / 10) (Some 1)] in
  let result :=
    Playback.playAudioAtPosition ae [] "path-1" (1 / 2) 1 None in
  let ae' := Playback.onended result.1 0 in
  Playback.isPlaying result.1 "path-1" = true
  ∧ Playback.isPlaying ae' "path-1" = false
  ∧ Playback.stopPlayback ae' "path-1" = ae'
  ∧ ∃ s, Playback.sources ae' !! length (Playback.sources ae) = Some s
         ∧ Source.onended s = "path-1"
         ∧ Source.sounding s.
Proof.
  apply (stale_onended_unregisters_the_successor true
           [Playback.CreateLoop [] "path-1" 0 (2 / 10) (Some 1)] "path-1" 0
           [] (1 / 2) 1 None).
  - rewrite <- looping_reachable. reflexivity.
  - rewrite <- looping_reachable.
    unfold Playback.playAudioAtPosition. simpl.
    change (Playback.decode_if_not_cached _ _ _ _)
      with (Some (Playback.stopPlayback looping "path-1",
                  AudioBuffer.mk [] 1)).
    simpl. unfold JS.max, JS.min. decide_reals. reflexivity.
Defined.

(** ** The renderer *)

Lemma stack_depth_app (limit : nat) (ops1 : list Canvas.op) :
  ∀ (depth depth' : nat) (ops2 : list Canvas.op),
  stack_depth limit depth ops1 = Some depth' →
  stack_depth limit depth (ops1 ++ ops2) = stack_depth limit depth' ops2.
Proof.
  induction ops1 as [|op ops1 IH]; intros depth depth' ops2; simpl.
  - by intros [= ->].
  - destruct op; try (by apply IH).
    + destruct (decide (depth < limit)%nat); [by apply IH|done].
    + destruct depth as [|depth0]; [done|by apply IH].
Qed.

Lemma balanced_app (ops1 ops2 : list Canvas.op) :
  balanced ops1 → balanced ops2 → balanced (ops1 ++ ops2).
Proof.
  unfold balanced. intros H1 H2. by rewrite (stack_depth_app _ _ _ _ _ H1).
Qed.

Lemma drawPath_loop_depth (points : list Point.t) (limit depth : nat) :
  stack_depth limit depth (CanvasRenderer.drawPath_loop points) = Some depth.
Proof.
  induction points as [|p [|q rest] IH]; try done.
Qed.

Lemma drawPath_balanced (path : AudioPath.t) (isActive : bool)
  (drawn : list Canvas.op) :
  CanvasRenderer.drawPath path isActive = PathManager.Return drawn →
  balanced drawn.
Proof.
  unfold CanvasRenderer.drawPath, CanvasRenderer.drawSinglePoint, balanced.
  destruct (AudioPath.points path) as [|first [|second rest]]; simpl;
    [done| |].
  - intros [= <-]. by destruct (isActive || _).
  - intros [= <-].
    assert (Htail : ∀ tail,
      stack_depth 1 1
        (CanvasRenderer.drawPath_loop (second :: rest) ++ tail)
      = stack_depth 1 1 tail).
    { intros tail. apply stack_depth_app, drawPath_loop_depth. }
    destruct (isActive || _); simpl; by rewrite Htail.
Qed.

Lemma drawAllPaths_forEach_balanced (paths : list AudioPath.t)
  (activePaths : gset string) : ∀ drawn,
  CanvasRenderer.drawAllPaths_forEach paths activePaths
  = PathManager.Return drawn →
  balanced drawn.
Proof.
  induction paths as [|path rest IH]; simpl; intros drawn.
  - by intros [= <-].
  - destruct (CanvasRenderer.drawPath path _) as [drawn1|] eqn:Hpath;
      [|done].
    destruct (CanvasRenderer.drawAllPaths_forEach rest activePaths)
      as [drawn2|]; [|done].
    intros [= <-]. apply balanced_app; [|by apply IH].
    by eapply drawPath_balanced.
Qed.

(** X25.  Every drawing method of the renderer that returns leaves the state
    stack of the context as it found it: it saves and restores in pairs,
    and never holds more than one saved state. *)
Theorem drawing_saves_and_restores_in_pairs (rect_width rect_height : R)
  (paths : list AudioPath.t) (activePaths : gset string)
  (point : Point.t) (intensity now : R) :
  match
    CanvasRenderer.drawAllPaths rect_width rect_height paths activePaths
  with
  | PathManager.Return drawn => balanced drawn
  | PathManager.TypeError => True
  end
  ∧ balanced (CanvasRenderer.drawActivePoint point intensity now)
  ∧ balanced (CanvasRenderer.drawPlaybackIndicator point intensity).
Proof.
  split; [|by split].
  unfold CanvasRenderer.drawAllPaths.
  destruct (CanvasRenderer.drawAllPaths_forEach paths activePaths)
    as [drawn'|] eqn:Hall; [|done].
  apply balanced_app; [done|]. by eapply drawAllPaths_forEach_balanced.
Qed.

Lemma drawPath_default_style (path : AudioPath.t) (isActive : bool) :
  AudioPath.points path ≠ [] →
  AudioPath.style path = PathManager.getDefaultStyle →
  ∃ drawn,
    CanvasRenderer.drawPath path isActive = PathManager.Return drawn
    ∧ CanvasRenderer.drawPath path false = PathManager.Return drawn.
Proof.
  intros Hpoints Hstyle.
  assert (Hglow :
    bool_decide (PathStyle.glowIntensity (AudioPath.style path) > 0) = true).
  { apply bool_decide_eq_true. rewrite Hstyle. simpl. lra. }
  unfold CanvasRenderer.drawPath, CanvasRenderer.drawSinglePoint.
  destruct (AudioPath.points path) as [|first [|second rest]]; [done| |];
    simpl; rewrite Hglow, orb_true_r; by eexists.
Qed.

Lemma JsMap_values_get {V : Type} (m : JsMap.t V) (v : V) :
  NoDup (JsMap.keys m) → v ∈ JsMap.values m →
  ∃ k, JsMap.get m k = Some v.
Proof.
  unfold JsMap.keys, JsMap.values.
  induction m as [|[k' v'] m IH]; simpl; intros Hnd Hin.
  - by apply elem_of_nil in Hin.
  - apply NoDup_cons in Hnd as [Hfresh Hnd].
    apply elem_of_cons in Hin as [->|Hin].
    + exists k'. by rewrite decide_True.
    + destruct (IH Hnd Hin) as [k Hk]. exists k.
      rewrite decide_False; [done|]. intros ->.
      apply Hfresh. apply JsMap_get_Some_key in Hk. exact Hk.
Qed.

Lemma drawAllPaths_forEach_default_style (paths : list AudioPath.t) :
  Forall (fun path =>
            AudioPath.points path ≠ []
            ∧ AudioPath.style path = PathManager.getDefaultStyle) paths →
  ∃ drawn, ∀ activePaths,
    CanvasRenderer.drawAllPaths_forEach paths activePaths
    = PathManager.Return drawn.
Proof.
  induction paths as [|path rest IH]; intros Hall.
  - by exists [].
  - apply Forall_cons in Hall as [[Hpoints Hstyle] Hall].
    destruct (IH Hall) as (drawn2 & Hrest).
    destruct (drawPath_default_style path false Hpoints Hstyle)
      as (drawn1 & _ & Hpath0).
    exists (drawn1 ++ drawn2). intros activePaths.
    cbn [CanvasRenderer.drawAllPaths_forEach].
    destruct (drawPath_default_style path
                (bool_decide (AudioPath.id path ∈ activePaths))
                Hpoints Hstyle) as (drawn1' & -> & Hpath0').
    rewrite Hrest. congruence.
Qed.

(** X26.  Drawing the paths of a store never throws and never shows which
    paths are active.  In every store that the operations can build, every
    path has a point to draw and the default style, whose glow is on
    anyway; so [drawAllPaths] returns, and what it draws is the same
    whatever set of active paths it is given. *)
Theorem drawAllPaths_ignores_the_active_paths (ops : list store_op)
  (rect_width rect_height : R) :
  let paths := PathManager.getAllPaths (run_ops PathManager.new ops).1 in
  ∃ drawn, ∀ activePaths,
    CanvasRenderer.drawAllPaths rect_width rect_height paths activePaths
    = PathManager.Return drawn.
Proof.
  intros paths.
  destruct (store_wf_run_ops ops PathManager.new store_wf_new)
    as (Hnd & Hpaths & _).
  assert (Hall :
    Forall (fun path =>
              AudioPath.points path ≠ []
              ∧ AudioPath.style path = PathManager.getDefaultStyle) paths).
  { apply Forall_forall. intros path Hin.
    destruct (JsMap_values_get _ _ Hnd Hin) as [k Hk].
    destruct (Hpaths k path Hk) as (_ & Hpoints & Hstyle). done. }
  destruct (drawAllPaths_forEach_default_style paths Hall) as (drawn & Hdrawn).
  exists (CanvasRenderer.clear rect_width rect_height ++ drawn).
  intros activePaths. unfold CanvasRenderer.drawAllPaths.
  by rewrite Hdrawn.
Qed.

(** ** From DOM events to stored paths *)

Lemma deliver_moves (moves : list (MouseEvent.t * Env.t))
  (calls' : list ((InputEvent.t → Env.t → MelodiaApp.action) * InputEvent.t))
  (envs' : list Env.t) :
  deliver
    ((moves.*1 ≫= (fun e =>
        TouchHandler.forEach [MelodiaApp.Move] (mouse_input false false e)))
     ++ calls')
    (moves.*2 ++ envs')
  = ((fun move => MelodiaApp.Move move.1 move.2)
     <$> ((fun move => (mouse_input false false move.1, move.2)) <$> moves))
    ++ deliver calls' envs'.
Proof.
  induction moves as [|[e env] moves IH]; [done|].
  simpl. f_equal. exact IH.
Qed.

(** X27.  From the DOM to the store.  With the touch handler wired to the
    coordinator as [setupEventHandlers] does, a mouse drag that starts on
    empty canvas while the coordinator is idle and the audio engine is ready
    ends up as one new path.  Its points are the client coordinates of the
    press, of every move and of the release, taken relative to the canvas,
    in order; each carries the clock reading of the coordinator's handler,
    not the one that the touch handler took.  When the handler of the
    release has finished the coordinator is idle again.  With the engine
    ready [handleInputStart] does not ask for the microphone, so the path
    exists before the first [mousemove] is handled. *)
Theorem mouse_drag_records_its_points (app : MelodiaApp.t)
  (press release : MouseEvent.t * Env.t)
  (moves : list (MouseEvent.t * Env.t)) :
  MelodiaApp.reachable app →
  MelodiaApp.mode_of app = MelodiaApp.Idle →
  AudioEngine.isReady (MelodiaApp.audioEngine app) = true →
  PathManager.findPathAtPoint (MelodiaApp.pathManager app)
    (InputEvent.point (mouse_input true false press.1)) 15 = None →
  let calls :=
    (TouchHandler.run wired_handler
       (TouchHandler.mousedown press.1
        :: (TouchHandler.mousemove <$> moves.*1)
        ++ [TouchHandler.mouseup release.1])).2 in
  let app' :=
    MelodiaApp.run app
      (deliver calls (press.2 :: moves.*2 ++ [release.2])) in
  MelodiaApp.mode_of app' = MelodiaApp.Idle
  ∧ ∃ path,
      PathManager.getPath (MelodiaApp.pathManager app')
        (PathManager.path_id
           (PathManager.pathCounter (MelodiaApp.pathManager app) + 1))
      = Some path
      ∧ AudioPath.points path
        = (fun event => stored_point event.1 event.2)
          <$> (press :: moves ++ [release]).
Proof.
  intros Hreach Hidle _ Hmiss calls app'.
  destruct (mouse_drag_calls wired_handler press.1 release.1 moves.*1)
    as (Hcalls & _).
  fold calls in Hcalls.
  assert (Hactions :
    deliver calls (press.2 :: moves.*2 ++ [release.2])
    = gesture (mouse_input true false press.1, press.2)
        ((fun move => (mouse_input false false move.1, move.2)) <$> moves)
        (mouse_input false true release.1, release.2)).
  { rewrite Hcalls. unfold gesture.
    transitivity
      (MelodiaApp.Start (mouse_input true false press.1) press.2
       :: deliver
            ((moves.*1 ≫= (fun e =>
                TouchHandler.forEach [MelodiaApp.Move]
                  (mouse_input false false e)))
             ++ [(MelodiaApp.End_, mouse_input false true release.1)])
            (moves.*2 ++ [release.2])); [reflexivity|].
    by rewrite deliver_moves. }
  subst app'. rewrite Hactions.
  destruct (recording_gesture_points app
              (mouse_input true false press.1, press.2)
              (mouse_input false true release.1, release.2)
              ((fun move => (mouse_input false false move.1, move.2))
               <$> moves) Hreach Hidle Hmiss)
    as (Hmode & _ & path & Hget & Hpoints & _).
  split; [done|]. exists path. split; [done|].
  rewrite Hpoints, !fmap_cons, !fmap_app, <- !list_fmap_compose.
  destruct press as [press penv], release as [release renv]. done.
Qed.

Lemma second_drag_misses :
  PathManager.findPathAtPoint (MelodiaApp.pathManager recorded_click)
    (InputEvent.point (mouse_input true false second_drag_press.1)) 15
  = None.
Proof.
  unfold PathManager.findPathAtPoint. simpl.
  unfold PathManager.isPointNearPath. simpl.
  unfold PathManager.updateBoundingBox, PathManager.createBoundingBox. simpl.
  decide_reals. simpl. decide_reals. reflexivity.
Qed.

Lemma mouse_drag_records_its_points_witness :
  let calls :=
    (TouchHandler.run wired_handler
       (TouchHandler.mousedown second_drag_press.1
        :: (TouchHandler.mousemove <$> [second_drag_move].*1)
        ++ [TouchHandler.mouseup second_drag_release.1])).2 in
  let app' :=
    MelodiaApp.run recorded_click
      (deliver calls
         (second_drag_press.2
          :: [second_drag_move].*2 ++ [second_drag_release.2])) in
  MelodiaApp.mode_of app' = MelodiaApp.Idle
  ∧ ∃ path,
      PathManager.getPath (MelodiaApp.pathManager app')
        (PathManager.path_id
           (PathManager.pathCounter (MelodiaApp.pathManager recorded_click)
            + 1))
      = Some path
      ∧ AudioPath.points path
        = (fun event => stored_point event.1 event.2)
          <$> (second_drag_press
               :: [second_drag_move] ++ [second_drag_release]).
Proof.
  apply (mouse_drag_records_its_points recorded_click second_drag_press
           second_drag_release [second_drag_move]).
  - by eexists true, _.
  - apply recorded_click_state.
  - apply recorded_click_state.
  - exact second_drag_misses.
Defined.
